(** * NanoPool: pool escrow and deterministic deployer

    A shallow embedding of [contracts/NanoPool.sol] and
    [contracts/Create2Factory.sol].  Solidity storage is a record that is
    threaded through a state-and-revert monad; [uint256] and [address] values
    are integers, mappings are finite maps read with the zero default, and the
    revert reasons are the strings of the source.  The ether the contract
    holds is part of the state: [contribute] takes it in and the two
    transfers send it out, and a transfer of more than is held fails. *)

From Stdlib Require Import ZArith Lia List String.
From Stdlib Require Strings.Byte.
From stdpp Require Import gmap strings list.

Open Scope Z_scope.

(** ** Machine integers *)

Definition MAX_UINT256 : Z := 2 ^ 256 - 1.
Definition MAX_UINT160 : Z := 2 ^ 160 - 1.

(** ** Storage layout of NanoPool *)

Record Pool := mkPool {
  initiator : Z;
  beneficiary : Z;
  description : string;
  goalAmount : Z;
  currentAmount : Z;
  deadlineTimestamp : Z;
  goalAchieved : bool;
  fundsDisbursed : bool;
  contributions : gmap Z Z;
  contributors : list Z
}.

(** The value every slot of [pools] holds before it is written. *)
Definition zeroPool : Pool :=
  mkPool 0 0 "" 0 0 0 false false ∅ [].

Inductive Event :=
| PoolCreated (poolId initiator beneficiary : Z) (description : string)
              (goalAmount deadlineTimestamp : Z)
| ContributionMade (poolId contributor amount newTotal : Z)
| GoalAchieved (poolId totalAmount : Z)
| FundsDisbursed (poolId beneficiary amount : Z)
| RefundClaimed (poolId contributor amount : Z)
| OwnershipTransferred (previousOwner newOwner : Z).

(** Contract storage ([_owner] comes from Ownable, [_status] from
    ReentrancyGuard) together with the log of emitted events and the ether
    the contract holds, [address(this).balance], in wei. *)
Record Contract := mkContract {
  _poolIdCounter : Z;
  pools : gmap Z Pool;
  _owner : Z;
  _status : Z;
  events : list Event;
  balance : Z
}.

Definition _NOT_ENTERED : Z := 1.
Definition _ENTERED : Z := 2.

(** [pools[_poolId]]: a mapping read never fails. *)
Definition poolAt (_poolId : Z) (s : Contract) : Pool :=
  default zeroPool (pools s !! _poolId).

(** [pool.contributions[who]] *)
Definition contributionOf (who : Z) (p : Pool) : Z :=
  default 0 (contributions p !! who).

(** *** Field assignments *)

Definition set_initiator (v : Z) (p : Pool) : Pool :=
  mkPool v (beneficiary p) (description p) (goalAmount p) (currentAmount p)
    (deadlineTimestamp p) (goalAchieved p) (fundsDisbursed p)
    (contributions p) (contributors p).
Definition set_beneficiary (v : Z) (p : Pool) : Pool :=
  mkPool (initiator p) v (description p) (goalAmount p) (currentAmount p)
    (deadlineTimestamp p) (goalAchieved p) (fundsDisbursed p)
    (contributions p) (contributors p).
Definition set_description (v : string) (p : Pool) : Pool :=
  mkPool (initiator p) (beneficiary p) v (goalAmount p) (currentAmount p)
    (deadlineTimestamp p) (goalAchieved p) (fundsDisbursed p)
    (contributions p) (contributors p).
Definition set_goalAmount (v : Z) (p : Pool) : Pool :=
  mkPool (initiator p) (beneficiary p) (description p) v (currentAmount p)
    (deadlineTimestamp p) (goalAchieved p) (fundsDisbursed p)
    (contributions p) (contributors p).
Definition set_currentAmount (v : Z) (p : Pool) : Pool :=
  mkPool (initiator p) (beneficiary p) (description p) (goalAmount p) v
    (deadlineTimestamp p) (goalAchieved p) (fundsDisbursed p)
    (contributions p) (contributors p).
Definition set_deadlineTimestamp (v : Z) (p : Pool) : Pool :=
  mkPool (initiator p) (beneficiary p) (description p) (goalAmount p)
    (currentAmount p) v (goalAchieved p) (fundsDisbursed p)
    (contributions p) (contributors p).
Definition set_goalAchieved (v : bool) (p : Pool) : Pool :=
  mkPool (initiator p) (beneficiary p) (description p) (goalAmount p)
    (currentAmount p) (deadlineTimestamp p) v (fundsDisbursed p)
    (contributions p) (contributors p).
Definition set_fundsDisbursed (v : bool) (p : Pool) : Pool :=
  mkPool (initiator p) (beneficiary p) (description p) (goalAmount p)
    (currentAmount p) (deadlineTimestamp p) (goalAchieved p) v
    (contributions p) (contributors p).
Definition set_contributors (v : list Z) (p : Pool) : Pool :=
  mkPool (initiator p) (beneficiary p) (description p) (goalAmount p)
    (currentAmount p) (deadlineTimestamp p) (goalAchieved p)
    (fundsDisbursed p) (contributions p) v.
(** [pool.contributions[who] = v] *)
Definition set_contribution (who v : Z) (p : Pool) : Pool :=
  mkPool (initiator p) (beneficiary p) (description p) (goalAmount p)
    (currentAmount p) (deadlineTimestamp p) (goalAchieved p)
    (fundsDisbursed p) (<[who := v]> (contributions p)) (contributors p).
(** [pool.contributors.push(who)] *)
Definition push_contributor (who : Z) (p : Pool) : Pool :=
  set_contributors (contributors p ++ [who]) p.

Definition set_poolIdCounter (v : Z) (s : Contract) : Contract :=
  mkContract v (pools s) (_owner s) (_status s) (events s) (balance s).
Definition set_pool (_poolId : Z) (p : Pool) (s : Contract) : Contract :=
  mkContract (_poolIdCounter s) (<[_poolId := p]> (pools s)) (_owner s)
    (_status s) (events s) (balance s).
Definition set_owner (v : Z) (s : Contract) : Contract :=
  mkContract (_poolIdCounter s) (pools s) v (_status s) (events s)
    (balance s).
Definition set_status (v : Z) (s : Contract) : Contract :=
  mkContract (_poolIdCounter s) (pools s) (_owner s) v (events s)
    (balance s).
Definition log_event (e : Event) (s : Contract) : Contract :=
  mkContract (_poolIdCounter s) (pools s) (_owner s) (_status s)
    (events s ++ [e]) (balance s).

(** Ether arriving with a call and ether leaving with one. *)
Definition credit (v : Z) (s : Contract) : Contract :=
  mkContract (_poolIdCounter s) (pools s) (_owner s) (_status s) (events s)
    (balance s + v).
Definition debit (v : Z) (s : Contract) : Contract :=
  mkContract (_poolIdCounter s) (pools s) (_owner s) (_status s) (events s)
    (balance s - v).

(** ** Execution monad

    A call either finishes with a value and the new storage, or aborts.  An
    abort keeps the storage as it was at the failing statement ([dirty]); the
    caller of the frame decides what to do with it, and a transaction throws
    it away. *)

Inductive Failure :=
| Revert (reason : string)
| Panic (code : Z).

Inductive Res (A : Type) :=
| Done (a : A) (s : Contract)
| Abort (f : Failure) (dirty : Contract).
Arguments Done {A} a s.
Arguments Abort {A} f dirty.

Definition M (A : Type) : Type := Contract → Res A.

Global Instance M_ret : MRet M := λ A a s, Done a s.
Global Instance M_bind : MBind M := λ A B k m s,
  match m s with
  | Done a s' => k a s'
  | Abort f d => Abort f d
  end.

Definition gets {A} (f : Contract → A) : M A := λ s, Done (f s) s.
Definition modify (f : Contract → Contract) : M unit := λ s, Done tt (f s).
Definition require (cond : bool) (reason : string) : M unit :=
  λ s, if cond then Done tt s else Abort (Revert reason) s.
Definition emit (e : Event) : M unit := modify (log_event e).

(** Read and write through the storage pointer [Pool storage pool]. *)
Definition sload {A} (_poolId : Z) (field : Pool → A) : M A :=
  gets (λ s, field (poolAt _poolId s)).
Definition sstore (_poolId : Z) (assign : Pool → Pool) : M unit :=
  modify (λ s, set_pool _poolId (assign (poolAt _poolId s)) s).

(** Checked [uint256] addition of Solidity 0.8: overflow is Panic(0x11). *)
Definition checked_add (a b : Z) : M Z :=
  λ s, if a + b <=? MAX_UINT256 then Done (a + b) s else Abort (Panic 17) s.

(** ** Inherited OpenZeppelin 4.9 behaviour *)

Record Msg := mkMsg {
  sender : Z;
  value : Z;
  timestamp : Z
}.

Definition nonReentrant {A} (body : M A) : M A :=
  st ← gets _status;
  require (negb (st =? _ENTERED)) "ReentrancyGuard: reentrant call";;
  modify (set_status _ENTERED);;
  r ← body;
  modify (set_status _NOT_ENTERED);;
  mret r.

Definition owner : M Z := gets _owner.

Definition _transferOwnership (newOwner : Z) : M unit :=
  oldOwner ← gets _owner;
  modify (set_owner newOwner);;
  emit (OwnershipTransferred oldOwner newOwner).

Definition onlyOwner {A} (msg : Msg) (body : M A) : M A :=
  o ← owner;
  require (o =? sender msg) "Ownable: caller is not the owner";;
  body.

Definition renounceOwnership (msg : Msg) : M unit :=
  onlyOwner msg (_transferOwnership 0).

Definition transferOwnership (msg : Msg) (newOwner : Z) : M unit :=
  onlyOwner msg (
    require (negb (newOwner =? 0)) "Ownable: new owner is the zero address";;
    _transferOwnership newOwner).

(** State after the three constructors have run for [deployer].  The
    constructor is not payable and the contract has no [receive]: the only
    ether counted is what [contribute] takes in.  (Ether forced onto the
    address would only add to [balance].) *)
Definition deployed (deployer : Z) : Contract :=
  mkContract 1 ∅ deployer _NOT_ENTERED [OwnershipTransferred 0 deployer] 0.

(** ** NanoPool *)

(** The names the specification gives to the revert reasons of the source. *)
Definition InvalidBeneficiary : Failure :=
  Revert "Beneficiary cannot be zero address".
Definition InvalidGoalAmount : Failure :=
  Revert "Goal amount must be greater than zero".
Definition InvalidDeadline : Failure :=
  Revert "Deadline must be in the future".
Definition PoolNotFound : Failure := Revert "Pool does not exist".
Definition DeadlinePassed : Failure := Revert "Pool deadline has passed".
Definition GoalAlreadyAchieved : Failure :=
  Revert "Pool goal already achieved".
Definition ZeroContribution : Failure :=
  Revert "Contribution amount must be greater than zero".
Definition Unauthorized : Failure :=
  Revert "Only pool initiator or contract owner can disburse funds".
Definition GoalNotAchieved : Failure := Revert "Pool goal not achieved".
Definition AlreadyDisbursed : Failure := Revert "Funds already disbursed".
Definition DeadlineNotReached : Failure :=
  Revert "Pool deadline not yet passed".
Definition GoalWasAchieved : Failure :=
  Revert "Pool goal was achieved, no refunds available".
Definition NoContribution : Failure := Revert "No contribution found".
Definition DisburseTransferFailed : Failure :=
  Revert "Transfer to beneficiary failed".
Definition RefundTransferFailed : Failure := Revert "Refund transfer failed".
Definition ReentrantCall : Failure :=
  Revert "ReentrancyGuard: reentrant call".

Definition createPool (msg : Msg) (_beneficiary : Z) (_description : string)
    (_goalAmount _deadlineTimestamp : Z) : M Z :=
  require (negb (_beneficiary =? 0)) "Beneficiary cannot be zero address";;
  require (0 <? _goalAmount) "Goal amount must be greater than zero";;
  require (timestamp msg <? _deadlineTimestamp)
    "Deadline must be in the future";;
  (* poolId = _poolIdCounter++ *)
  poolId ← gets _poolIdCounter;
  next ← checked_add poolId 1;
  modify (set_poolIdCounter next);;
  sstore poolId (set_initiator (sender msg));;
  sstore poolId (set_beneficiary _beneficiary);;
  sstore poolId (set_description _description);;
  sstore poolId (set_goalAmount _goalAmount);;
  sstore poolId (set_currentAmount 0);;
  sstore poolId (set_deadlineTimestamp _deadlineTimestamp);;
  sstore poolId (set_goalAchieved false);;
  sstore poolId (set_fundsDisbursed false);;
  sstore poolId (set_contributors []);;
  emit (PoolCreated poolId (sender msg) _beneficiary _description _goalAmount
          _deadlineTimestamp);;
  mret poolId.

Definition contribute (msg : Msg) (_poolId : Z) : M unit :=
  nonReentrant (
    creator ← sload _poolId initiator;
    require (negb (creator =? 0)) "Pool does not exist";;
    deadline ← sload _poolId deadlineTimestamp;
    require (timestamp msg <? deadline) "Pool deadline has passed";;
    achieved ← sload _poolId goalAchieved;
    require (negb achieved) "Pool goal already achieved";;
    require (0 <? value msg) "Contribution amount must be greater than zero";;
    recorded ← sload _poolId (contributionOf (sender msg));
    (if recorded =? 0
     then sstore _poolId (push_contributor (sender msg))
     else mret tt);;
    (* pool.contributions[msg.sender] += msg.value *)
    recorded ← sload _poolId (contributionOf (sender msg));
    credited ← checked_add recorded (value msg);
    sstore _poolId (set_contribution (sender msg) credited);;
    (* pool.currentAmount += msg.value *)
    raised ← sload _poolId currentAmount;
    total ← checked_add raised (value msg);
    sstore _poolId (set_currentAmount total);;
    newTotal ← sload _poolId currentAmount;
    emit (ContributionMade _poolId (sender msg) (value msg) newTotal);;
    raised ← sload _poolId currentAmount;
    goal ← sload _poolId goalAmount;
    achieved ← sload _poolId goalAchieved;
    if (goal <=? raised) && negb achieved
    then
      sstore _poolId (set_goalAchieved true);;
      raised ← sload _poolId currentAmount;
      emit (GoalAchieved _poolId raised)
    else mret tt).

Section ExternalCall.

(** [recipient.call{value: amount}("")]: what the recipient does with the
    control it is given is not part of this contract. *)
Variable call_value : Z → Z → M bool.

Definition disburseFunds (msg : Msg) (_poolId : Z) : M unit :=
  nonReentrant (
    creator ← sload _poolId initiator;
    require (negb (creator =? 0)) "Pool does not exist";;
    creator ← sload _poolId initiator;
    contractOwner ← owner;
    require ((sender msg =? creator) || (sender msg =? contractOwner))
      "Only pool initiator or contract owner can disburse funds";;
    achieved ← sload _poolId goalAchieved;
    require achieved "Pool goal not achieved";;
    disbursed ← sload _poolId fundsDisbursed;
    require (negb disbursed) "Funds already disbursed";;
    deadline ← sload _poolId deadlineTimestamp;
    require (deadline <=? timestamp msg) "Pool deadline not yet passed";;
    sstore _poolId (set_fundsDisbursed true);;
    payee ← sload _poolId beneficiary;
    raised ← sload _poolId currentAmount;
    success ← call_value payee raised;
    require success "Transfer to beneficiary failed";;
    payee ← sload _poolId beneficiary;
    raised ← sload _poolId currentAmount;
    emit (FundsDisbursed _poolId payee raised)).

Definition claimRefund (msg : Msg) (_poolId : Z) : M unit :=
  nonReentrant (
    creator ← sload _poolId initiator;
    require (negb (creator =? 0)) "Pool does not exist";;
    deadline ← sload _poolId deadlineTimestamp;
    require (deadline <=? timestamp msg) "Pool deadline not yet passed";;
    achieved ← sload _poolId goalAchieved;
    require (negb achieved) "Pool goal was achieved, no refunds available";;
    contributionAmount ← sload _poolId (contributionOf (sender msg));
    require (0 <? contributionAmount) "No contribution found";;
    sstore _poolId (set_contribution (sender msg) 0);;
    success ← call_value (sender msg) contributionAmount;
    require success "Refund transfer failed";;
    emit (RefundClaimed _poolId (sender msg) contributionAmount)).

End ExternalCall.

(** *** Read-only accessors *)

Definition getPoolDetails (_poolId : Z)
  : M (Z * Z * string * Z * Z * Z * bool * bool) :=
  creator ← sload _poolId initiator;
  require (negb (creator =? 0)) "Pool does not exist";;
  gets (λ s, let pool := poolAt _poolId s in
             (initiator pool, beneficiary pool, description pool,
              goalAmount pool, currentAmount pool, deadlineTimestamp pool,
              goalAchieved pool, fundsDisbursed pool)).

Definition getContribution (_poolId _contributor : Z) : M Z :=
  creator ← sload _poolId initiator;
  require (negb (creator =? 0)) "Pool does not exist";;
  sload _poolId (contributionOf _contributor).

Definition getContributors (_poolId : Z) : M (list Z) :=
  creator ← sload _poolId initiator;
  require (negb (creator =? 0)) "Pool does not exist";;
  sload _poolId contributors.

(** ** Transactions

    A transaction is one external call into the contract.  [tx_callee]
    describes the code that runs at the recipient of the value transfer the
    call may make: the calls it makes back into this contract while it holds
    control (each with the address that makes it), and whether it finally
    accepts the value.  A recipient that does not accept has everything it
    did undone. *)

Inductive Call :=
| CreatePool (_beneficiary : Z) (_description : string)
             (_goalAmount _deadlineTimestamp : Z)
| Contribute (_poolId attached : Z)
| DisburseFunds (_poolId : Z)
| ClaimRefund (_poolId : Z)
| TransferOwnership (newOwner : Z)
| RenounceOwnership.

Record Callee := mkCallee {
  reentrant : list (Z * Call);
  accepts : bool
}.

Record Tx := mkTx {
  tx_from : Z;
  tx_time : Z;
  tx_call : Call;
  tx_callee : Callee
}.

(** [msg.value] reaches the contract before the code of a payable function
    runs (and goes back with everything else if that code reverts).  Which
    values a caller is able to send is not decided here; see [sendable]. *)
Definition pay (v : Z) : M unit := modify (credit v).

(** The function selector: only [contribute] is payable. *)
Definition dispatch (call_value : Z → Z → M bool) (from now : Z) (c : Call)
  : M (option Z) :=
  match c with
  | CreatePool b d g t =>
      poolId ← createPool (mkMsg from 0 now) b d g t; mret (Some poolId)
  | Contribute pid v => pay v;; contribute (mkMsg from v now) pid;; mret None
  | DisburseFunds pid =>
      disburseFunds call_value (mkMsg from 0 now) pid;; mret None
  | ClaimRefund pid =>
      claimRefund call_value (mkMsg from 0 now) pid;; mret None
  | TransferOwnership a => transferOwnership (mkMsg from 0 now) a;; mret None
  | RenounceOwnership => renounceOwnership (mkMsg from 0 now);; mret None
  end.

(** A call made while a guarded function is running.  Its failure is seen by
    the code that made it and undoes only that call. *)
Definition reenter (now : Z) (rc : Z * Call) : M unit := λ s,
  match dispatch (λ _ _, mret false) rc.1 now rc.2 s with
  | Done _ s' => Done tt s'
  | Abort _ _ => Done tt s
  end.

Fixpoint reenter_all (now : Z) (rcs : list (Z * Call)) : M unit :=
  match rcs with
  | [] => mret tt
  | rc :: rest => reenter now rc;; reenter_all now rest
  end.

(** [recipient.call{value: amount}("")].  The call fails at once when the
    contract holds less than [amount].  Otherwise the value moves, the
    recipient's code runs, and if it does not accept, the move and
    everything the recipient did are undone. *)
Definition external_call (now : Z) (callee : Callee) (recipient amount : Z)
  : M bool := λ s,
  if (amount <=? balance s) && accepts callee
  then (modify (debit amount);;
        reenter_all now (reentrant callee);; mret true) s
  else Done false s.

Definition execute (tx : Tx) : M (option Z) :=
  dispatch (external_call (tx_time tx) (tx_callee tx))
    (tx_from tx) (tx_time tx) (tx_call tx).

(** A failed transaction leaves no trace in storage. *)
Definition transact (s : Contract) (tx : Tx) : Contract :=
  match execute tx s with
  | Done _ s' => s'
  | Abort _ _ => s
  end.

Definition succeeds (s : Contract) (tx : Tx) : bool :=
  match execute tx s with
  | Done _ _ => true
  | Abort _ _ => false
  end.

Definition failure (s : Contract) (tx : Tx) : option Failure :=
  match execute tx s with
  | Done _ _ => None
  | Abort f _ => Some f
  end.

Definition run (s : Contract) (txs : list Tx) : Contract :=
  fold_left transact txs s.

(** Callers are never the zero address. *)
Definition wf_tx (tx : Tx) : bool :=
  negb (tx_from tx =? 0)
  && forallb (λ rc : Z * Call, negb (rc.1 =? 0)) (reentrant (tx_callee tx)).

(** Block timestamps do not go back. *)
Fixpoint chronological (t0 : Z) (txs : list Tx) : bool :=
  match txs with
  | [] => true
  | tx :: rest => (t0 <=? tx_time tx) && chronological (tx_time tx) rest
  end.

Definition clock (t0 : Z) (txs : list Tx) : Z :=
  fold_left (λ _ tx, tx_time tx) txs t0.

(** ** Storage after a successful call

    The storage each function leaves when every [require] passes, written
    out once; the lemmas of the second part show that the monadic code
    produces exactly these. *)

Definition created_pool (msg : Msg) (b : Z) (d : string) (g t : Z)
    (slot : Pool) : Pool :=
  mkPool (sender msg) b d g 0 t false false (contributions slot) [].

Definition after_createPool (msg : Msg) (b : Z) (d : string) (g t : Z)
    (s : Contract) : Contract :=
  let id := _poolIdCounter s in
  mkContract (id + 1)
    (<[id := created_pool msg b d g t (poolAt id s)]> (pools s))
    (_owner s) (_status s)
    (events s ++ [PoolCreated id (sender msg) b d g t])
    (balance s).

Definition pool_after_contribute (who v : Z) (p : Pool) : Pool :=
  mkPool (initiator p) (beneficiary p) (description p) (goalAmount p)
    (currentAmount p + v) (deadlineTimestamp p)
    (goalAmount p <=? currentAmount p + v) (fundsDisbursed p)
    (<[who := contributionOf who p + v]> (contributions p))
    (if contributionOf who p =? 0 then contributors p ++ [who]
     else contributors p).

Definition after_contribute (msg : Msg) (pid : Z) (s : Contract) : Contract :=
  let p := poolAt pid s in
  let total := currentAmount p + value msg in
  mkContract (_poolIdCounter s)
    (<[pid := pool_after_contribute (sender msg) (value msg) p]> (pools s))
    (_owner s) _NOT_ENTERED
    (events s ++
     ContributionMade pid (sender msg) (value msg) total ::
     (if goalAmount p <=? total then [GoalAchieved pid total] else []))
    (balance s + value msg).

Definition after_transferOwnership (newOwner : Z) (s : Contract) : Contract :=
  log_event (OwnershipTransferred (_owner s) newOwner) (set_owner newOwner s).

(** Storage at the moment [disburseFunds] hands control to the payee. *)
Definition disbursing (pid : Z) (s : Contract) : Contract :=
  set_pool pid (set_fundsDisbursed true (poolAt pid s))
    (set_status _ENTERED s).

(** Storage at the moment [claimRefund] hands control to the caller. *)
Definition refunding (who pid : Z) (s : Contract) : Contract :=
  set_pool pid (set_contribution who 0 (poolAt pid s))
    (set_status _ENTERED s).

(** Storage after one call made from inside a value transfer. *)
Definition nested (now : Z) (s : Contract) (rc : Z * Call) : Contract :=
  match dispatch (λ _ _, mret false) rc.1 now rc.2 s with
  | Done _ s' => s'
  | Abort _ _ => s
  end.

Definition after_calls (now : Z) (rcs : list (Z * Call)) (s : Contract)
  : Contract :=
  fold_left (nested now) rcs s.

Definition after_disburseFunds (now : Z) (callee : Callee) (pid : Z)
    (s : Contract) : Contract :=
  let s2 := after_calls now (reentrant callee) (disbursing pid s) in
  set_status _NOT_ENTERED
    (log_event
       (FundsDisbursed pid (beneficiary (poolAt pid s2))
          (currentAmount (poolAt pid s2)))
       (debit (currentAmount (poolAt pid s)) s2)).

Definition after_claimRefund (now : Z) (callee : Callee) (who pid : Z)
    (s : Contract) : Contract :=
  let s2 := after_calls now (reentrant callee) (refunding who pid s) in
  set_status _NOT_ENTERED
    (log_event
       (RefundClaimed pid who (contributionOf who (poolAt pid s)))
       (debit (contributionOf who (poolAt pid s)) s2)).

(** ** What a transaction can do to storage

    [callbacks] are the effects of the calls a recipient makes while it holds
    control: the guard is set, so only the unguarded functions get through.
    [step] is the effect of one successful transaction.  [ok] is what is
    known about the addresses that call. *)

Inductive callbacks (ok : Z → Prop) (now : Z) : Contract → Contract → Prop :=
| cb_done s : callbacks ok now s s
| cb_createPool s from b d g t s' :
    ok from → b ≠ 0 → 0 < g → now < t →
    _poolIdCounter s + 1 ≤ MAX_UINT256 →
    callbacks ok now (after_createPool (mkMsg from 0 now) b d g t s) s' →
    callbacks ok now s s'
| cb_owner s a s' :
    callbacks ok now (after_transferOwnership a s) s' →
    callbacks ok now s s'.

Inductive step (ok : Z → Prop) (now : Z) (s : Contract) : Contract → Prop :=
| step_createPool from b d g t :
    ok from → b ≠ 0 → 0 < g → now < t →
    _poolIdCounter s + 1 ≤ MAX_UINT256 →
    step ok now s (after_createPool (mkMsg from 0 now) b d g t s)
| step_contribute from v pid :
    initiator (poolAt pid s) ≠ 0 →
    now < deadlineTimestamp (poolAt pid s) →
    goalAchieved (poolAt pid s) = false →
    0 < v →
    contributionOf from (poolAt pid s) + v ≤ MAX_UINT256 →
    currentAmount (poolAt pid s) + v ≤ MAX_UINT256 →
    step ok now s (after_contribute (mkMsg from v now) pid s)
| step_disburseFunds callee pid :
    initiator (poolAt pid s) ≠ 0 →
    goalAchieved (poolAt pid s) = true →
    fundsDisbursed (poolAt pid s) = false →
    deadlineTimestamp (poolAt pid s) ≤ now →
    currentAmount (poolAt pid s) ≤ balance s →
    callbacks ok now (disbursing pid s)
      (after_calls now (reentrant callee) (disbursing pid s)) →
    step ok now s (after_disburseFunds now callee pid s)
| step_claimRefund callee from pid :
    initiator (poolAt pid s) ≠ 0 →
    deadlineTimestamp (poolAt pid s) ≤ now →
    goalAchieved (poolAt pid s) = false →
    0 < contributionOf from (poolAt pid s) →
    contributionOf from (poolAt pid s) ≤ balance s →
    callbacks ok now (refunding from pid s)
      (after_calls now (reentrant callee) (refunding from pid s)) →
    step ok now s (after_claimRefund now callee from pid s)
| step_owner a :
    step ok now s (after_transferOwnership a s).

(** ** Invariants *)

(** Ids of the pools announced in a log, oldest first. *)
Definition createdIds (l : list Event) : list Z :=
  flat_map (λ e, match e with
                 | PoolCreated id _ _ _ _ _ => [id]
                 | _ => []
                 end) l.

(** Holds whatever the callers and the clock do. *)
Record sound (s : Contract) : Prop := mkSound {
  sound_counter : 1 ≤ _poolIdCounter s;
  sound_fresh : ∀ pid, is_Some (pools s !! pid) → 1 ≤ pid < _poolIdCounter s;
  sound_created : createdIds (events s) = seqZ 1 (_poolIdCounter s - 1);
  sound_ledger : ∀ pid a,
    0 ≤ contributionOf a (poolAt pid s) ≤ currentAmount (poolAt pid s);
  sound_ghost : ∀ pid,
    initiator (poolAt pid s) = 0 → goalAchieved (poolAt pid s) = false;
  sound_listed : ∀ pid a,
    contributionOf a (poolAt pid s) ≠ 0 → a ∈ contributors (poolAt pid s)
}.

(** Holds when time does not go back; [now] is the time of the last block. *)
Record orderly (now : Z) (s : Contract) : Prop := mkOrderly {
  orderly_nodup : ∀ pid, NoDup (contributors (poolAt pid s));
  orderly_late : ∀ pid a,
    a ∈ contributors (poolAt pid s) → contributionOf a (poolAt pid s) = 0 →
    deadlineTimestamp (poolAt pid s) ≤ now
}.

(** Holds when no caller is the zero address: every id handed out is a pool. *)
Definition populated (s : Contract) : Prop :=
  ∀ pid, 1 ≤ pid < _poolIdCounter s → initiator (poolAt pid s) ≠ 0.

(** ** Histories *)

(** Value attached by [tx] if it is an accepted contribution to [pid]
    (from [who], when given). *)
Definition attached_to (pid : Z) (who : option Z) (s : Contract) (tx : Tx)
  : Z :=
  match tx_call tx with
  | Contribute p v =>
      if succeeds s tx && bool_decide (p = pid)
         && match who with
            | Some a => bool_decide (tx_from tx = a)
            | None => true
            end
      then v else 0
  | _ => 0
  end.

(** Sum of the values of the accepted contributions to [pid] along [txs]. *)
Fixpoint contributed (pid : Z) (who : option Z) (s : Contract)
    (txs : list Tx) : Z :=
  match txs with
  | [] => 0
  | tx :: rest =>
      attached_to pid who s tx + contributed pid who (transact s tx) rest
  end.

(** What is known about the addresses behind a transaction. *)
Definition callers (ok : Z → Prop) (tx : Tx) : Prop :=
  ok (tx_from tx) ∧ Forall (λ rc : Z * Call, ok rc.1) (reentrant (tx_callee tx)).

(** ** Sample histories *)

(** A recipient without code: it accepts the value and calls nothing. *)
Definition plain : Callee := mkCallee [] true.

(** A recipient that refuses the value. *)
Definition refusing : Callee := mkCallee [] false.

(** A recipient that opens a pool of its own while it is being paid. *)
Definition busy : Callee :=
  mkCallee [(7, CreatePool 7 "side pool" 5 1000)] true.

(** Pool 1 (goal 100, deadline 50) is opened by 5; 7 gives 40, 8 gives 60. *)
Definition funded : list Tx :=
  [ mkTx 5 10 (CreatePool 6 "well" 100 50) plain;
    mkTx 7 11 (Contribute 1 40) plain;
    mkTx 8 12 (Contribute 1 60) plain ].

(** Pool 1 (goal 100, deadline 50) is opened by 5; 7 gives 30 and then 10,
    8 gives 20, and after the deadline 7 takes its 40 back. *)
Definition expired : list Tx :=
  [ mkTx 5 10 (CreatePool 6 "roof" 100 50) plain;
    mkTx 7 11 (Contribute 1 30) plain;
    mkTx 8 12 (Contribute 1 20) plain;
    mkTx 7 13 (Contribute 1 10) plain;
    mkTx 7 60 (ClaimRefund 1) plain ].

(** Pool 1 has the largest goal there is; 7 gives 1. *)
Definition huge : list Tx :=
  [ mkTx 5 10 (CreatePool 6 "moon" MAX_UINT256 50) plain;
    mkTx 7 11 (Contribute 1 1) plain ].

(** ** EVM primitives used by Create2Factory

    [bytes] values are lists of bytes; a [bytes32] is the integer its 32
    bytes spell, most significant byte first.  [keccak256] is the hash
    built into the EVM (Keccak-f[1600], rate 136 bytes, domain byte 0x01). *)

Definition Z_of_byte (b : Byte.byte) : Z := Z.of_N (Byte.to_N b).

Definition byte_of_Z (z : Z) : Byte.byte :=
  default Byte.x00 (Byte.of_N (Z.to_N (z mod 256))).

(** The [n] low bytes of [v], most significant first. *)
Fixpoint be_bytes (n : nat) (v : Z) : list Byte.byte :=
  match n with
  | O => []
  | S k => be_bytes k (v / 256) ++ [byte_of_Z v]
  end.

Definition be_decode (l : list Byte.byte) : Z :=
  fold_left (λ acc b, acc * 256 + Z_of_byte b) l 0.

Fixpoint le_bytes (n : nat) (v : Z) : list Byte.byte :=
  match n with
  | O => []
  | S k => byte_of_Z v :: le_bytes k (v / 256)
  end.

Definition le_decode (l : list Byte.byte) : Z :=
  fold_right (λ b acc, Z_of_byte b + 256 * acc) 0 l.

Definition MASK64 : Z := 2 ^ 64 - 1.

Definition rotl64 (v r : Z) : Z :=
  Z.land (Z.lor (Z.shiftl v r) (Z.shiftr v (64 - r))) MASK64.

(** Lane (x, y) of a state of 25 lanes of 64 bits. *)
Definition lane (st : list Z) (x y : nat) : Z := nth (x + 5 * y) st 0.

Definition rotation_offsets : list Z :=
  [ 0; 1; 62; 28; 27;
    36; 44; 6; 55; 20;
    3; 10; 43; 25; 39;
    41; 45; 15; 21; 8;
    18; 2; 61; 56; 14 ].

Definition round_constants : list Z :=
  [ 0x0000000000000001; 0x0000000000008082; 0x800000000000808A;
    0x8000000080008000; 0x000000000000808B; 0x0000000080000001;
    0x8000000080008081; 0x8000000000008009; 0x000000000000008A;
    0x0000000000000088; 0x0000000080008009; 0x000000008000000A;
    0x000000008000808B; 0x800000000000008B; 0x8000000000008089;
    0x8000000000008003; 0x8000000000008002; 0x8000000000000080;
    0x000000000000800A; 0x800000008000000A; 0x8000000080008081;
    0x8000000000008080; 0x0000000080000001; 0x8000000080008008 ].

Definition positions : list (nat * nat) :=
  flat_map (λ y, map (λ x, (x, y)) (seq 0 5)) (seq 0 5).

Definition theta (st : list Z) : list Z :=
  let C x :=
    Z.lxor (lane st x 0)
      (Z.lxor (lane st x 1)
         (Z.lxor (lane st x 2) (Z.lxor (lane st x 3) (lane st x 4)))) in
  let D x :=
    Z.lxor (C ((x + 4) mod 5)%nat) (rotl64 (C ((x + 1) mod 5)%nat) 1) in
  map (λ '(x, y), Z.lxor (lane st x y) (D x)) positions.

Definition rho_pi (st : list Z) : list Z :=
  map (λ '(x, y),
         let x0 := ((x + 3 * y) mod 5)%nat in
         rotl64 (lane st x0 x) (nth (x0 + 5 * x) rotation_offsets 0))
      positions.

Definition chi (st : list Z) : list Z :=
  map (λ '(x, y),
         Z.lxor (lane st x y)
           (Z.land (Z.lxor (lane st ((x + 1) mod 5)%nat y) MASK64)
                   (lane st ((x + 2) mod 5)%nat y)))
      positions.

Definition iota (rc : Z) (st : list Z) : list Z :=
  match st with
  | [] => []
  | a :: rest => Z.lxor a rc :: rest
  end.

Definition keccak_round (st : list Z) (rc : Z) : list Z :=
  iota rc (chi (rho_pi (theta st))).

Definition keccak_f (st : list Z) : list Z :=
  fold_left keccak_round round_constants st.

Definition RATE : nat := 136.

Definition pad (msg : list Byte.byte) : list Byte.byte :=
  let q := (RATE - length msg mod RATE)%nat in
  if (q =? 1)%nat then msg ++ [byte_of_Z 0x81]
  else msg ++ [byte_of_Z 0x01] ++ repeat Byte.x00 (q - 2) ++ [byte_of_Z 0x80].

Fixpoint lanes_of (n : nat) (block : list Byte.byte) : list Z :=
  match n with
  | O => []
  | S k => le_decode (take 8 block) :: lanes_of k (drop 8 block)
  end.

Definition absorb_block (st : list Z) (block : list Byte.byte) : list Z :=
  keccak_f (zip_with Z.lxor st (lanes_of 17 block ++ repeat 0 8)).

Fixpoint absorb (blocks : nat) (st : list Z) (data : list Byte.byte)
  : list Z :=
  match blocks with
  | O => st
  | S k => absorb k (absorb_block st (take RATE data)) (drop RATE data)
  end.

Definition keccak256_bytes (msg : list Byte.byte) : list Byte.byte :=
  let data := pad msg in
  let st := absorb (length data / RATE) (repeat 0 25) data in
  le_bytes 8 (lane st 0 0) ++ le_bytes 8 (lane st 1 0)
  ++ le_bytes 8 (lane st 2 0) ++ le_bytes 8 (lane st 3 0).

Definition keccak256 (msg : list Byte.byte) : Z :=
  be_decode (keccak256_bytes msg).

(** The address rule of the CREATE2 instruction (EIP-1014): the last 20
    bytes of the hash of 0xff, the creator, the salt and the hash of the
    init code. *)
Definition create2_address (creator salt : Z) (init_code : list Byte.byte)
  : Z :=
  be_decode
    (drop 12
       (keccak256_bytes
          ([Byte.xff] ++ be_bytes 20 creator ++ be_bytes 32 salt
           ++ keccak256_bytes init_code))).

(** ** Create2Factory *)

(** [abi.encodePacked(bytes1(0xff), address(this), salt, hash)] *)
Definition encodePacked (this salt hash : Z) : list Byte.byte :=
  [Byte.xff] ++ be_bytes 20 this ++ be_bytes 32 salt ++ be_bytes 32 hash.

(** [address(uint160(uint256(hash)))] *)
Definition to_address (hash : Z) : Z := Z.land hash MAX_UINT160.

Definition computeAddress (this : Z) (bytecode : list Byte.byte) (salt : Z)
  : Z :=
  let hash := keccak256 (encodePacked this salt (keccak256 bytecode)) in
  to_address hash.

Definition computeAddressFromHash (this bytecodeHash salt : Z) : Z :=
  let hash := keccak256 (encodePacked this salt bytecodeHash) in
  to_address hash.

Inductive FactoryEvent :=
| ContractDeployed (deployedAddress salt : Z).

(** The part of the chain [deploy] touches: the accounts that hold code, and
    the factory's log. *)
Record World := mkWorld {
  code_at : gmap Z (list Byte.byte);
  deployments : list FactoryEvent
}.

Definition DeploymentFailed : Failure :=
  Revert "Create2Factory: deployment failed".

Section Create2.

(** What running an init code returns: the runtime code, or nothing when it
    reverts.  The interpreter is not part of this development. *)
Variable run_init : list Byte.byte → option (list Byte.byte).

(** The CREATE2 instruction with no value attached: 0 on an address that is
    taken or when the init code fails, otherwise the new address, which from
    then on holds the code. *)
Definition create2 (creator : Z) (init_code : list Byte.byte) (salt : Z)
    (w : World) : Z * World :=
  let target := create2_address creator salt init_code in
  match code_at w !! target with
  | Some _ => (0, w)
  | None =>
      match run_init init_code with
      | Some runtime =>
          (target, mkWorld (<[target := runtime]> (code_at w)) (deployments w))
      | None => (0, w)
      end
  end.

Definition deploy (this : Z) (bytecode : list Byte.byte) (salt : Z)
    (w : World) : Failure + Z * World :=
  let '(deployedAddress, w1) := create2 this bytecode salt w in
  if deployedAddress =? 0 then inl DeploymentFailed
  else
    inr (deployedAddress,
         mkWorld (code_at w1)
           (deployments w1 ++ [ContractDeployed deployedAddress salt])).

End Create2.

(** ** More of NanoPool.sol *)

(** The getter Solidity generates for [mapping(uint256 => Pool) public
    pools]: the members that are neither a mapping nor an array. *)
Definition pools_getter (_poolId : Z)
  : M (Z * Z * string * Z * Z * Z * bool * bool) :=
  gets (λ s, let pool := poolAt _poolId s in
             (initiator pool, beneficiary pool, description pool,
              goalAmount pool, currentAmount pool, deadlineTimestamp pool,
              goalAchieved pool, fundsDisbursed pool)).

(** The terms a pool is created with. *)
Definition terms (p : Pool) : Z * Z * string * Z * Z :=
  (initiator p, beneficiary p, description p, goalAmount p,
   deadlineTimestamp p).

(** Whether a call made from inside a value transfer is to a function
    behind [nonReentrant]. *)
Definition guarded (c : Call) : bool :=
  match c with
  | Contribute _ _ | DisburseFunds _ | ClaimRefund _ => true
  | _ => false
  end.

(** The same transaction with the recipient's calls to guarded functions
    left out. *)
Definition without_guarded_calls (tx : Tx) : Tx :=
  mkTx (tx_from tx) (tx_time tx) (tx_call tx)
    (mkCallee
       (filter (λ rc : Z * Call, guarded rc.2 = false)
          (reentrant (tx_callee tx)))
       (accepts (tx_callee tx))).

(** Holds whatever the callers and the clock do: the goal flag says whether
    the goal is met, and only achieved pools are paid out. *)
Record settled (p : Pool) : Prop := mkSettled {
  settled_goal : initiator p ≠ 0 → 0 < goalAmount p;
  settled_flag : goalAchieved p = (goalAmount p <=? currentAmount p)
                 ∨ (initiator p = 0 ∧ goalAchieved p = false);
  settled_paid : fundsDisbursed p = true → goalAchieved p = true
}.

(** ** The front end's reading of a pool (lib/contracts.ts) *)

Module Frontend.

Inductive PoolStatus := ACTIVE | GOAL_ACHIEVED | EXPIRED | DISBURSED.

(** [now] is [BigInt(Math.floor(Date.now() / 1000))]. *)
Definition getPoolStatus (pool : Pool) (now : Z) : PoolStatus :=
  if fundsDisbursed pool then DISBURSED
  else if goalAchieved pool then GOAL_ACHIEVED
  else if deadlineTimestamp pool <? now then EXPIRED
  else ACTIVE.

Definition isPoolExpired (deadlineTimestamp now : Z) : bool :=
  deadlineTimestamp <? now.

End Frontend.

(** [funded], then the initiator pays the pool out after the deadline. *)
Definition paid : list Tx :=
  funded ++ [ mkTx 5 60 (DisburseFunds 1) plain ].

(** ** What the log says was paid

    The value that went into a pool and the value that left it, read off
    the events: [contribute] takes what [ContributionMade] reports, and the
    two transfers send what [FundsDisbursed] and [RefundClaimed] report. *)

Definition contribution_logged (pid : Z) (e : Event) : Z :=
  match e with
  | ContributionMade id _ amount _ => if bool_decide (id = pid) then amount else 0
  | _ => 0
  end.

Definition payout_logged (pid : Z) (e : Event) : Z :=
  match e with
  | FundsDisbursed id _ amount => if bool_decide (id = pid) then amount else 0
  | _ => 0
  end.

Definition refund_logged (pid : Z) (e : Event) : Z :=
  match e with
  | RefundClaimed id _ amount => if bool_decide (id = pid) then amount else 0
  | _ => 0
  end.

Definition logged (f : Event → Z) (l : list Event) : Z :=
  foldr (λ e acc, f e + acc) 0 l.

(** The entries of a pool's ledger, added up. *)
Definition ledger_total (p : Pool) : Z :=
  map_fold (λ _ v acc, v + acc) 0 (contributions p).

(** The books of one pool: [pin], [pref] and [pout] are what the log says
    was paid in, refunded and paid out. *)
Record balanced (now pin pref pout : Z) (p : Pool) : Prop := mkBalanced {
  bal_in : pin = currentAmount p;
  bal_ledger : pref + ledger_total p = currentAmount p;
  bal_refunds : 0 ≤ pref;
  bal_out : pout = if fundsDisbursed p then currentAmount p else 0;
  bal_flag : fundsDisbursed p = true → goalAchieved p = true;
  bal_late : pref ≠ 0 → deadlineTimestamp p ≤ now ∧ goalAchieved p = false
}.

Definition books (now pid : Z) (s : Contract) : Prop :=
  balanced now
    (logged (contribution_logged pid) (events s))
    (logged (refund_logged pid) (events s))
    (logged (payout_logged pid) (events s))
    (poolAt pid s).

(** How often the log announces that a pool reached its goal, and that it
    was paid out. *)
Definition goal_announced (pid : Z) (e : Event) : Z :=
  match e with
  | GoalAchieved id _ => if bool_decide (id = pid) then 1 else 0
  | _ => 0
  end.

Definition payout_announced (pid : Z) (e : Event) : Z :=
  match e with
  | FundsDisbursed id _ _ => if bool_decide (id = pid) then 1 else 0
  | _ => 0
  end.

(** Events that [createPool] and the ownership functions emit. *)
Definition housekeeping (e : Event) : bool :=
  match e with
  | PoolCreated _ _ _ _ _ _ | OwnershipTransferred _ _ => true
  | _ => false
  end.

(** ** lib/contracts.ts: progress in percent *)

(** [Number(x)] for a bigint [x]: the double nearest to [x], ties to even.
    It is an integer again, given here as such; it is finite as long as
    [x] is below 2^1024 in absolute value. *)
Definition Number (x : Z) : Z :=
  let a := Z.abs x in
  let n := Z.log2 a + 1 in
  if n <=? 53 then x
  else
    let shift := n - 53 in
    let q := Z.shiftr a shift in
    let rest := Z.land a (Z.ones shift) in
    let half := Z.shiftl 1 (shift - 1) in
    let q' := if (half <? rest) || ((rest =? half) && Z.odd q)
              then q + 1 else q in
    Z.sgn x * Z.shiftl q' shift.

Definition getPoolProgress (pool : Pool) : Z :=
  if goalAmount pool =? 0 then 0
  else Number (Z.quot (currentAmount pool * 100) (goalAmount pool)).

(** ** The ether behind the pools *)

(** What the log says is still held for a pool: paid in, less refunded and
    paid out. *)
Definition holding (pid : Z) (l : list Event) : Z :=
  logged (contribution_logged pid) l
  - logged (refund_logged pid) l
  - logged (payout_logged pid) l.

Definition held (ids : list Z) (l : list Event) : Z :=
  foldr (λ k acc, holding k l + acc) 0 ids.

(** The contract holds at least what any number of its pools hold. *)
Definition solvent (s : Contract) : Prop :=
  ∀ ids, NoDup ids → held ids (events s) ≤ balance s.

(** The value attached to a call can be sent: no account ever holds more
    than the largest [uint256], so the receiving balance does not wrap. *)
Definition sendable (s : Contract) (tx : Tx) : Prop :=
  match tx_call tx with
  | Contribute _ v => balance s + v ≤ MAX_UINT256
  | _ => True
  end.

(** ** The ids [createPool] hands out *)

(** The id a call returns to its caller, if it is an accepted [createPool]. *)
Definition call_ids (call_value : Z → Z → M bool) (from now : Z) (c : Call)
    (s : Contract) : list Z :=
  match dispatch call_value from now c s with
  | Done (Some id) _ => [id]
  | _ => []
  end.

(** The ids returned to a recipient that calls back, oldest first. *)
Fixpoint nested_ids (now : Z) (rcs : list (Z * Call)) (s : Contract)
  : list Z :=
  match rcs with
  | [] => []
  | rc :: rest =>
      call_ids (λ _ _, mret false) rc.1 now rc.2 s
      ++ nested_ids now rest (nested now s rc)
  end.

(** The ids returned by the accepted [createPool] calls of a transaction:
    the call itself, or the calls the recipient of its transfer makes.  A
    transaction that fails has made none. *)
Definition tx_ids (s : Contract) (tx : Tx) : list Z :=
  match execute tx s with
  | Done r _ =>
      match tx_call tx, r with
      | CreatePool _ _ _ _, Some id => [id]
      | DisburseFunds pid, _ =>
          nested_ids (tx_time tx) (reentrant (tx_callee tx))
            (debit (currentAmount (poolAt pid s)) (disbursing pid s))
      | ClaimRefund pid, _ =>
          nested_ids (tx_time tx) (reentrant (tx_callee tx))
            (debit (contributionOf (tx_from tx) (poolAt pid s))
               (refunding (tx_from tx) pid s))
      | _, _ => []
      end
  | Abort _ _ => []
  end.

(** The ids returned by all accepted [createPool] calls of a history, in the
    order of the calls. *)
Fixpoint returned_ids (s : Contract) (txs : list Tx) : list Z :=
  match txs with
  | [] => []
  | tx :: rest => tx_ids s tx ++ returned_ids (transact s tx) rest
  end.

(** Pool 1 is opened, a call with a zero beneficiary is rejected, pool 1 is
    funded and paid out to a recipient that opens a pool while it is paid,
    and then a third pool is opened. *)
Definition three_pools : list Tx :=
  [ mkTx 5 10 (CreatePool 6 "well" 100 50) plain;
    mkTx 5 10 (CreatePool 0 "void" 100 50) plain;
    mkTx 7 11 (Contribute 1 100) plain;
    mkTx 5 60 (DisburseFunds 1) busy;
    mkTx 8 61 (CreatePool 9 "next" 1 100) plain ].

(** A history no chain produces, its timestamps go back: 7 gives 40 to
    pool 1 (goal 100, deadline 50) and takes it back at the deadline, then
    8 gives 60 in an earlier block.  The pool counts 100 and holds 60. *)
Definition refilled : list Tx :=
  [ mkTx 5 10 (CreatePool 6 "well" 100 50) plain;
    mkTx 7 11 (Contribute 1 40) plain;
    mkTx 7 50 (ClaimRefund 1) plain;
    mkTx 8 49 (Contribute 1 60) plain ].

(** * Properties *)

(** ** Storage algebra *)

Lemma poolAt_set_pool_eq pid p s : poolAt pid (set_pool pid p s) = p.
Proof. unfold poolAt, set_pool; simpl. by rewrite lookup_insert_eq. Qed.

Lemma poolAt_set_pool_ne pid pid' p s :
  pid ≠ pid' → poolAt pid' (set_pool pid p s) = poolAt pid' s.
Proof.
  intros Hne. unfold poolAt, set_pool; simpl. by rewrite lookup_insert_ne.
Qed.

Lemma set_pool_twice pid p q s :
  set_pool pid p (set_pool pid q s) = set_pool pid p s.
Proof. unfold set_pool; simpl. by rewrite insert_insert_eq. Qed.

Lemma poolAt_set_status pid v s : poolAt pid (set_status v s) = poolAt pid s.
Proof. reflexivity. Qed.

Lemma poolAt_set_counter pid v s :
  poolAt pid (set_poolIdCounter v s) = poolAt pid s.
Proof. reflexivity. Qed.

Lemma poolAt_log_event pid e s : poolAt pid (log_event e s) = poolAt pid s.
Proof. reflexivity. Qed.

Lemma poolAt_set_owner pid v s : poolAt pid (set_owner v s) = poolAt pid s.
Proof. reflexivity. Qed.

Lemma contributionOf_set_eq who v p :
  contributionOf who (set_contribution who v p) = v.
Proof. unfold contributionOf; simpl. by rewrite lookup_insert_eq. Qed.

Lemma contributionOf_set_ne who a v p :
  who ≠ a → contributionOf a (set_contribution who v p) = contributionOf a p.
Proof.
  intros Hne. unfold contributionOf; simpl. by rewrite lookup_insert_ne.
Qed.

Lemma set_contribution_twice who v w p :
  set_contribution who v (set_contribution who w p) = set_contribution who v p.
Proof. unfold set_contribution; simpl. by rewrite insert_insert_eq. Qed.

Create Rewrite HintDb storage.
#[local] Hint Rewrite poolAt_set_pool_eq set_pool_twice poolAt_set_status
  poolAt_set_counter poolAt_log_event poolAt_set_owner : storage.

(** ** The monadic code computes the closed forms *)

Ltac run_monad :=
  cbv [mbind M_bind mret M_ret gets modify require sload sstore emit
       checked_add nonReentrant owner onlyOwner _transferOwnership].

(** Case split on the next [require]; the failing branch of an
    equivalence with [Done] is closed on the spot. *)
Ltac reflect_in H :=
  first [ apply Z.eqb_eq in H | apply Z.eqb_neq in H
        | apply Z.ltb_lt in H | apply Z.ltb_ge in H
        | apply Z.leb_le in H | apply Z.leb_gt in H
        | idtac ].

Ltac fields :=
  cbn [initiator beneficiary description goalAmount currentAmount
       deadlineTimestamp goalAchieved fundsDisbursed contributions
       contributors set_initiator set_beneficiary set_description
       set_goalAmount set_currentAmount set_deadlineTimestamp
       set_goalAchieved set_fundsDisbursed set_contributors set_contribution
       push_contributor].

Ltac on_branch H :=
  autorewrite with storage; fields;
  match goal with
  | |- context [if ?c then _ else _] =>
      lazymatch c with
      | negb ?c' => destruct c' eqn:H
      | _ => destruct c eqn:H
      end;
      cbn beta iota delta [negb]
  end.

Ltac on_require H := on_branch H; reflect_in H.

Ltac refuted :=
  split; [intros [=] | intros; destruct_and?; first [lia | congruence]].

Lemma createPool_Done msg b d g t s id s' :
  createPool msg b d g t s = Done id s' ↔
  b ≠ 0 ∧ 0 < g ∧ timestamp msg < t ∧ _poolIdCounter s + 1 ≤ MAX_UINT256 ∧
  id = _poolIdCounter s ∧ s' = after_createPool msg b d g t s.
Proof.
  unfold createPool. run_monad.
  on_require Hb; [refuted|]. on_require Hg; [|refuted].
  on_require Ht; [|refuted]. on_require Hc; [|refuted].
  autorewrite with storage.
  split.
  - intros [= <- <-]. repeat split; lia.
  - intros (_ & _ & _ & _ & -> & ->). reflexivity.
Qed.

Lemma contributionOf_push who a p :
  contributionOf who (push_contributor a p) = contributionOf who p.
Proof. reflexivity. Qed.

Lemma owner_set_status v s : _owner (set_status v s) = _owner s.
Proof. reflexivity. Qed.

Lemma owner_set_pool pid p s : _owner (set_pool pid p s) = _owner s.
Proof. reflexivity. Qed.

#[local] Hint Rewrite contributionOf_push contributionOf_set_eq
  owner_set_status owner_set_pool : storage.

Lemma poolAt_credit pid v s : poolAt pid (credit v s) = poolAt pid s.
Proof. reflexivity. Qed.

Lemma poolAt_debit pid v s : poolAt pid (debit v s) = poolAt pid s.
Proof. reflexivity. Qed.

Lemma balance_set_pool pid p s : balance (set_pool pid p s) = balance s.
Proof. reflexivity. Qed.

Lemma balance_set_status v s : balance (set_status v s) = balance s.
Proof. reflexivity. Qed.

Lemma balance_log_event e s : balance (log_event e s) = balance s.
Proof. reflexivity. Qed.

#[local] Hint Rewrite poolAt_credit poolAt_debit balance_set_pool
  balance_set_status balance_log_event : storage.

Lemma contribute_Done msg pid s r s' :
  contribute msg pid (credit (value msg) s) = Done r s' ↔
  _status s ≠ _ENTERED ∧
  initiator (poolAt pid s) ≠ 0 ∧
  timestamp msg < deadlineTimestamp (poolAt pid s) ∧
  goalAchieved (poolAt pid s) = false ∧
  0 < value msg ∧
  contributionOf (sender msg) (poolAt pid s) + value msg ≤ MAX_UINT256 ∧
  currentAmount (poolAt pid s) + value msg ≤ MAX_UINT256 ∧
  s' = after_contribute msg pid s.
Proof.
  unfold contribute. run_monad. cbn [_status set_status credit].
  on_require Hst; [refuted|].
  on_require Hi; [refuted|]. on_require Hd; [|refuted].
  on_require Hg; [refuted|]. on_require Hv; [|refuted].
  assert (Hflag : ∀ x, x && negb (goalAchieved (poolAt pid s)) = x)
    by (intros x; rewrite Hg; apply andb_true_r).
  on_branch Hnew; (on_require Hc; [|refuted]); (on_require Ht; [|refuted]);
    autorewrite with storage; fields; rewrite ?Hflag; on_branch Hgoal;
    autorewrite with storage; fields;
    match goal with
    | |- Done _ ?X = _ ↔ _ =>
        assert (HX : X = after_contribute msg pid s)
    end.
  all: try (unfold after_contribute, pool_after_contribute, set_status,
         log_event, set_pool, set_currentAmount, set_goalAchieved, credit;
       simpl;
       rewrite Hnew, Hgoal, ?Hg, ?insert_insert_eq, <- ?app_assoc;
       reflexivity).
  all: rewrite HX; split;
    [ intros [= <-]; repeat split; done
    | intros; destruct_and?; subst; by destruct r ].
Qed.

Lemma reenter_all_eq now rcs s :
  reenter_all now rcs s = Done tt (after_calls now rcs s).
Proof.
  revert s. induction rcs as [|rc rcs IH]; intros s; [reflexivity|].
  cbn [reenter_all after_calls fold_left]. run_monad.
  unfold reenter, nested.
  destruct (dispatch _ rc.1 now rc.2 s); apply IH.
Qed.

Lemma external_call_eq now callee recipient amount s :
  external_call now callee recipient amount s =
  if (amount <=? balance s) && accepts callee
  then Done true (after_calls now (reentrant callee) (debit amount s))
  else Done false s.
Proof.
  unfold external_call. destruct (_ && _); [|reflexivity].
  run_monad. by rewrite reenter_all_eq.
Qed.

Lemma transferOwnership_Done msg a s r s' :
  transferOwnership msg a s = Done r s' ↔
  _owner s = sender msg ∧ a ≠ 0 ∧ s' = after_transferOwnership a s.
Proof.
  unfold transferOwnership. run_monad.
  on_require Ho; [|refuted]. on_require Ha; [refuted|].
  split.
  - intros [= <-]. repeat split; done.
  - intros; destruct_and?; subst; by destruct r.
Qed.

Lemma renounceOwnership_Done msg s r s' :
  renounceOwnership msg s = Done r s' ↔
  _owner s = sender msg ∧ s' = after_transferOwnership 0 s.
Proof.
  unfold renounceOwnership. run_monad.
  on_require Ho; [|refuted].
  split.
  - intros [= <-]. repeat split; done.
  - intros; destruct_and?; subst; by destruct r.
Qed.

(** The guard: nothing behind [nonReentrant] runs while it is set. *)
Lemma nonReentrant_entered {A} (body : M A) s :
  _status s = _ENTERED → nonReentrant body s = Abort ReentrantCall s.
Proof. intros Hst. unfold nonReentrant. run_monad. by rewrite Hst. Qed.

Lemma status_after_createPool msg b d g t s :
  _status (after_createPool msg b d g t s) = _status s.
Proof. reflexivity. Qed.

Lemma status_after_transferOwnership a s :
  _status (after_transferOwnership a s) = _status s.
Proof. reflexivity. Qed.

Lemma nested_cases now s rc :
  _status s = _ENTERED →
  nested now s rc = s
  ∨ (∃ b d g t, b ≠ 0 ∧ 0 < g ∧ now < t ∧
       _poolIdCounter s + 1 ≤ MAX_UINT256 ∧
       nested now s rc = after_createPool (mkMsg rc.1 0 now) b d g t s)
  ∨ (∃ a, nested now s rc = after_transferOwnership a s).
Proof.
  intros Hst. unfold nested, dispatch.
  destruct rc as [from [b d g t|pid v|pid|pid|a|]]; cbn [fst snd];
    cbv [mbind M_bind mret M_ret].
  - destruct (createPool _ b d g t s) as [id s'|f dirty] eqn:Hc; [|by left].
    apply createPool_Done in Hc as (? & ? & ? & ? & _ & ->).
    right; left. by exists b, d, g, t.
  - unfold pay, modify, contribute.
    rewrite nonReentrant_entered by done. by left.
  - unfold disburseFunds. rewrite nonReentrant_entered by done. by left.
  - unfold claimRefund. rewrite nonReentrant_entered by done. by left.
  - destruct (transferOwnership _ a s) as [r s'|f dirty] eqn:Hc; [|by left].
    apply transferOwnership_Done in Hc as (_ & _ & ->).
    right; right. by exists a.
  - destruct (renounceOwnership _ s) as [r s'|f dirty] eqn:Hc; [|by left].
    apply renounceOwnership_Done in Hc as (_ & ->).
    right; right. by exists 0.
Qed.

Lemma status_nested now s rc :
  _status s = _ENTERED → _status (nested now s rc) = _ENTERED.
Proof.
  intros Hst.
  destruct (nested_cases now s rc Hst)
    as [-> | [(b & d & g & t & _ & _ & _ & _ & ->) | (a & ->)]]; [done | |].
  - by rewrite status_after_createPool.
  - by rewrite status_after_transferOwnership.
Qed.

(** Ether that has left does not matter to what a recipient can do by
    calling back. *)
Lemma nested_debit now a s rc :
  _status s = _ENTERED →
  nested now (debit a s) rc = debit a (nested now s rc).
Proof.
  intros Hst. unfold nested, dispatch.
  destruct rc as [from [b d g t|pid v|pid|pid|w|]]; cbn [fst snd];
    cbv [mbind M_bind mret M_ret].
  - destruct (createPool _ b d g t s) as [id s1|f1 d1] eqn:H1;
      destruct (createPool _ b d g t (debit a s)) as [id2 s2|f2 d2] eqn:H2;
      try done.
    + apply createPool_Done in H1 as (_ & _ & _ & _ & _ & ->).
      by apply createPool_Done in H2 as (_ & _ & _ & _ & _ & ->).
    + apply createPool_Done in H1 as (? & ? & ? & ? & _ & _).
      assert (createPool (mkMsg from 0 now) b d g t (debit a s)
              = Done (_poolIdCounter s)
                  (after_createPool (mkMsg from 0 now) b d g t (debit a s)))
        as Hrun by by apply createPool_Done.
      congruence.
    + apply createPool_Done in H2 as (? & ? & ? & ? & _ & _).
      assert (createPool (mkMsg from 0 now) b d g t s
              = Done (_poolIdCounter s)
                  (after_createPool (mkMsg from 0 now) b d g t s))
        as Hrun by by apply createPool_Done.
      congruence.
  - unfold pay, modify, contribute. by rewrite !nonReentrant_entered.
  - unfold disburseFunds. by rewrite !nonReentrant_entered.
  - unfold claimRefund. by rewrite !nonReentrant_entered.
  - destruct (transferOwnership _ w s) as [r1 s1|f1 d1] eqn:H1;
      destruct (transferOwnership _ w (debit a s)) as [r2 s2|f2 d2] eqn:H2;
      try done.
    + apply transferOwnership_Done in H1 as (_ & _ & ->).
      by apply transferOwnership_Done in H2 as (_ & _ & ->).
    + apply transferOwnership_Done in H1 as (? & ? & _).
      assert (transferOwnership (mkMsg from 0 now) w (debit a s)
              = Done tt (after_transferOwnership w (debit a s)))
        as Hrun by by apply transferOwnership_Done.
      congruence.
    + apply transferOwnership_Done in H2 as (? & ? & _).
      assert (transferOwnership (mkMsg from 0 now) w s
              = Done tt (after_transferOwnership w s))
        as Hrun by by apply transferOwnership_Done.
      congruence.
  - destruct (renounceOwnership _ s) as [r1 s1|f1 d1] eqn:H1;
      destruct (renounceOwnership _ (debit a s)) as [r2 s2|f2 d2] eqn:H2;
      try done.
    + apply renounceOwnership_Done in H1 as (_ & ->).
      by apply renounceOwnership_Done in H2 as (_ & ->).
    + apply renounceOwnership_Done in H1 as (? & _).
      assert (renounceOwnership (mkMsg from 0 now) (debit a s)
              = Done tt (after_transferOwnership 0 (debit a s)))
        as Hrun by by apply renounceOwnership_Done.
      congruence.
    + apply renounceOwnership_Done in H2 as (? & _).
      assert (renounceOwnership (mkMsg from 0 now) s
              = Done tt (after_transferOwnership 0 s))
        as Hrun by by apply renounceOwnership_Done.
      congruence.
Qed.

Lemma after_calls_debit now a rcs s :
  _status s = _ENTERED →
  after_calls now rcs (debit a s) = debit a (after_calls now rcs s).
Proof.
  revert s. induction rcs as [|rc rcs IH]; intros s Hst; [done|].
  cbn [after_calls fold_left]. rewrite nested_debit by done.
  apply IH. by apply status_nested.
Qed.

Lemma claimRefund_Done now callee msg pid s r s' :
  claimRefund (external_call now callee) msg pid s = Done r s' ↔
  _status s ≠ _ENTERED ∧
  initiator (poolAt pid s) ≠ 0 ∧
  deadlineTimestamp (poolAt pid s) ≤ timestamp msg ∧
  goalAchieved (poolAt pid s) = false ∧
  0 < contributionOf (sender msg) (poolAt pid s) ∧
  (contributionOf (sender msg) (poolAt pid s) ≤ balance s
   ∧ accepts callee = true) ∧
  s' = after_claimRefund now callee (sender msg) pid s.
Proof.
  unfold claimRefund. run_monad. cbn [_status set_status].
  on_require Hst; [refuted|]. on_require Hi; [refuted|].
  on_require Hd; [|refuted]. on_require Hg; [refuted|].
  on_require Hc; [|refuted].
  rewrite external_call_eq. cbn [balance set_pool set_status].
  destruct (_ <=? balance s) eqn:Hbal; cbn [andb].
  2:{ apply Z.leb_gt in Hbal. split; [intros [=]|].
      intros (_ & _ & _ & _ & _ & [? _] & _). lia. }
  apply Z.leb_le in Hbal.
  on_require Hacc; [|refuted].
  rewrite after_calls_debit by done.
  split.
  - intros [= <-]. repeat split; done.
  - intros; destruct_and?; subst; by destruct r.
Qed.

Lemma disburseFunds_Done now callee msg pid s r s' :
  disburseFunds (external_call now callee) msg pid s = Done r s' ↔
  _status s ≠ _ENTERED ∧
  initiator (poolAt pid s) ≠ 0 ∧
  (sender msg = initiator (poolAt pid s) ∨ sender msg = _owner s) ∧
  goalAchieved (poolAt pid s) = true ∧
  fundsDisbursed (poolAt pid s) = false ∧
  deadlineTimestamp (poolAt pid s) ≤ timestamp msg ∧
  (currentAmount (poolAt pid s) ≤ balance s ∧ accepts callee = true) ∧
  s' = after_disburseFunds now callee pid s.
Proof.
  unfold disburseFunds. run_monad. cbn [_status set_status _owner].
  on_require Hst; [refuted|]. on_require Hi; [refuted|].
  on_branch Hauth.
  2:{ apply orb_false_iff in Hauth as [H1 H2].
      apply Z.eqb_neq in H1, H2.
      split; [intros [=] | intros (_ & _ & [?|?] & _); congruence]. }
  apply orb_true_iff in Hauth. rewrite !Z.eqb_eq in Hauth.
  on_require Hg; [|refuted]. on_require Hf; [refuted|].
  on_require Hd; [|refuted].
  rewrite external_call_eq. cbn [balance set_pool set_status].
  autorewrite with storage; fields.
  destruct (_ <=? balance s) eqn:Hbal; cbn [andb].
  2:{ apply Z.leb_gt in Hbal. split; [intros [=]|].
      intros (_ & _ & _ & _ & _ & _ & [? _] & _). lia. }
  apply Z.leb_le in Hbal.
  on_require Hacc; [|refuted].
  rewrite after_calls_debit by done.
  split.
  - intros [= <-]. repeat split; done.
  - intros; destruct_and?; subst; by destruct r.
Qed.

Lemma after_calls_callbacks (ok : Z → Prop) now rcs s :
  _status s = _ENTERED →
  Forall (λ rc : Z * Call, ok rc.1) rcs →
  callbacks ok now s (after_calls now rcs s).
Proof.
  intros Hst Hok. revert s Hst.
  induction Hok as [|rc rcs Hrc _ IH]; intros s Hst; [constructor|].
  cbn [after_calls fold_left].
  destruct (nested_cases now s rc Hst)
    as [-> | [(b & d & g & t & ? & ? & ? & ? & Hn) | (a & Hn)]].
  - by apply IH.
  - eapply cb_createPool; eauto. rewrite <- Hn. apply IH. by rewrite Hn.
  - eapply cb_owner. rewrite <- Hn. apply IH. by rewrite Hn.
Qed.

Lemma status_disbursing pid s : _status (disbursing pid s) = _ENTERED.
Proof. reflexivity. Qed.

Lemma status_refunding who pid s : _status (refunding who pid s) = _ENTERED.
Proof. reflexivity. Qed.

(** A transaction either leaves storage alone or takes a [step]. *)
Lemma transact_step (ok : Z → Prop) s tx :
  callers ok tx →
  transact s tx = s ∨ step ok (tx_time tx) s (transact s tx).
Proof.
  intros [Hfrom Hcb]. unfold transact, execute, dispatch.
  destruct tx as [from now [b d g t|pid v|pid|pid|a|] callee];
    cbn [tx_from tx_time tx_call tx_callee] in *;
    cbv [mbind M_bind mret M_ret pay modify].
  - destruct (createPool _ b d g t s) as [id s'|f dirty] eqn:Hc; [|by left].
    apply createPool_Done in Hc as (? & ? & ? & ? & _ & ->).
    right. by constructor.
  - destruct (contribute _ pid _) as [r s'|f dirty] eqn:Hc; [|by left].
    apply contribute_Done in Hc as (_ & ? & ? & ? & ? & ? & ? & ->).
    right. by constructor.
  - destruct (disburseFunds _ _ pid s) as [r s'|f dirty] eqn:Hc; [|by left].
    apply disburseFunds_Done in Hc as (_ & ? & _ & ? & ? & ? & [? _] & ->).
    right. constructor; try done.
    apply after_calls_callbacks; [apply status_disbursing | done].
  - destruct (claimRefund _ _ pid s) as [r s'|f dirty] eqn:Hc; [|by left].
    apply claimRefund_Done in Hc as (_ & ? & ? & ? & ? & [? _] & ->).
    right. constructor; try done.
    apply after_calls_callbacks; [apply status_refunding | done].
  - destruct (transferOwnership _ a s) as [r s'|f dirty] eqn:Hc; [|by left].
    apply transferOwnership_Done in Hc as (_ & _ & ->).
    right. constructor.
  - destruct (renounceOwnership _ s) as [r s'|f dirty] eqn:Hc; [|by left].
    apply renounceOwnership_Done in Hc as (_ & ->).
    right. constructor.
Qed.

(** ** [sound] is an invariant *)

Lemma poolAt_ext pid s s' : pools s' = pools s → poolAt pid s' = poolAt pid s.
Proof. unfold poolAt. by intros ->. Qed.

Lemma poolAt_exists pid s :
  initiator (poolAt pid s) ≠ 0 → is_Some (pools s !! pid).
Proof. unfold poolAt. destruct (pools s !! pid); simpl; [eauto | done]. Qed.

Lemma poolAt_unused pid s : pools s !! pid = None → poolAt pid s = zeroPool.
Proof. unfold poolAt. by intros ->. Qed.

Lemma createdIds_app l k : createdIds (l ++ k) = createdIds l ++ createdIds k.
Proof. apply flat_map_app. Qed.

Lemma sound_ext s s' :
  _poolIdCounter s' = _poolIdCounter s →
  pools s' = pools s →
  createdIds (events s') = createdIds (events s) →
  sound s → sound s'.
Proof.
  intros Hc Hp He [H1 H2 H3 H4 H5 H6].
  split; rewrite ?Hc, ?Hp, ?He; try done.
  - intros pid a. rewrite (poolAt_ext pid s s' Hp). apply H4.
  - intros pid. rewrite (poolAt_ext pid s s' Hp). apply H5.
  - intros pid a. rewrite (poolAt_ext pid s s' Hp). apply H6.
Qed.

Lemma sound_slot s : sound s → poolAt (_poolIdCounter s) s = zeroPool.
Proof.
  intros Hs. apply poolAt_unused.
  destruct (pools s !! _poolIdCounter s) eqn:E; [|done].
  assert (is_Some (pools s !! _poolIdCounter s)) as Hin by eauto.
  apply (sound_fresh s Hs) in Hin. lia.
Qed.

Lemma sound_amount s pid : sound s → 0 ≤ currentAmount (poolAt pid s).
Proof. intros Hs. pose proof (sound_ledger s Hs pid 0). lia. Qed.

Lemma sound_update pid p' s :
  sound s →
  is_Some (pools s !! pid) →
  (∀ a, 0 ≤ contributionOf a p' ≤ currentAmount p') →
  (initiator p' = 0 → goalAchieved p' = false) →
  (∀ a, contributionOf a p' ≠ 0 → a ∈ contributors p') →
  sound (set_pool pid p' s).
Proof.
  intros [H1 H2 H3 H4 H5 H6] Hin Hl Hg Hc. split; simpl; try done.
  - intros k. rewrite lookup_insert_is_Some. intros [<- | [_ Hk]]; auto.
  - intros k a. destruct (decide (pid = k)) as [<- | Hne].
    + by rewrite poolAt_set_pool_eq.
    + rewrite poolAt_set_pool_ne by done. apply H4.
  - intros k. destruct (decide (pid = k)) as [<- | Hne].
    + by rewrite poolAt_set_pool_eq.
    + rewrite poolAt_set_pool_ne by done. apply H5.
  - intros k a. destruct (decide (pid = k)) as [<- | Hne].
    + rewrite poolAt_set_pool_eq. apply Hc.
    + rewrite poolAt_set_pool_ne by done. apply H6.
Qed.

Lemma sound_after_createPool msg b d g t s :
  sound s → sound (after_createPool msg b d g t s).
Proof.
  intros Hs. pose proof (sound_slot s Hs) as Hslot.
  destruct Hs as [H1 H2 H3 H4 H5 H6].
  assert (Hat : ∀ k, k ≠ _poolIdCounter s →
            poolAt k (after_createPool msg b d g t s) = poolAt k s).
  { intros k Hk. unfold poolAt, after_createPool; simpl.
    by rewrite lookup_insert_ne. }
  assert (Hnew : poolAt (_poolIdCounter s) (after_createPool msg b d g t s)
                 = created_pool msg b d g t zeroPool).
  { unfold poolAt at 1. unfold after_createPool; simpl.
    by rewrite lookup_insert_eq, Hslot. }
  split.
  - unfold after_createPool; simpl. lia.
  - unfold after_createPool; simpl.
    intros k. rewrite lookup_insert_is_Some. intros [<- | [_ Hk]]; [lia|].
    apply H2 in Hk. lia.
  - unfold after_createPool; simpl. rewrite createdIds_app, H3. simpl.
    replace (_poolIdCounter s + 1 - 1) with ((_poolIdCounter s - 1) + 1) by lia.
    rewrite seqZ_app by lia. f_equal.
    rewrite seqZ_cons, seqZ_nil by lia. f_equal. lia.
  - intros k a. destruct (decide (k = _poolIdCounter s)) as [-> | Hne].
    + rewrite Hnew. by vm_compute.
    + rewrite Hat by done. apply H4.
  - intros k. destruct (decide (k = _poolIdCounter s)) as [-> | Hne].
    + by rewrite Hnew.
    + rewrite Hat by done. apply H5.
  - intros k a. destruct (decide (k = _poolIdCounter s)) as [-> | Hne].
    + rewrite Hnew. intros Ha. by vm_compute in Ha.
    + rewrite Hat by done. apply H6.
Qed.

Lemma sound_after_transferOwnership a s :
  sound s → sound (after_transferOwnership a s).
Proof.
  apply sound_ext; try done.
  unfold after_transferOwnership; simpl.
  rewrite createdIds_app; simpl. apply app_nil_r.
Qed.

Lemma sound_callbacks ok now s s' :
  callbacks ok now s s' → sound s → sound s'.
Proof.
  induction 1 as [s | s from b d g t s' _ _ _ _ _ _ IH | s a s' _ IH];
    intros Hs; [done | |].
  - by apply IH, sound_after_createPool.
  - by apply IH, sound_after_transferOwnership.
Qed.

Lemma contributionOf_after_contribute who v a p :
  contributionOf a (pool_after_contribute who v p) =
  if decide (a = who) then contributionOf who p + v else contributionOf a p.
Proof.
  unfold contributionOf at 1. unfold pool_after_contribute; simpl.
  case_decide as Ha.
  - subst a. by rewrite lookup_insert_eq.
  - by rewrite lookup_insert_ne.
Qed.

Lemma contributionOf_refunded who a p :
  contributionOf a (set_contribution who 0 p) =
  if decide (a = who) then 0 else contributionOf a p.
Proof.
  case_decide as Ha.
  - subst a. apply contributionOf_set_eq.
  - by apply contributionOf_set_ne.
Qed.

Lemma createdIds_after_contribute msg pid s :
  createdIds (events (after_contribute msg pid s)) = createdIds (events s).
Proof.
  unfold after_contribute; simpl. rewrite createdIds_app.
  destruct (_ <=? _); simpl; apply app_nil_r.
Qed.

Lemma sound_after_contribute msg pid s :
  sound s →
  initiator (poolAt pid s) ≠ 0 →
  0 < value msg →
  sound (after_contribute msg pid s).
Proof.
  intros Hs Hi Hv.
  apply (sound_ext (set_pool pid
           (pool_after_contribute (sender msg) (value msg) (poolAt pid s)) s));
    [done | done | simpl; apply createdIds_after_contribute |].
  apply sound_update; [done | by apply poolAt_exists | | |].
  - intros a. rewrite contributionOf_after_contribute.
    pose proof (sound_ledger s Hs pid a).
    pose proof (sound_ledger s Hs pid (sender msg)).
    case_decide; simpl; lia.
  - simpl. done.
  - intros a. rewrite contributionOf_after_contribute. simpl.
    pose proof (sound_listed s Hs pid a) as Hl.
    destruct (Z.eqb_spec (contributionOf (sender msg) (poolAt pid s)) 0)
      as [Hzero | Hpos]; case_decide as Ha; subst; intros Hne;
      rewrite ?elem_of_app, ?list_elem_of_singleton; auto.
Qed.

Lemma sound_disbursing pid s :
  sound s → initiator (poolAt pid s) ≠ 0 → sound (disbursing pid s).
Proof.
  intros Hs Hi. unfold disbursing.
  apply sound_update; [by apply (sound_ext s) | by apply poolAt_exists | | |].
  - intros a. apply (sound_ledger s Hs pid a).
  - simpl. done.
  - apply (sound_listed s Hs pid).
Qed.

Lemma sound_refunding who pid s :
  sound s → initiator (poolAt pid s) ≠ 0 → sound (refunding who pid s).
Proof.
  intros Hs Hi. unfold refunding.
  apply sound_update; [by apply (sound_ext s) | by apply poolAt_exists | | |].
  - intros a. rewrite ?poolAt_set_status, contributionOf_refunded.
    pose proof (sound_ledger s Hs pid a). case_decide; simpl; lia.
  - simpl. done.
  - intros a. rewrite ?poolAt_set_status, contributionOf_refunded. simpl.
    case_decide; [done | apply (sound_listed s Hs pid)].
Qed.

Lemma sound_step ok now s s' : sound s → step ok now s s' → sound s'.
Proof.
  intros Hs [from b d g t _ _ _ _ _
            | from v pid Hi _ _ Hv _ _
            | callee pid Hi _ _ _ Hbal Hcb
            | callee from pid Hi _ _ _ Hbal Hcb
            | a].
  - by apply sound_after_createPool.
  - by apply sound_after_contribute.
  - apply sound_callbacks in Hcb; [|by apply sound_disbursing].
    revert Hcb. apply sound_ext; try done.
    unfold after_disburseFunds; simpl. rewrite createdIds_app; simpl.
    apply app_nil_r.
  - apply sound_callbacks in Hcb; [|by apply sound_refunding].
    revert Hcb. apply sound_ext; try done.
    unfold after_claimRefund; simpl. rewrite createdIds_app; simpl.
    apply app_nil_r.
  - by apply sound_after_transferOwnership.
Qed.

Lemma sound_deployed deployer : sound (deployed deployer).
Proof.
  split; simpl; try done.
  - intros pid [p Hp]. by rewrite lookup_empty in Hp.
Qed.

Lemma sound_transact s tx : sound s → sound (transact s tx).
Proof.
  intros Hs.
  destruct (transact_step (λ _, True) s tx) as [-> | Hstep]; [|done|].
  - split; [done|]. by apply Forall_true.
  - by eapply sound_step.
Qed.

Lemma sound_run s txs : sound s → sound (run s txs).
Proof.
  revert s. induction txs as [|tx txs IH]; intros s Hs; [done|].
  apply IH. by apply sound_transact.
Qed.

(** Between transactions the guard is never set. *)
Lemma idle_transact s tx :
  _status s = _NOT_ENTERED → _status (transact s tx) = _NOT_ENTERED.
Proof.
  intros Hst.
  destruct (transact_step (λ _, True) s tx)
    as [-> | [| | | |]]; try done.
  split; [done|]. by apply Forall_true.
Qed.

Lemma idle_run s txs :
  _status s = _NOT_ENTERED → _status (run s txs) = _NOT_ENTERED.
Proof.
  revert s. induction txs as [|tx txs IH]; intros s Hs; [done|].
  apply IH. by apply idle_transact.
Qed.

(** ** [orderly] is an invariant of chronological histories *)

Lemma orderly_mono t now s : t ≤ now → orderly t s → orderly now s.
Proof.
  intros Ht [H1 H3]. split; [done |].
  intros pid a Hin Hz. specialize (H3 pid a Hin Hz). lia.
Qed.

Lemma orderly_ext s s' now : pools s' = pools s → orderly now s → orderly now s'.
Proof.
  intros Hp [H1 H3].
  split; intros pid; rewrite (poolAt_ext pid s s' Hp);
    [apply H1 | apply H3].
Qed.

Lemma orderly_update pid p' s now :
  orderly now s →
  NoDup (contributors p') →
  (∀ a, a ∈ contributors p' → contributionOf a p' = 0 →
        deadlineTimestamp p' ≤ now) →
  orderly now (set_pool pid p' s).
Proof.
  intros [H1 H3] Hn Hz.
  split; intros k; destruct (decide (pid = k)) as [<- | Hne];
    rewrite ?poolAt_set_pool_eq, ?poolAt_set_pool_ne by done;
    first [done | apply H1 | apply H3].
Qed.

Lemma orderly_after_createPool msg b d g t now s :
  sound s → orderly now s → orderly now (after_createPool msg b d g t s).
Proof.
  intros Hs Ho.
  apply (orderly_ext (set_pool (_poolIdCounter s)
           (created_pool msg b d g t (poolAt (_poolIdCounter s) s)) s));
    [done|].
  rewrite (sound_slot s Hs).
  apply orderly_update; [done | constructor |].
  intros a Ha. by apply elem_of_nil in Ha.
Qed.

Lemma orderly_callbacks ok now s s' :
  callbacks ok now s s' → sound s → orderly now s → orderly now s'.
Proof.
  induction 1 as [s | s from b d g t s' _ _ _ _ _ _ IH | s a s' _ IH];
    intros Hs Ho; [done | |].
  - apply IH; [by apply sound_after_createPool
              | by apply orderly_after_createPool].
  - apply IH; [by apply sound_after_transferOwnership|].
    by apply (orderly_ext s).
Qed.

Lemma orderly_after_contribute msg pid t s :
  sound s → orderly t s →
  t ≤ timestamp msg →
  timestamp msg < deadlineTimestamp (poolAt pid s) →
  0 < value msg →
  orderly (timestamp msg) (after_contribute msg pid s).
Proof.
  intros Hs Ho Ht Hd Hv.
  pose proof (sound_ledger s Hs pid (sender msg)) as Hc.
  pose proof (orderly_nodup t s Ho pid) as Hn.
  pose proof (orderly_late t s Ho pid) as Hz.
  apply (orderly_ext (set_pool pid
           (pool_after_contribute (sender msg) (value msg) (poolAt pid s)) s));
    [done|].
  apply orderly_update; [by apply (orderly_mono t) | |].
  - simpl. destruct (Z.eqb_spec (contributionOf (sender msg) (poolAt pid s)) 0)
      as [Hzero | Hpos]; [|done].
    apply NoDup_app. split; [done|]. split; [|apply NoDup_singleton].
    intros a Ha ->%list_elem_of_singleton.
    specialize (Hz _ Ha Hzero). lia.
  - intros a. rewrite contributionOf_after_contribute. simpl.
    case_decide as Ha; [lia|].
    destruct (Z.eqb_spec (contributionOf (sender msg) (poolAt pid s)) 0)
      as [Hzero | Hpos];
      rewrite ?elem_of_app, ?list_elem_of_singleton; intros Hin Hzz.
    + destruct Hin as [Hin | ?]; [|done]. specialize (Hz _ Hin Hzz). lia.
    + specialize (Hz _ Hin Hzz). lia.
Qed.

Lemma orderly_refunding who pid now s :
  orderly now s →
  deadlineTimestamp (poolAt pid s) ≤ now →
  orderly now (refunding who pid s).
Proof.
  intros Ho Hd. unfold refunding.
  apply orderly_update; [by apply (orderly_ext s) | |];
    rewrite ?poolAt_set_status.
  - apply (orderly_nodup now s Ho pid).
  - intros a _ _. simpl. done.
Qed.

Lemma orderly_disbursing pid now s :
  orderly now s → orderly now (disbursing pid s).
Proof.
  intros Ho. unfold disbursing.
  apply orderly_update; [by apply (orderly_ext s) | |];
    rewrite ?poolAt_set_status.
  - apply (orderly_nodup now s Ho pid).
  - apply (orderly_late now s Ho pid).
Qed.

Lemma orderly_step ok t now s s' :
  sound s → orderly t s → t ≤ now → step ok now s s' → orderly now s'.
Proof.
  intros Hs Ho Ht
    [from b d g tt _ _ _ _ _
    | from v pid Hi Hd _ Hv _ _
    | callee pid Hi _ _ Hd Hbal Hcb
    | callee from pid Hi Hd _ _ Hbal Hcb
    | a].
  - apply orderly_after_createPool; [done | by apply (orderly_mono t)].
  - by apply (orderly_after_contribute (mkMsg from v now) pid t).
  - apply orderly_callbacks in Hcb;
      [ | by apply sound_disbursing
        | by apply orderly_disbursing, (orderly_mono t)].
    revert Hcb. by apply orderly_ext.
  - apply orderly_callbacks in Hcb;
      [ | by apply sound_refunding
        | by apply orderly_refunding; [apply (orderly_mono t)|]].
    revert Hcb. by apply orderly_ext.
  - apply (orderly_ext s); [done | by apply (orderly_mono t)].
Qed.

Lemma orderly_deployed now deployer : orderly now (deployed deployer).
Proof.
  split; intros pid; unfold poolAt; simpl; rewrite lookup_empty; simpl.
  - constructor.
  - intros a Ha. by apply elem_of_nil in Ha.
Qed.

Lemma orderly_transact t s tx :
  sound s → orderly t s → t ≤ tx_time tx →
  orderly (tx_time tx) (transact s tx).
Proof.
  intros Hs Ho Ht.
  destruct (transact_step (λ _, True) s tx) as [-> | Hstep].
  - split; [done|]. by apply Forall_true.
  - by apply (orderly_mono t).
  - by eapply orderly_step.
Qed.

Lemma orderly_run t0 s txs :
  sound s → orderly t0 s → chronological t0 txs = true →
  orderly (clock t0 txs) (run s txs).
Proof.
  revert t0 s. induction txs as [|tx txs IH]; intros t0 s Hs Ho Hc; [done|].
  cbn [chronological] in Hc. apply andb_true_iff in Hc as [Ht Hc].
  apply Z.leb_le in Ht.
  cbn [run clock fold_left]. apply IH; [by apply sound_transact | | done].
  by apply (orderly_transact t0).
Qed.

(** ** [populated] is an invariant when callers are not the zero address *)

Lemma wf_tx_callers tx : wf_tx tx = true → callers (λ a, a ≠ 0) tx.
Proof.
  unfold wf_tx. intros [Hf Hr]%andb_true_iff. split.
  - apply negb_true_iff, Z.eqb_neq in Hf. done.
  - apply Forall_forall. intros rc Hin.
    rewrite forallb_forall in Hr. apply list_elem_of_In, Hr in Hin.
    by apply negb_true_iff, Z.eqb_neq in Hin.
Qed.

Lemma populated_ext s s' :
  _poolIdCounter s' = _poolIdCounter s → pools s' = pools s →
  populated s → populated s'.
Proof.
  intros Hc Hp H pid. rewrite Hc, (poolAt_ext pid s s' Hp). apply H.
Qed.

Lemma populated_update pid p' s :
  populated s → initiator p' = initiator (poolAt pid s) →
  populated (set_pool pid p' s).
Proof.
  intros H Hi k Hk. destruct (decide (pid = k)) as [<- | Hne].
  - rewrite poolAt_set_pool_eq, Hi. by apply H.
  - rewrite poolAt_set_pool_ne by done. by apply H.
Qed.

Lemma populated_after_createPool msg b d g t s :
  sender msg ≠ 0 → populated s → populated (after_createPool msg b d g t s).
Proof.
  intros Hfrom H k. unfold after_createPool, poolAt; simpl. intros Hk.
  destruct (decide (_poolIdCounter s = k)) as [<- | Hne].
  - by rewrite lookup_insert_eq.
  - rewrite lookup_insert_ne by done. apply H. lia.
Qed.

Lemma populated_callbacks now s s' :
  callbacks (λ a, a ≠ 0) now s s' → populated s → populated s'.
Proof.
  induction 1 as [s | s from b d g t s' Hf _ _ _ _ _ IH | s a s' _ IH];
    intros Hp; [done | |].
  - by apply IH, populated_after_createPool.
  - by apply IH, (populated_ext s).
Qed.

Lemma populated_step now s s' :
  populated s → step (λ a, a ≠ 0) now s s' → populated s'.
Proof.
  intros Hp [from b d g t Hf _ _ _ _
            | from v pid _ _ _ _ _ _
            | callee pid _ _ _ _ Hbal Hcb
            | callee from pid _ _ _ _ Hbal Hcb
            | a].
  - by apply populated_after_createPool.
  - apply (populated_ext (set_pool pid
      (pool_after_contribute from v (poolAt pid s)) s)); [done | done |].
    by apply populated_update.
  - apply populated_callbacks in Hcb.
    + revert Hcb. by apply populated_ext.
    + apply populated_update; [by apply (populated_ext s) | done].
  - apply populated_callbacks in Hcb.
    + revert Hcb. by apply populated_ext.
    + apply populated_update; [by apply (populated_ext s) | done].
  - by apply (populated_ext s).
Qed.

Lemma populated_run s txs :
  populated s → forallb wf_tx txs = true → populated (run s txs).
Proof.
  revert s. induction txs as [|tx txs IH]; intros s Hp Hwf; [done|].
  cbn [forallb] in Hwf. apply andb_true_iff in Hwf as [Htx Hwf].
  cbn [run fold_left]. apply IH; [|done].
  destruct (transact_step (λ a, a ≠ 0) s tx) as [-> | Hstep];
    [by apply wf_tx_callers | done | by eapply populated_step].
Qed.

Lemma populated_deployed deployer : populated (deployed deployer).
Proof. intros pid. simpl. lia. Qed.

(** ** What nested calls cannot touch *)

Lemma after_createPool_frame msg b d g t s pid :
  sound s →
  (pid ≠ _poolIdCounter s →
   poolAt pid (after_createPool msg b d g t s) = poolAt pid s) ∧
  currentAmount (poolAt pid (after_createPool msg b d g t s))
  = currentAmount (poolAt pid s) ∧
  contributions (poolAt pid (after_createPool msg b d g t s))
  = contributions (poolAt pid s).
Proof.
  intros Hs. pose proof (sound_slot s Hs) as Hslot.
  destruct (decide (pid = _poolIdCounter s)) as [-> | Hne].
  - split; [done|]. unfold poolAt at 1 3. unfold after_createPool; simpl.
    by rewrite lookup_insert_eq, Hslot.
  - assert (poolAt pid (after_createPool msg b d g t s) = poolAt pid s) as ->.
    { unfold poolAt, after_createPool; simpl. by rewrite lookup_insert_ne. }
    done.
Qed.

Lemma callbacks_frame ok now s s' :
  callbacks ok now s s' → sound s →
  _poolIdCounter s ≤ _poolIdCounter s' ∧
  ∀ pid,
    (pid < _poolIdCounter s → poolAt pid s' = poolAt pid s) ∧
    currentAmount (poolAt pid s') = currentAmount (poolAt pid s) ∧
    contributions (poolAt pid s') = contributions (poolAt pid s).
Proof.
  induction 1 as [s | s from b d g t s' _ _ _ _ _ _ IH | s a s' _ IH];
    intros Hs.
  - split; [lia | done].
  - destruct (IH (sound_after_createPool _ b d g t s Hs)) as [Hc Hf].
    split; [simpl in Hc; lia|]. intros pid.
    destruct (Hf pid) as (H1 & H2 & H3).
    destruct (after_createPool_frame (mkMsg from 0 now) b d g t s pid Hs)
      as (F1 & F2 & F3).
    split; [|split; congruence].
    intros Hlt. rewrite H1 by (simpl; lia). apply F1. lia.
  - destruct (IH (sound_after_transferOwnership a s Hs)) as [Hc Hf].
    split; [done|]. intros pid. apply Hf.
Qed.

(** ** Transactions in closed form *)

Lemma transact_rejected s tx : succeeds s tx = false → transact s tx = s.
Proof. unfold succeeds, transact. by destruct (execute tx s). Qed.

Lemma execute_CreatePool from now b d g t callee s r s' :
  execute (mkTx from now (CreatePool b d g t) callee) s = Done r s' ↔
  b ≠ 0 ∧ 0 < g ∧ now < t ∧ _poolIdCounter s + 1 ≤ MAX_UINT256 ∧
  r = Some (_poolIdCounter s) ∧
  s' = after_createPool (mkMsg from 0 now) b d g t s.
Proof.
  unfold execute, dispatch; simpl. cbv [mbind M_bind mret M_ret].
  destruct (createPool _ b d g t s) as [id s1|f dirty] eqn:Hc.
  - apply createPool_Done in Hc as (? & ? & ? & ? & -> & ->).
    split; [intros [= <- <-]; done | intros (_ & _ & _ & _ & -> & ->); done].
  - split; [intros [=]|]. intros (? & ? & ? & ? & _ & _).
    assert (createPool (mkMsg from 0 now) b d g t s
            = Done (_poolIdCounter s)
                (after_createPool (mkMsg from 0 now) b d g t s)) as Hd
      by by apply createPool_Done.
    congruence.
Qed.

Lemma execute_Contribute from now pid v callee s r s' :
  execute (mkTx from now (Contribute pid v) callee) s = Done r s' ↔
  _status s ≠ _ENTERED ∧
  initiator (poolAt pid s) ≠ 0 ∧
  now < deadlineTimestamp (poolAt pid s) ∧
  goalAchieved (poolAt pid s) = false ∧
  0 < v ∧
  contributionOf from (poolAt pid s) + v ≤ MAX_UINT256 ∧
  currentAmount (poolAt pid s) + v ≤ MAX_UINT256 ∧
  r = None ∧
  s' = after_contribute (mkMsg from v now) pid s.
Proof.
  unfold execute, dispatch; simpl. cbv [mbind M_bind mret M_ret pay modify].
  destruct (contribute _ pid _) as [u s1|f dirty] eqn:Hc.
  - apply contribute_Done in Hc as (? & ? & ? & ? & ? & ? & ? & ->).
    split; [intros [= <- <-]; done|]. simpl.
    intros (_ & _ & _ & _ & _ & _ & _ & -> & ->); done.
  - split; [intros [=]|]. intros (? & ? & ? & ? & ? & ? & ? & _ & _).
    assert (contribute (mkMsg from v now) pid (credit v s)
            = Done tt (after_contribute (mkMsg from v now) pid s)) as Hd
      by by apply (contribute_Done (mkMsg from v now)).
    congruence.
Qed.

Lemma execute_DisburseFunds from now pid callee s r s' :
  execute (mkTx from now (DisburseFunds pid) callee) s = Done r s' ↔
  _status s ≠ _ENTERED ∧
  initiator (poolAt pid s) ≠ 0 ∧
  (from = initiator (poolAt pid s) ∨ from = _owner s) ∧
  goalAchieved (poolAt pid s) = true ∧
  fundsDisbursed (poolAt pid s) = false ∧
  deadlineTimestamp (poolAt pid s) ≤ now ∧
  (currentAmount (poolAt pid s) ≤ balance s ∧ accepts callee = true) ∧
  r = None ∧
  s' = after_disburseFunds now callee pid s.
Proof.
  unfold execute, dispatch; simpl. cbv [mbind M_bind mret M_ret].
  destruct (disburseFunds _ _ pid s) as [u s1|f dirty] eqn:Hc.
  - apply disburseFunds_Done in Hc as (? & ? & ? & ? & ? & ? & ? & ->).
    split; [intros [= <- <-]; done|]. simpl.
    intros (_ & _ & _ & _ & _ & _ & _ & -> & ->); done.
  - split; [intros [=]|]. intros (? & ? & ? & ? & ? & ? & ? & _ & _).
    assert (disburseFunds (external_call now callee) (mkMsg from 0 now) pid s
            = Done tt (after_disburseFunds now callee pid s)) as Hd
      by by apply disburseFunds_Done.
    congruence.
Qed.

Lemma execute_ClaimRefund from now pid callee s r s' :
  execute (mkTx from now (ClaimRefund pid) callee) s = Done r s' ↔
  _status s ≠ _ENTERED ∧
  initiator (poolAt pid s) ≠ 0 ∧
  deadlineTimestamp (poolAt pid s) ≤ now ∧
  goalAchieved (poolAt pid s) = false ∧
  0 < contributionOf from (poolAt pid s) ∧
  (contributionOf from (poolAt pid s) ≤ balance s ∧ accepts callee = true) ∧
  r = None ∧
  s' = after_claimRefund now callee from pid s.
Proof.
  unfold execute, dispatch; simpl. cbv [mbind M_bind mret M_ret].
  destruct (claimRefund _ _ pid s) as [u s1|f dirty] eqn:Hc.
  - apply claimRefund_Done in Hc as (? & ? & ? & ? & ? & ? & ->).
    split; [intros [= <- <-]; done|]. simpl.
    intros (_ & _ & _ & _ & _ & _ & -> & ->); done.
  - split; [intros [=]|]. intros (? & ? & ? & ? & ? & ? & _ & _).
    assert (claimRefund (external_call now callee) (mkMsg from 0 now) pid s
            = Done tt (after_claimRefund now callee from pid s)) as Hd
      by by apply claimRefund_Done.
    congruence.
Qed.

Lemma execute_TransferOwnership from now a callee s r s' :
  execute (mkTx from now (TransferOwnership a) callee) s = Done r s' →
  s' = after_transferOwnership a s.
Proof.
  unfold execute, dispatch; simpl. cbv [mbind M_bind mret M_ret].
  destruct (transferOwnership _ a s) as [u s1|f dirty] eqn:Hc; [|done].
  apply transferOwnership_Done in Hc as (_ & _ & ->). by intros [= _ <-].
Qed.

Lemma execute_RenounceOwnership from now callee s r s' :
  execute (mkTx from now RenounceOwnership callee) s = Done r s' →
  s' = after_transferOwnership 0 s.
Proof.
  unfold execute, dispatch; simpl. cbv [mbind M_bind mret M_ret].
  destruct (renounceOwnership _ s) as [u s1|f dirty] eqn:Hc; [|done].
  apply renounceOwnership_Done in Hc as (_ & ->). by intros [= _ <-].
Qed.

Lemma after_calls_frame now rcs s :
  _status s = _ENTERED → sound s →
  sound (after_calls now rcs s) ∧
  _poolIdCounter s ≤ _poolIdCounter (after_calls now rcs s) ∧
  ∀ pid,
    (pid < _poolIdCounter s →
     poolAt pid (after_calls now rcs s) = poolAt pid s) ∧
    currentAmount (poolAt pid (after_calls now rcs s))
    = currentAmount (poolAt pid s) ∧
    contributions (poolAt pid (after_calls now rcs s))
    = contributions (poolAt pid s).
Proof.
  intros Hst Hs.
  assert (callbacks (λ _, True) now s (after_calls now rcs s)) as Hcb
    by (apply after_calls_callbacks; [done | by apply Forall_true]).
  split; [by eapply sound_callbacks | by eapply callbacks_frame].
Qed.

Lemma poolAt_disbursing pid0 pid s :
  poolAt pid (disbursing pid0 s) =
  if decide (pid0 = pid) then set_fundsDisbursed true (poolAt pid s)
  else poolAt pid s.
Proof.
  unfold disbursing. case_decide as Hp.
  - subst. by rewrite poolAt_set_pool_eq.
  - by rewrite poolAt_set_pool_ne.
Qed.

Lemma poolAt_refunding who pid0 pid s :
  poolAt pid (refunding who pid0 s) =
  if decide (pid0 = pid) then set_contribution who 0 (poolAt pid s)
  else poolAt pid s.
Proof.
  unfold refunding. case_decide as Hp.
  - subst. by rewrite poolAt_set_pool_eq.
  - by rewrite poolAt_set_pool_ne.
Qed.

Lemma poolAt_after_contribute msg pid0 pid s :
  poolAt pid (after_contribute msg pid0 s) =
  if decide (pid0 = pid)
  then pool_after_contribute (sender msg) (value msg) (poolAt pid s)
  else poolAt pid s.
Proof.
  unfold poolAt at 1. unfold after_contribute; simpl. case_decide as Hp.
  - subst. by rewrite lookup_insert_eq.
  - by rewrite lookup_insert_ne.
Qed.

Lemma poolAt_after_disburseFunds now callee pid0 pid s :
  poolAt pid (after_disburseFunds now callee pid0 s)
  = poolAt pid (after_calls now (reentrant callee) (disbursing pid0 s)).
Proof. reflexivity. Qed.

Lemma poolAt_after_claimRefund now callee who pid0 pid s :
  poolAt pid (after_claimRefund now callee who pid0 s)
  = poolAt pid (after_calls now (reentrant callee) (refunding who pid0 s)).
Proof. reflexivity. Qed.

Lemma contributionOf_ext a p q :
  contributions p = contributions q → contributionOf a p = contributionOf a q.
Proof. unfold contributionOf. by intros ->. Qed.

(** One transaction moves [currentAmount] by exactly what it contributes. *)
Lemma currentAmount_transact pid s tx :
  sound s →
  currentAmount (poolAt pid (transact s tx))
  = currentAmount (poolAt pid s) + attached_to pid None s tx.
Proof.
  intros Hs. unfold attached_to, transact, succeeds.
  destruct tx as [from now [b d g t|p v|p|p|a|] callee]; simpl;
    destruct (execute _ s) as [r s'|f dirty] eqn:He;
    rewrite ?andb_true_r; simpl; try lia.
  - apply execute_CreatePool in He as (_ & _ & _ & _ & _ & ->).
    destruct (after_createPool_frame (mkMsg from 0 now) b d g t s pid Hs)
      as (_ & -> & _). lia.
  - apply execute_Contribute in He as (_ & _ & _ & _ & _ & _ & _ & _ & ->).
    rewrite poolAt_after_contribute.
    case_decide; case_bool_decide; try done; simpl; lia.
  - apply execute_DisburseFunds in He as (_ & Hi & _ & _ & _ & _ & _ & _ & ->).
    rewrite poolAt_after_disburseFunds.
    destruct (after_calls_frame now (reentrant callee) (disbursing p s))
      as (_ & _ & Hf); [done | by apply sound_disbursing |].
    destruct (Hf pid) as (_ & -> & _). rewrite poolAt_disbursing.
    case_decide; simpl; lia.
  - apply execute_ClaimRefund in He as (_ & Hi & _ & _ & _ & _ & _ & ->).
    rewrite poolAt_after_claimRefund.
    destruct (after_calls_frame now (reentrant callee) (refunding from p s))
      as (_ & _ & Hf); [done | by apply sound_refunding |].
    destruct (Hf pid) as (_ & -> & _). rewrite poolAt_refunding.
    case_decide; simpl; lia.
  - apply execute_TransferOwnership in He as ->.
    unfold after_transferOwnership. autorewrite with storage. lia.
  - apply execute_RenounceOwnership in He as ->.
    unfold after_transferOwnership. autorewrite with storage. lia.
Qed.

Lemma currentAmount_run pid s txs :
  sound s →
  currentAmount (poolAt pid (run s txs))
  = currentAmount (poolAt pid s) + contributed pid None s txs.
Proof.
  revert s. induction txs as [|tx txs IH]; intros s Hs; simpl; [lia|].
  rewrite IH by by apply sound_transact.
  rewrite currentAmount_transact by done. lia.
Qed.

(** One transaction changes a ledger entry only by contributing to it or by
    refunding it. *)
Lemma contributionOf_transact pid a s tx :
  sound s →
  contributionOf a (poolAt pid (transact s tx)) =
  match tx_call tx with
  | Contribute _ _ =>
      contributionOf a (poolAt pid s) + attached_to pid (Some a) s tx
  | ClaimRefund p =>
      if succeeds s tx && bool_decide (p = pid)
         && bool_decide (tx_from tx = a)
      then 0 else contributionOf a (poolAt pid s)
  | _ => contributionOf a (poolAt pid s)
  end.
Proof.
  intros Hs. unfold attached_to, transact, succeeds.
  destruct tx as [from now [b d g t|p v|p|p|w|] callee]; simpl;
    destruct (execute _ s) as [r s'|f dirty] eqn:He; simpl; try lia.
  - apply execute_CreatePool in He as (_ & _ & _ & _ & _ & ->).
    destruct (after_createPool_frame (mkMsg from 0 now) b d g t s pid Hs)
      as (_ & _ & Hc). by apply contributionOf_ext.
  - apply execute_Contribute in He as (_ & _ & _ & _ & _ & _ & _ & _ & ->).
    rewrite poolAt_after_contribute.
    case_decide as Hp; case_bool_decide; try done; simpl; [|lia].
    rewrite contributionOf_after_contribute. simpl.
    case_decide; case_bool_decide; subst; try done; lia.
  - apply execute_DisburseFunds in He as (_ & Hi & _ & _ & _ & _ & _ & _ & ->).
    rewrite poolAt_after_disburseFunds.
    destruct (after_calls_frame now (reentrant callee) (disbursing p s))
      as (_ & _ & Hf); [done | by apply sound_disbursing |].
    destruct (Hf pid) as (_ & _ & Hc).
    rewrite (contributionOf_ext _ _ _ Hc), poolAt_disbursing.
    by case_decide.
  - apply execute_ClaimRefund in He as (_ & Hi & _ & _ & _ & _ & _ & ->).
    rewrite poolAt_after_claimRefund.
    destruct (after_calls_frame now (reentrant callee) (refunding from p s))
      as (_ & _ & Hf); [done | by apply sound_refunding |].
    destruct (Hf pid) as (_ & _ & Hc).
    rewrite (contributionOf_ext _ _ _ Hc), poolAt_refunding.
    case_decide; case_bool_decide; try done; simpl;
      rewrite ?contributionOf_refunded;
      case_decide; case_bool_decide; subst; done.
  - by apply execute_TransferOwnership in He as ->.
  - by apply execute_RenounceOwnership in He as ->.
Qed.

(** ** Splitting a history *)

Lemma run_app s before later :
  run s (before ++ later) = run (run s before) later.
Proof. apply fold_left_app. Qed.

Lemma chronological_app t0 before tx later :
  chronological t0 (before ++ tx :: later) = true →
  chronological (tx_time tx) later = true.
Proof.
  revert t0. induction before as [|x before IH]; intros t0; simpl.
  - by intros [_ H]%andb_true_iff.
  - intros [_ H]%andb_true_iff. by apply (IH (tx_time x)).
Qed.

Lemma chronological_snoc t l x :
  chronological t (l ++ [x]) = true →
  chronological t l = true ∧ t ≤ tx_time x.
Proof.
  revert t. induction l as [|y l IH]; intros t; cbn [app chronological].
  - rewrite andb_true_r. intros H%Z.leb_le. done.
  - intros [Hy%Z.leb_le Hl]%andb_true_iff.
    destruct (IH _ Hl) as [-> Hx]. split; [|lia].
    rewrite andb_true_r. by apply Z.leb_le.
Qed.

Lemma in_use s pid :
  sound s → initiator (poolAt pid s) ≠ 0 → 1 ≤ pid < _poolIdCounter s.
Proof. intros Hs Hi. by apply (sound_fresh s Hs), poolAt_exists. Qed.

(** ** The books of a pool *)

Lemma logged_app f l k : logged f (l ++ k) = logged f l + logged f k.
Proof. induction l as [|e l IH]; simpl; lia. Qed.

Lemma logged_snoc f l e : logged f (l ++ [e]) = logged f l + f e.
Proof. rewrite logged_app. simpl. lia. Qed.

Lemma map_sum_insert (a x : Z) (m : gmap Z Z) :
  map_fold (λ _ v acc, v + acc) 0 (<[a := x]> m)
  = map_fold (λ _ v acc, v + acc) 0 m - default 0 (m !! a) + x.
Proof.
  destruct (m !! a) as [y|] eqn:H; simpl.
  - rewrite <- insert_delete_eq.
    rewrite map_fold_insert_L; [ | intros; lia | apply lookup_delete_eq].
    rewrite (map_fold_delete_L _ _ a y m); [ | intros; lia | done]. lia.
  - rewrite map_fold_insert_L; [ | intros; lia | done]. lia.
Qed.

Lemma map_sum_nonneg (m : gmap Z Z) :
  (∀ a, 0 ≤ default 0 (m !! a)) → 0 ≤ map_fold (λ _ v acc, v + acc) 0 m.
Proof.
  induction m as [|i x m Hi IH] using map_ind; intros H.
  - by rewrite map_fold_empty.
  - rewrite map_fold_insert_L; [ | intros; lia | done].
    pose proof (H i) as Hx. rewrite lookup_insert_eq in Hx. simpl in Hx.
    assert (0 ≤ map_fold (λ _ v acc, v + acc) 0 m); [|lia].
    apply IH. intros a. destruct (decide (a = i)) as [-> | Hne].
    + by rewrite Hi.
    + specialize (H a). by rewrite lookup_insert_ne in H.
Qed.

Lemma ledger_total_contribute who v p :
  ledger_total (pool_after_contribute who v p) = ledger_total p + v.
Proof.
  unfold ledger_total, pool_after_contribute, contributionOf. simpl.
  rewrite map_sum_insert. lia.
Qed.

Lemma ledger_total_refund who p :
  ledger_total (set_contribution who 0 p)
  = ledger_total p - contributionOf who p.
Proof.
  unfold ledger_total, set_contribution, contributionOf. simpl.
  rewrite map_sum_insert. lia.
Qed.

Lemma ledger_total_nonneg s pid : sound s → 0 ≤ ledger_total (poolAt pid s).
Proof.
  intros Hs. apply map_sum_nonneg. intros a.
  apply (sound_ledger s Hs pid a).
Qed.

(** A pool's books read only these fields. *)
Lemma balanced_ext now pin pref pout p q :
  currentAmount q = currentAmount p →
  contributions q = contributions p →
  fundsDisbursed q = fundsDisbursed p →
  goalAchieved q = goalAchieved p →
  (pref ≠ 0 → deadlineTimestamp q = deadlineTimestamp p) →
  balanced now pin pref pout p → balanced now pin pref pout q.
Proof.
  intros Hc Hl Hf Hg Hd [H1 H2 H3 H4 H5 H6].
  split; unfold ledger_total; rewrite ?Hc, ?Hl, ?Hf, ?Hg; try done.
  intros Hne. rewrite (Hd Hne). by apply H6.
Qed.

Lemma balanced_mono t now pin pref pout p :
  t ≤ now → balanced t pin pref pout p → balanced now pin pref pout p.
Proof.
  intros Ht [H1 H2 H3 H4 H5 H6]. split; try done.
  intros Hne. destruct (H6 Hne). split; [lia | done].
Qed.

Lemma flags_after_createPool msg b d g t s pid :
  sound s →
  goalAchieved (poolAt pid (after_createPool msg b d g t s))
  = goalAchieved (poolAt pid s)
  ∧ fundsDisbursed (poolAt pid (after_createPool msg b d g t s))
    = fundsDisbursed (poolAt pid s).
Proof.
  intros Hs. destruct (decide (pid = _poolIdCounter s)) as [-> | Hne].
  - rewrite (sound_slot s Hs). unfold poolAt, after_createPool; simpl.
    by rewrite lookup_insert_eq.
  - destruct (after_createPool_frame msg b d g t s pid Hs) as (Hsame & _).
    by rewrite Hsame.
Qed.

(** What the recipient of a transfer can do by calling back leaves the
    books of every pool as they are. *)
Lemma books_callbacks ok now s s' :
  callbacks ok now s s' → sound s →
  ∀ pid,
    logged (contribution_logged pid) (events s')
    = logged (contribution_logged pid) (events s)
    ∧ logged (refund_logged pid) (events s')
      = logged (refund_logged pid) (events s)
    ∧ logged (payout_logged pid) (events s')
      = logged (payout_logged pid) (events s)
    ∧ goalAchieved (poolAt pid s') = goalAchieved (poolAt pid s)
    ∧ fundsDisbursed (poolAt pid s') = fundsDisbursed (poolAt pid s).
Proof.
  induction 1 as [s | s from b d g t s' _ Hb Hg Ht _ _ IH | s a s' _ IH];
    intros Hs pid; [done | |].
  - destruct (IH (sound_after_createPool _ b d g t s Hs) pid)
      as (-> & -> & -> & -> & ->).
    destruct (flags_after_createPool (mkMsg from 0 now) b d g t s pid Hs)
      as (-> & ->).
    unfold after_createPool. cbn [events]. by rewrite !logged_snoc, !Z.add_0_r.
  - destruct (IH (sound_after_transferOwnership a s Hs) pid)
      as (-> & -> & -> & -> & ->).
    unfold after_transferOwnership, log_event, set_owner. cbn [events pools].
    rewrite !logged_snoc. simpl. by rewrite !Z.add_0_r.
Qed.

Lemma books_unused now pid s :
  sound s → books now pid s → ¬ pid < _poolIdCounter s →
  logged (refund_logged pid) (events s) = 0.
Proof.
  intros Hs [_ H _ _ _ _] Hout.
  assert (pools s !! pid = None) as Hnone.
  { destruct (pools s !! pid) eqn:Hp; [|done].
    destruct Hout. by apply (sound_fresh s Hs pid). }
  rewrite (poolAt_unused pid s Hnone) in H.
  unfold ledger_total in H. simpl in H. rewrite map_fold_empty in H. lia.
Qed.

Lemma books_intro now pid s' q :
  currentAmount (poolAt pid s') = currentAmount q →
  contributions (poolAt pid s') = contributions q →
  fundsDisbursed (poolAt pid s') = fundsDisbursed q →
  goalAchieved (poolAt pid s') = goalAchieved q →
  (logged (refund_logged pid) (events s') ≠ 0 →
   deadlineTimestamp (poolAt pid s') = deadlineTimestamp q) →
  balanced now
    (logged (contribution_logged pid) (events s'))
    (logged (refund_logged pid) (events s'))
    (logged (payout_logged pid) (events s')) q →
  books now pid s'.
Proof.
  intros Hc Hl Hf Hg Hd H. unfold books.
  by apply (balanced_ext now _ _ _ q).
Qed.

Lemma events_after_createPool msg b d g t s :
  events (after_createPool msg b d g t s)
  = events s ++ [PoolCreated (_poolIdCounter s) (sender msg) b d g t].
Proof. reflexivity. Qed.

Lemma events_after_transferOwnership a s :
  events (after_transferOwnership a s)
  = events s ++ [OwnershipTransferred (_owner s) a].
Proof. reflexivity. Qed.

(** The pool a recipient finds after calling back, against the pool it was
    handed control with. *)
Lemma books_handed_back ok now s0 s2 pid :
  callbacks ok now s0 s2 → sound s0 →
  (logged (contribution_logged pid) (events s2)
   = logged (contribution_logged pid) (events s0)
   ∧ logged (refund_logged pid) (events s2)
     = logged (refund_logged pid) (events s0)
   ∧ logged (payout_logged pid) (events s2)
     = logged (payout_logged pid) (events s0))
  ∧ currentAmount (poolAt pid s2) = currentAmount (poolAt pid s0)
  ∧ contributions (poolAt pid s2) = contributions (poolAt pid s0)
  ∧ fundsDisbursed (poolAt pid s2) = fundsDisbursed (poolAt pid s0)
  ∧ goalAchieved (poolAt pid s2) = goalAchieved (poolAt pid s0)
  ∧ (pid < _poolIdCounter s0 → poolAt pid s2 = poolAt pid s0).
Proof.
  intros Hcb Hs.
  destruct (books_callbacks ok now s0 s2 Hcb Hs pid)
    as (H1 & H2 & H3 & H4 & H5).
  destruct (callbacks_frame ok now s0 s2 Hcb Hs) as (_ & Hfr).
  destruct (Hfr pid) as (H6 & H7 & H8). done.
Qed.

Lemma books_step ok t now s s' pid :
  sound s → books t pid s → t ≤ now → step ok now s s' → books now pid s'.
Proof.
  intros Hs Hb Ht Hstep.
  pose proof (books_unused t pid s Hs Hb) as Hunused.
  pose proof (balanced_mono t now _ _ _ _ Ht Hb) as Hnow.
  destruct Hb as [B1 B2 B3 B4 B5 B6].
  destruct Hstep as
    [from b d g tt _ Hbn Hg Htt _
    | from v pid0 Hi Hd Hg Hv _ _
    | callee pid0 Hi Hg Hf Hd Hbal Hcb
    | callee from pid0 Hi Hd Hg Hc Hbal Hcb
    | a].
  - (* createPool *)
    destruct (after_createPool_frame (mkMsg from 0 now) b d g tt s pid Hs)
      as (Hsame & Hcur & Hled).
    destruct (flags_after_createPool (mkMsg from 0 now) b d g tt s pid Hs)
      as (Hga & Hfd).
    apply (books_intro now pid _ (poolAt pid s)); try done;
      rewrite events_after_createPool, !logged_snoc; simpl;
      rewrite ?Z.add_0_r; [|done].
    intros Hne. rewrite Hsame; [done|].
    intros ->. apply Hne, Hunused. lia.
  - (* contribute *)
    set (p := poolAt pid0 s) in *.
    set (total := currentAmount p + v).
    assert (∀ f, logged f (events (after_contribute (mkMsg from v now) pid0 s))
                 = logged f (events s)
                   + f (ContributionMade pid0 from v total)
                   + (if goalAmount p <=? total
                      then f (GoalAchieved pid0 total) else 0)) as Hlog.
    { intros f. unfold after_contribute. cbn [events sender value].
      fold p total. rewrite logged_app. simpl.
      destruct (goalAmount p <=? total); simpl; lia. }
    destruct (decide (pid0 = pid)) as [-> | Hne].
    + apply (books_intro now pid _
               (pool_after_contribute from v (poolAt pid s)));
        rewrite ?Hlog, ?poolAt_after_contribute, ?decide_True by done;
        try done.
      assert (fundsDisbursed (poolAt pid s) = false) as Hnf.
      { destruct (fundsDisbursed (poolAt pid s)); [|done].
        specialize (B5 eq_refl). fold p in B5. congruence. }
      assert (logged (refund_logged pid) (events s) = 0) as Hzero.
      { destruct (decide (logged (refund_logged pid) (events s) = 0))
          as [|Hnz]; [done|].
        destruct (B6 Hnz) as [Hlate _]. fold p in Hlate. lia. }
      cbn [contribution_logged refund_logged payout_logged].
      rewrite bool_decide_eq_true_2 by done.
      rewrite Hnf in B4. subst total p.
      destruct (goalAmount _ <=? _);
        (split; simpl; rewrite ?ledger_total_contribute, ?Hnf;
         [lia | lia | lia | lia | done | lia]).
    + apply (books_intro now pid _ (poolAt pid s));
        rewrite ?Hlog, ?poolAt_after_contribute, ?decide_False by done;
        try done.
      cbn [contribution_logged refund_logged payout_logged].
      rewrite bool_decide_eq_false_2 by done.
      destruct (goalAmount p <=? total); by rewrite !Z.add_0_r.
  - (* disburseFunds *)
    destruct (books_handed_back ok now _ _ pid Hcb
                (sound_disbursing pid0 s Hs Hi))
      as ((L1 & L2 & L3) & Hcur & Hled & Hfd & Hga & Hsame).
    destruct (in_use s pid0 Hs Hi) as [_ Hlt0].
    cbn [disbursing set_pool set_status events _poolIdCounter]
      in L1, L2, L3, Hsame.
    rewrite poolAt_disbursing in Hcur, Hled, Hfd, Hga, Hsame.
    set (s2 := after_calls now (reentrant callee) (disbursing pid0 s)) in *.
    assert (∀ f, logged f (events (after_disburseFunds now callee pid0 s))
                 = logged f (events s2)
                   + f (FundsDisbursed pid0 (beneficiary (poolAt pid0 s2))
                          (currentAmount (poolAt pid0 s2)))) as Hlog.
    { intros f. unfold after_disburseFunds. cbn [events set_status log_event].
      fold s2. by rewrite logged_snoc. }
    assert (∀ k, poolAt k (after_disburseFunds now callee pid0 s)
                 = poolAt k s2) as Hat by done.
    destruct (decide (pid0 = pid)) as [-> | Hne].
    + cbn beta iota in Hcur, Hled, Hfd, Hga, Hsame.
      apply (books_intro now pid _
               (set_fundsDisbursed true (poolAt pid s)));
        rewrite ?Hlog, ?Hat; try done.
      { intros _. by rewrite Hsame. }
      rewrite L1, L2, L3.
      cbn [contribution_logged refund_logged payout_logged].
      rewrite bool_decide_eq_true_2 by done.
      rewrite Hcur. rewrite Hf in B4.
      split; simpl; unfold ledger_total in *; simpl; try lia; try done.
      intros Hne. rewrite Z.add_0_r in Hne. destruct (B6 Hne). congruence.
    + cbn beta iota in Hcur, Hled, Hfd, Hga, Hsame.
      apply (books_intro now pid _ (poolAt pid s));
        rewrite ?Hlog, ?Hat; try done.
      { intros Hne'. rewrite Hsame; [done|].
        destruct (decide (pid < _poolIdCounter s)); [done|].
        destruct Hne'. rewrite L2.
        cbn [refund_logged]. rewrite Z.add_0_r. by apply Hunused. }
      rewrite L1, L2, L3.
      cbn [contribution_logged refund_logged payout_logged].
      rewrite bool_decide_eq_false_2 by done. by rewrite !Z.add_0_r.
  - (* claimRefund *)
    destruct (books_handed_back ok now _ _ pid Hcb
                (sound_refunding from pid0 s Hs Hi))
      as ((L1 & L2 & L3) & Hcur & Hled & Hfd & Hga & Hsame).
    destruct (in_use s pid0 Hs Hi) as [_ Hlt0].
    cbn [refunding set_pool set_status events _poolIdCounter]
      in L1, L2, L3, Hsame.
    rewrite poolAt_refunding in Hcur, Hled, Hfd, Hga, Hsame.
    set (s2 := after_calls now (reentrant callee) (refunding from pid0 s))
      in *.
    assert (∀ f, logged f (events (after_claimRefund now callee from pid0 s))
                 = logged f (events s2)
                   + f (RefundClaimed pid0 from
                          (contributionOf from (poolAt pid0 s)))) as Hlog.
    { intros f. unfold after_claimRefund. cbn [events set_status log_event].
      fold s2. by rewrite logged_snoc. }
    assert (∀ k, poolAt k (after_claimRefund now callee from pid0 s)
                 = poolAt k s2) as Hat by done.
    destruct (decide (pid0 = pid)) as [-> | Hne].
    + cbn beta iota in Hcur, Hled, Hfd, Hga, Hsame.
      apply (books_intro now pid _
               (set_contribution from 0 (poolAt pid s)));
        rewrite ?Hlog, ?Hat; try done.
      { intros _. by rewrite Hsame. }
      rewrite L1, L2, L3.
      cbn [contribution_logged refund_logged payout_logged].
      rewrite bool_decide_eq_true_2 by done.
      split; rewrite ?ledger_total_refund; simpl; try lia; try done.
    + cbn beta iota in Hcur, Hled, Hfd, Hga, Hsame.
      apply (books_intro now pid _ (poolAt pid s));
        rewrite ?Hlog, ?Hat; try done.
      { intros Hne'. rewrite Hsame; [done|].
        destruct (decide (pid < _poolIdCounter s)); [done|].
        destruct Hne'. rewrite L2.
        cbn [refund_logged]. rewrite bool_decide_eq_false_2 by done.
        rewrite Z.add_0_r. by apply Hunused. }
      rewrite L1, L2, L3.
      cbn [contribution_logged refund_logged payout_logged].
      rewrite bool_decide_eq_false_2 by done. by rewrite !Z.add_0_r.
  - (* ownership *)
    apply (books_intro now pid _ (poolAt pid s)); try done;
      rewrite events_after_transferOwnership, !logged_snoc; simpl;
      by rewrite ?Z.add_0_r.
Qed.

Lemma books_transact t s tx pid :
  sound s → books t pid s → t ≤ tx_time tx →
  books (tx_time tx) pid (transact s tx).
Proof.
  intros Hs Hb Ht.
  destruct (transact_step (λ _, True) s tx) as [-> | Hstep].
  - split; [done|]. by apply Forall_true.
  - by apply (balanced_mono t).
  - by apply (books_step (λ _, True) t (tx_time tx) s).
Qed.

Lemma books_run t0 s txs pid :
  sound s → books t0 pid s → chronological t0 txs = true →
  books (clock t0 txs) pid (run s txs).
Proof.
  revert t0 s. induction txs as [|tx txs IH]; intros t0 s Hs Hb Hc; [done|].
  cbn [chronological] in Hc. apply andb_true_iff in Hc as [Ht%Z.leb_le Hc].
  cbn [run clock fold_left].
  apply IH; [by apply sound_transact | | done].
  by apply (books_transact t0).
Qed.

Lemma books_deployed t pid deployer : books t pid (deployed deployer).
Proof.
  unfold books, poolAt; simpl. rewrite lookup_empty. simpl.
  split; unfold ledger_total; simpl; rewrite ?map_fold_empty; done.
Qed.

Lemma logged_housekeeping_callbacks (f : Event → Z) ok now s s' :
  (∀ e, housekeeping e = true → f e = 0) →
  callbacks ok now s s' → logged f (events s') = logged f (events s).
Proof.
  intros Hf. induction 1 as [s | s from b d g t s' _ _ _ _ _ _ IH | s a s' _ IH];
    [done | |]; rewrite IH.
  - rewrite events_after_createPool, logged_snoc, Hf by done. lia.
  - rewrite events_after_transferOwnership, logged_snoc, Hf by done. lia.
Qed.


(** ** The ether behind the pools *)

Lemma map_sum_lookup (a : Z) (m : gmap Z Z) :
  (∀ k, 0 ≤ default 0 (m !! k)) →
  default 0 (m !! a) ≤ map_fold (λ _ v acc, v + acc) 0 m.
Proof.
  intros H. destruct (m !! a) as [y|] eqn:Ha; simpl.
  - rewrite (map_fold_delete_L _ _ a y m); [ | intros; lia | done].
    assert (0 ≤ map_fold (λ _ v acc, v + acc) 0 (delete a m)); [|lia].
    apply map_sum_nonneg. intros k.
    destruct (decide (k = a)) as [-> | Hne].
    + by rewrite lookup_delete_eq.
    + rewrite lookup_delete_ne by done. apply H.
  - by apply map_sum_nonneg.
Qed.

Lemma entry_le_ledger_total s pid a :
  sound s → contributionOf a (poolAt pid s) ≤ ledger_total (poolAt pid s).
Proof.
  intros Hs. apply map_sum_lookup. intros k. apply (sound_ledger s Hs pid k).
Qed.

Lemma balance_callbacks ok now s s' :
  callbacks ok now s s' → balance s' = balance s.
Proof. induction 1 as [s | s from b d g t s' _ _ _ _ _ _ IH | s a s' _ IH];
  [done | by rewrite IH | by rewrite IH]. Qed.

Lemma holding_callbacks ok now s s' pid :
  callbacks ok now s s' → holding pid (events s') = holding pid (events s).
Proof.
  intros Hcb. unfold holding.
  by rewrite !(logged_housekeeping_callbacks _ ok now s s')
    by (done || by intros []).
Qed.

Lemma held_ext ids l l' :
  (∀ k, holding k l' = holding k l) → held ids l' = held ids l.
Proof. intros H. induction ids as [|k ids IH]; simpl; [done|]. by rewrite H, IH. Qed.

(** Moving [d] wei in or out of one pool moves the sum by [d] when the pool
    is counted and not at all when it is not. *)
Lemma held_shift ids l l' pid d :
  NoDup ids →
  (∀ k, holding k l' = holding k l + if bool_decide (k = pid) then d else 0) →
  held ids l' = held ids l + if bool_decide (pid ∈ ids) then d else 0.
Proof.
  intros Hnd H. induction Hnd as [|k ids Hk Hnd IH]; cbn [held foldr].
  { destruct (bool_decide_reflect (pid ∈ [])) as [Hin|_]; [|lia].
    by apply elem_of_nil in Hin. }
  fold (held ids l) (held ids l'). rewrite H, IH.
  destruct (decide (k = pid)) as [-> | Hne].
  - rewrite (bool_decide_eq_true_2 (pid = pid)) by done.
    rewrite (bool_decide_eq_false_2 (pid ∈ ids)) by done.
    rewrite (bool_decide_eq_true_2 (pid ∈ pid :: ids))
      by (apply elem_of_cons; by left).
    lia.
  - rewrite (bool_decide_eq_false_2 (k = pid)) by done.
    destruct (decide (pid ∈ ids)) as [Hin | Hout].
    + rewrite (bool_decide_eq_true_2 (pid ∈ ids)) by done.
      rewrite (bool_decide_eq_true_2 (pid ∈ k :: ids))
        by (apply elem_of_cons; by right).
      lia.
    + rewrite (bool_decide_eq_false_2 (pid ∈ ids)) by done.
      rewrite (bool_decide_eq_false_2 (pid ∈ k :: ids)); [lia|].
      rewrite elem_of_cons. intros [Heq | Hin]; [by subst | done].
Qed.

Lemma solvent_move s s' pid d :
  solvent s →
  balance s' = balance s + d →
  (∀ k, holding k (events s')
        = holding k (events s) + if bool_decide (k = pid) then d else 0) →
  (d < 0 → - d ≤ holding pid (events s)) →
  solvent s'.
Proof.
  intros Hsol Hbal Hhold Hd ids Hnd.
  rewrite (held_shift ids (events s) (events s') pid d Hnd Hhold), Hbal.
  pose proof (Hsol ids Hnd) as Hle.
  destruct (decide (pid ∈ ids)) as [Hin | Hout].
  - rewrite bool_decide_eq_true_2 by done. lia.
  - rewrite bool_decide_eq_false_2 by done.
    destruct (decide (d < 0)) as [Hneg | ?]; [|lia].
    pose proof (Hsol (pid :: ids) ltac:(by constructor)) as Hle'.
    simpl in Hle'. specialize (Hd Hneg). lia.
Qed.

Lemma solvent_still s s' :
  solvent s →
  balance s' = balance s →
  (∀ k, holding k (events s') = holding k (events s)) →
  solvent s'.
Proof.
  intros Hsol Hbal Hhold ids Hnd.
  rewrite (held_ext ids (events s) (events s') Hhold), Hbal. by apply Hsol.
Qed.

(** What the books say a pool holds. *)
Lemma holding_paid_or_open now pid s :
  sound s → books now pid s →
  holding pid (events s)
  = if fundsDisbursed (poolAt pid s) then 0
    else if goalAchieved (poolAt pid s) then currentAmount (poolAt pid s)
    else ledger_total (poolAt pid s).
Proof.
  intros Hs [B1 B2 B3 B4 B5 B6]. unfold holding.
  destruct (fundsDisbursed (poolAt pid s)) eqn:Hf.
  - specialize (B5 eq_refl).
    destruct (decide (logged (refund_logged pid) (events s) = 0)) as [Hz|Hnz];
      [lia|]. destruct (B6 Hnz). congruence.
  - destruct (goalAchieved (poolAt pid s)) eqn:Hg; [|lia].
    destruct (decide (logged (refund_logged pid) (events s) = 0)) as [Hz|Hnz];
      [lia|]. destruct (B6 Hnz). congruence.
Qed.

Lemma solvent_step ok t now s s' :
  sound s → (∀ pid, books t pid s) → solvent s → step ok now s s' →
  solvent s'.
Proof.
  intros Hs Hb Hsol Hstep.
  destruct Hstep as
    [from b d g tt _ Hbn Hg Htt _
    | from v pid0 Hi Hd Hg Hv _ _
    | callee pid0 Hi Hg Hf Hd Hbal Hcb
    | callee from pid0 Hi Hd Hg Hc Hbal Hcb
    | a].
  - apply (solvent_still s); [done | done |].
    intros k. unfold holding.
    rewrite events_after_createPool, !logged_snoc. simpl. lia.
  - apply (solvent_move s _ pid0 v); [done | done | | lia].
    intros k. unfold holding, after_contribute. cbn [events sender value].
    rewrite !logged_app.
    cbn [logged foldr contribution_logged refund_logged payout_logged].
    destruct (decide (k = pid0)) as [-> | Hne];
      [ rewrite !bool_decide_eq_true_2 by done
      | rewrite !bool_decide_eq_false_2 by congruence ];
      destruct (goalAmount _ <=? _); simpl; lia.
  - pose proof (holding_paid_or_open t pid0 s Hs (Hb pid0)) as Hhold.
    rewrite Hf, Hg in Hhold.
    apply (solvent_move s _ pid0 (- currentAmount (poolAt pid0 s))); [done| | |lia].
    + unfold after_disburseFunds.
      cbn [balance set_status log_event debit].
      rewrite (balance_callbacks ok now _ _ Hcb). cbn. lia.
    + intros k.
      destruct (books_handed_back ok now _ _ pid0 Hcb
                  (sound_disbursing pid0 s Hs Hi))
        as (_ & Hcur & _).
      rewrite poolAt_disbursing, decide_True in Hcur by done.
      unfold after_disburseFunds. cbn [events set_status log_event debit].
      unfold holding. rewrite !logged_snoc. fold (holding k).
      pose proof (holding_callbacks ok now _ _ k Hcb) as Hk.
      unfold holding in Hk. cbn [disbursing events set_pool set_status] in Hk.
      cbn [contribution_logged refund_logged payout_logged].
      rewrite Hcur. cbn [currentAmount set_fundsDisbursed].
      destruct (decide (k = pid0)) as [-> | Hne];
        [ rewrite !bool_decide_eq_true_2 by done
        | rewrite !bool_decide_eq_false_2 by congruence ]; lia.
  - pose proof (holding_paid_or_open t pid0 s Hs (Hb pid0)) as Hhold.
    assert (fundsDisbursed (poolAt pid0 s) = false) as Hf.
    { destruct (fundsDisbursed (poolAt pid0 s)) eqn:Hf; [|done].
      pose proof (bal_flag _ _ _ _ _ (Hb pid0) Hf). congruence. }
    rewrite Hf, Hg in Hhold.
    pose proof (entry_le_ledger_total s pid0 from Hs) as Hle.
    apply (solvent_move s _ pid0
             (- contributionOf from (poolAt pid0 s))); [done| | |lia].
    + unfold after_claimRefund.
      cbn [balance set_status log_event debit].
      rewrite (balance_callbacks ok now _ _ Hcb). cbn. lia.
    + intros k.
      unfold after_claimRefund. cbn [events set_status log_event debit].
      unfold holding. rewrite !logged_snoc.
      pose proof (holding_callbacks ok now _ _ k Hcb) as Hk.
      unfold holding in Hk. cbn [refunding events set_pool set_status] in Hk.
      cbn [contribution_logged refund_logged payout_logged].
      destruct (decide (k = pid0)) as [-> | Hne];
        [ rewrite !bool_decide_eq_true_2 by done
        | rewrite !bool_decide_eq_false_2 by congruence ]; lia.
  - apply (solvent_still s); [done | done |].
    intros k. unfold holding.
    rewrite events_after_transferOwnership, !logged_snoc. simpl. lia.
Qed.

Lemma books_solvent_run t0 s txs :
  sound s → (∀ pid, books t0 pid s) → solvent s →
  chronological t0 txs = true →
  (∀ pid, books (clock t0 txs) pid (run s txs)) ∧ solvent (run s txs).
Proof.
  revert t0 s. induction txs as [|tx txs IH]; intros t0 s Hs Hb Hsol Hc;
    [done|].
  cbn [chronological] in Hc. apply andb_true_iff in Hc as [Ht%Z.leb_le Hc].
  cbn [run clock fold_left].
  apply IH; [by apply sound_transact | | | done].
  - intros pid. by apply (books_transact t0).
  - destruct (transact_step (λ _, True) s tx) as [-> | Hstep]; [|done|].
    + split; [done|]. by apply Forall_true.
    + by apply (solvent_step (λ _, True) t0 (tx_time tx) s).
Qed.

Lemma solvent_deployed deployer : solvent (deployed deployer).
Proof.
  intros ids _. simpl. induction ids as [|k ids IH]; simpl; [done|].
  unfold holding at 1. simpl. lia.
Qed.

(** Along a history whose timestamps do not go back the contract holds
    what each of its pools is owed. *)
Lemma enough_ether deployer t0 txs pid :
  chronological t0 txs = true →
  let s := run (deployed deployer) txs in
  let p := poolAt pid s in
  books (clock t0 txs) pid s
  ∧ (fundsDisbursed p = false → goalAchieved p = true →
     currentAmount p ≤ balance s)
  ∧ (goalAchieved p = false → ∀ a, contributionOf a p ≤ balance s)
  ∧ (goalAchieved p = false → ledger_total p ≤ balance s).
Proof.
  intros Hc s p.
  assert (sound s) as Hs by apply sound_run, sound_deployed.
  destruct (books_solvent_run t0 (deployed deployer) txs
              (sound_deployed deployer)
              (λ k, books_deployed t0 k deployer)
              (solvent_deployed deployer) Hc) as [Hb Hsol].
  fold s in Hb, Hsol.
  pose proof (Hsol [pid] ltac:(apply NoDup_singleton)) as Hle.
  simpl in Hle.
  pose proof (holding_paid_or_open _ pid s Hs (Hb pid)) as Hhold.
  fold p in Hhold.
  assert (goalAchieved p = false → fundsDisbursed p = false) as Hnf.
  { intros Hg. destruct (fundsDisbursed p) eqn:Hf; [|done].
    pose proof (bal_flag _ _ _ _ _ (Hb pid) Hf) as Hg'. fold p in Hg'.
    congruence. }
  split; [apply Hb|]. split; [|split].
  - intros Hf Hg. rewrite Hf, Hg in Hhold. lia.
  - intros Hg a. rewrite (Hnf Hg), Hg in Hhold.
    pose proof (entry_le_ledger_total s pid a Hs). fold p in H. lia.
  - intros Hg. rewrite (Hnf Hg), Hg in Hhold. lia.
Qed.

Lemma chronological_clock t0 txs tx :
  chronological t0 (txs ++ [tx]) = true →
  chronological t0 txs = true ∧ clock t0 txs ≤ tx_time tx.
Proof.
  revert t0. induction txs as [|x txs IH]; intros t0; cbn [app chronological].
  - rewrite andb_true_r. intros H%Z.leb_le. done.
  - intros [Hx Hl]%andb_true_iff. destruct (IH _ Hl) as [-> Hle].
    rewrite Hx. done.
Qed.

(** * The claims *)

(** C2.  After any sequence of transactions, [currentAmount] of every pool
    is the sum of the values attached to the accepted [contribute] calls to
    that pool.  In particular a successful [claimRefund] sets the caller's
    ledger entry to zero and leaves [currentAmount] as it was. *)
Theorem currentAmount_is_total_contributed deployer txs pid :
  let s := run (deployed deployer) txs in
  currentAmount (poolAt pid s) = contributed pid None (deployed deployer) txs
  ∧ ∀ tx,
      tx_call tx = ClaimRefund pid → succeeds s tx = true →
      contributionOf (tx_from tx) (poolAt pid (transact s tx)) = 0
      ∧ currentAmount (poolAt pid (transact s tx))
        = currentAmount (poolAt pid s).
Proof.
  intros s.
  assert (sound s) as Hs by apply sound_run, sound_deployed.
  split.
  - unfold s. rewrite currentAmount_run by apply sound_deployed.
    reflexivity.
  - intros tx Hcall Hok. split.
    + rewrite contributionOf_transact, Hcall, Hok by done.
      by rewrite !bool_decide_eq_true_2.
    + rewrite currentAmount_transact by done.
      unfold attached_to. rewrite Hcall. lia.
Qed.

Lemma claimRefund_when_achieved call_value msg pid s :
  _status s = _NOT_ENTERED →
  initiator (poolAt pid s) ≠ 0 →
  goalAchieved (poolAt pid s) = true →
  claimRefund call_value msg pid s =
  Abort (if deadlineTimestamp (poolAt pid s) <=? timestamp msg
         then GoalWasAchieved else DeadlineNotReached)
        (set_status _ENTERED s).
Proof.
  intros Hst Hi Hg. unfold claimRefund. run_monad. rewrite Hst.
  cbn beta iota delta [negb Z.eqb _ENTERED _NOT_ENTERED Pos.eqb].
  on_require Hi'; [done|].
  on_branch Hd; [|done].
  autorewrite with storage. by rewrite Hg.
Qed.

Lemma goalAchieved_exists s pid :
  sound s → goalAchieved (poolAt pid s) = true → initiator (poolAt pid s) ≠ 0.
Proof.
  intros Hs Hg Hi. apply (sound_ghost s Hs) in Hi. congruence.
Qed.

Lemma failure_ClaimRefund_achieved s from now pid callee :
  _status s = _NOT_ENTERED →
  initiator (poolAt pid s) ≠ 0 →
  goalAchieved (poolAt pid s) = true →
  failure s (mkTx from now (ClaimRefund pid) callee)
  = Some (if deadlineTimestamp (poolAt pid s) <=? now
          then GoalWasAchieved else DeadlineNotReached).
Proof.
  intros Hst Hi Hg. unfold failure, execute, dispatch; simpl.
  cbv [mbind M_bind mret M_ret].
  by rewrite claimRefund_when_achieved.
Qed.

(** C1 (as amended).  On a pool whose [goalAchieved] flag is set every
    [claimRefund] is rejected and changes nothing.  The deadline is checked
    before the flag: the reason is [GoalWasAchieved] at or after
    [deadlineTimestamp] and [DeadlineNotReached] before it. *)
Theorem claimRefund_rejected_when_goal_achieved deployer txs pid tx :
  let s := run (deployed deployer) txs in
  goalAchieved (poolAt pid s) = true →
  tx_call tx = ClaimRefund pid →
  failure s tx
  = Some (if deadlineTimestamp (poolAt pid s) <=? tx_time tx
          then GoalWasAchieved else DeadlineNotReached)
  ∧ transact s tx = s.
Proof.
  intros s Hg Hcall.
  assert (sound s) as Hs by apply sound_run, sound_deployed.
  assert (_status s = _NOT_ENTERED) as Hst by by apply idle_run.
  destruct tx as [from now call callee]; simpl in Hcall; subst call.
  assert (failure s (mkTx from now (ClaimRefund pid) callee)
          = Some (if deadlineTimestamp (poolAt pid s) <=? now
                  then GoalWasAchieved else DeadlineNotReached)) as Hf
    by (apply failure_ClaimRefund_achieved; auto using goalAchieved_exists).
  split; [exact Hf|].
  apply transact_rejected. unfold failure in Hf. unfold succeeds.
  by destruct (execute _ s).
Qed.

Lemma claimRefund_rejected_when_goal_achieved_witness :
  let s := run (deployed 9) funded in
  let tx := mkTx 7 60 (ClaimRefund 1) plain in
  goalAchieved (poolAt 1 s) = true
  ∧ failure s tx = Some GoalWasAchieved
  ∧ transact s tx = s.
Proof.
  split; [reflexivity|].
  apply (claimRefund_rejected_when_goal_achieved 9 funded 1
           (mkTx 7 60 (ClaimRefund 1) plain)); reflexivity.
Defined.

(** C1 as stated fails before the deadline: pool 1 has reached its goal at
    time 12, and a refund claim at time 13, before the deadline 50, is
    rejected with [DeadlineNotReached], not with [GoalWasAchieved]. *)
Lemma claimRefund_goal_achieved_before_deadline :
  let s := run (deployed 9) funded in
  let tx := mkTx 7 13 (ClaimRefund 1) plain in
  goalAchieved (poolAt 1 s) = true
  ∧ tx_time tx < deadlineTimestamp (poolAt 1 s)
  ∧ failure s tx = Some DeadlineNotReached
  ∧ failure s tx ≠ Some GoalWasAchieved.
Proof. vm_compute. repeat split; congruence. Qed.

Lemma disburseFunds_early call_value msg pid s :
  _status s = _NOT_ENTERED →
  initiator (poolAt pid s) ≠ 0 →
  sender msg = initiator (poolAt pid s) ∨ sender msg = _owner s →
  goalAchieved (poolAt pid s) = true →
  fundsDisbursed (poolAt pid s) = false →
  timestamp msg < deadlineTimestamp (poolAt pid s) →
  disburseFunds call_value msg pid s
  = Abort DeadlineNotReached (set_status _ENTERED s).
Proof.
  intros Hst Hi Hauth Hg Hf Hd. unfold disburseFunds. run_monad. rewrite Hst.
  cbn beta iota delta [negb Z.eqb _ENTERED _NOT_ENTERED Pos.eqb].
  on_require Hi'; [done|].
  on_branch Ha.
  2:{ apply orb_false_iff in Ha as [H1%Z.eqb_neq H2%Z.eqb_neq].
      destruct Hauth; done. }
  autorewrite with storage. rewrite Hg. cbn beta iota.
  autorewrite with storage. rewrite Hf. cbn beta iota delta [negb].
  on_require Hd'; [lia | done].
Qed.

(** C7.  On a pool with [goalAchieved] set and [fundsDisbursed] clear, a
    [disburseFunds] call by the pool's initiator or by the contract owner
    made strictly before [deadlineTimestamp] is rejected with
    [DeadlineNotReached] and changes nothing. *)
Theorem disburseFunds_before_deadline deployer txs pid tx :
  let s := run (deployed deployer) txs in
  goalAchieved (poolAt pid s) = true →
  fundsDisbursed (poolAt pid s) = false →
  tx_call tx = DisburseFunds pid →
  tx_from tx = initiator (poolAt pid s) ∨ tx_from tx = _owner s →
  tx_time tx < deadlineTimestamp (poolAt pid s) →
  failure s tx = Some DeadlineNotReached ∧ transact s tx = s.
Proof.
  intros s Hg Hf Hcall Hauth Hd.
  assert (sound s) as Hs by apply sound_run, sound_deployed.
  assert (_status s = _NOT_ENTERED) as Hst by by apply idle_run.
  destruct tx as [from now call callee]; simpl in *; subst call.
  unfold failure, transact, execute, dispatch; simpl.
  cbv [mbind M_bind mret M_ret].
  rewrite disburseFunds_early; auto using goalAchieved_exists.
Qed.

Lemma disburseFunds_before_deadline_witness :
  let s := run (deployed 9) funded in
  let tx := mkTx 5 20 (DisburseFunds 1) plain in
  goalAchieved (poolAt 1 s) = true
  ∧ fundsDisbursed (poolAt 1 s) = false
  ∧ tx_from tx = initiator (poolAt 1 s)
  ∧ tx_time tx < deadlineTimestamp (poolAt 1 s)
  ∧ failure s tx = Some DeadlineNotReached
  ∧ transact s tx = s.
Proof.
  do 4 (split; [by vm_compute|]).
  apply (disburseFunds_before_deadline 9 funded 1
           (mkTx 5 20 (DisburseFunds 1) plain));
    first [by vm_compute | by left].
Defined.

Lemma disburseFunds_transfer_fails now callee msg pid s :
  _status s = _NOT_ENTERED →
  initiator (poolAt pid s) ≠ 0 →
  sender msg = initiator (poolAt pid s) ∨ sender msg = _owner s →
  goalAchieved (poolAt pid s) = true →
  fundsDisbursed (poolAt pid s) = false →
  deadlineTimestamp (poolAt pid s) ≤ timestamp msg →
  accepts callee = false ∨ balance s < currentAmount (poolAt pid s) →
  disburseFunds (external_call now callee) msg pid s
  = Abort DisburseTransferFailed (disbursing pid s).
Proof.
  intros Hst Hi Hauth Hg Hf Hd Hfail.
  assert ((currentAmount (poolAt pid s) <=? balance s) && accepts callee
          = false) as Hacc.
  { destruct Hfail as [-> | Hshort]; [apply andb_false_r|].
    by rewrite (proj2 (Z.leb_gt _ _)) by done. }
  unfold disburseFunds. run_monad.
  rewrite Hst.
  cbn beta iota delta [negb Z.eqb _ENTERED _NOT_ENTERED Pos.eqb].
  on_require Hi'; [done|].
  on_branch Ha.
  2:{ apply orb_false_iff in Ha as [H1%Z.eqb_neq H2%Z.eqb_neq].
      destruct Hauth; done. }
  autorewrite with storage. rewrite Hg. cbn beta iota.
  autorewrite with storage. rewrite Hf. cbn beta iota delta [negb].
  on_require Hd'; [|lia].
  rewrite external_call_eq. autorewrite with storage; fields.
  rewrite Hacc. reflexivity.
Qed.

Lemma claimRefund_transfer_fails now callee msg pid s :
  _status s = _NOT_ENTERED →
  initiator (poolAt pid s) ≠ 0 →
  deadlineTimestamp (poolAt pid s) ≤ timestamp msg →
  goalAchieved (poolAt pid s) = false →
  0 < contributionOf (sender msg) (poolAt pid s) →
  accepts callee = false
  ∨ balance s < contributionOf (sender msg) (poolAt pid s) →
  claimRefund (external_call now callee) msg pid s
  = Abort RefundTransferFailed (refunding (sender msg) pid s).
Proof.
  intros Hst Hi Hd Hg Hc Hfail.
  assert ((contributionOf (sender msg) (poolAt pid s) <=? balance s)
          && accepts callee = false) as Hacc.
  { destruct Hfail as [-> | Hshort]; [apply andb_false_r|].
    by rewrite (proj2 (Z.leb_gt _ _)) by done. }
  unfold claimRefund. run_monad.
  rewrite Hst.
  cbn beta iota delta [negb Z.eqb _ENTERED _NOT_ENTERED Pos.eqb].
  on_require Hi'; [done|].
  on_require Hd'; [|lia].
  autorewrite with storage. rewrite Hg. cbn beta iota delta [negb].
  on_require Hc'; [|lia].
  rewrite external_call_eq. autorewrite with storage; fields.
  rewrite Hacc. reflexivity.
Qed.

(** C5.  When every precondition of [disburseFunds] (of [claimRefund]) holds
    and the transfer fails, because the recipient does not accept the value
    or because the contract holds less than it has to send, the call aborts
    with the transfer-failure reason.  At the abort the flag [fundsDisbursed] had been
    set (the caller's ledger entry had been zeroed); the transaction leaves
    storage exactly as it found it, so the flag is clear again (the entry has
    its prior value). *)
Theorem failed_transfer_reverts_everything :
  (∀ s from now pid callee,
     let tx := mkTx from now (DisburseFunds pid) callee in
     _status s = _NOT_ENTERED →
     initiator (poolAt pid s) ≠ 0 →
     from = initiator (poolAt pid s) ∨ from = _owner s →
     goalAchieved (poolAt pid s) = true →
     fundsDisbursed (poolAt pid s) = false →
     deadlineTimestamp (poolAt pid s) ≤ now →
     accepts callee = false ∨ balance s < currentAmount (poolAt pid s) →
     execute tx s = Abort DisburseTransferFailed (disbursing pid s)
     ∧ fundsDisbursed (poolAt pid (disbursing pid s)) = true
     ∧ transact s tx = s
     ∧ fundsDisbursed (poolAt pid (transact s tx)) = false)
  ∧
  (∀ s from now pid callee,
     let tx := mkTx from now (ClaimRefund pid) callee in
     _status s = _NOT_ENTERED →
     initiator (poolAt pid s) ≠ 0 →
     deadlineTimestamp (poolAt pid s) ≤ now →
     goalAchieved (poolAt pid s) = false →
     0 < contributionOf from (poolAt pid s) →
     accepts callee = false ∨ balance s < contributionOf from (poolAt pid s) →
     execute tx s = Abort RefundTransferFailed (refunding from pid s)
     ∧ contributionOf from (poolAt pid (refunding from pid s)) = 0
     ∧ transact s tx = s
     ∧ contributionOf from (poolAt pid (transact s tx))
       = contributionOf from (poolAt pid s)).
Proof.
  split.
  - intros s from now pid callee tx Hst Hi Hauth Hg Hf Hd Hacc.
    assert (execute tx s = Abort DisburseTransferFailed (disbursing pid s))
      as He.
    { unfold tx, execute, dispatch; simpl. cbv [mbind M_bind mret M_ret].
      by rewrite disburseFunds_transfer_fails. }
    assert (transact s tx = s) as Ht by (unfold transact; by rewrite He).
    repeat split; [done | | done | by rewrite Ht].
    unfold disbursing. by rewrite poolAt_set_pool_eq.
  - intros s from now pid callee tx Hst Hi Hd Hg Hc Hacc.
    assert (execute tx s = Abort RefundTransferFailed (refunding from pid s))
      as He.
    { unfold tx, execute, dispatch; simpl. cbv [mbind M_bind mret M_ret].
      by rewrite claimRefund_transfer_fails. }
    assert (transact s tx = s) as Ht by (unfold transact; by rewrite He).
    repeat split; [done | | done | by rewrite Ht].
    unfold refunding. by rewrite poolAt_set_pool_eq, contributionOf_set_eq.
Qed.

Lemma failed_transfer_reverts_everything_witness :
  (let s := run (deployed 9) funded in
   let tx := mkTx 5 60 (DisburseFunds 1) refusing in
   execute tx s = Abort DisburseTransferFailed (disbursing 1 s)
   ∧ fundsDisbursed (poolAt 1 (transact s tx)) = false)
  ∧
  (let s := run (deployed 9) huge in
   let tx := mkTx 7 60 (ClaimRefund 1) refusing in
   execute tx s = Abort RefundTransferFailed (refunding 7 1 s)
   ∧ contributionOf 7 (poolAt 1 s) = 1
   ∧ contributionOf 7 (poolAt 1 (transact s tx))
     = contributionOf 7 (poolAt 1 s))
  ∧
  (let s := run (deployed 9) refilled in
   let tx := mkTx 5 60 (DisburseFunds 1) plain in
   balance s < currentAmount (poolAt 1 s)
   ∧ execute tx s = Abort DisburseTransferFailed (disbursing 1 s)
   ∧ transact s tx = s).
Proof.
  split; [|split].
  - intros s tx.
    destruct (proj1 failed_transfer_reverts_everything s 5 60 1 refusing)
      as (He & _ & _ & Hf);
      [by vm_compute | by vm_compute | by left | by vm_compute
      | by vm_compute | by vm_compute | by left |].
    split; [exact He | exact Hf].
  - intros s tx.
    destruct (proj2 failed_transfer_reverts_everything s 7 60 1 refusing)
      as (He & _ & _ & Hc);
      [by vm_compute | by vm_compute | by vm_compute | by vm_compute
      | by vm_compute | by left |].
    split; [exact He|]. split; [vm_compute; reflexivity | exact Hc].
  - intros s tx.
    assert (balance s < currentAmount (poolAt 1 s)) as Hshort
      by (vm_compute; reflexivity).
    destruct (proj1 failed_transfer_reverts_everything s 5 60 1 plain)
      as (He & _ & Ht & _);
      [ vm_compute; reflexivity | vm_compute; discriminate | by left
      | vm_compute; reflexivity | vm_compute; reflexivity
      | vm_compute; discriminate | right; exact Hshort |].
    split; [exact Hshort|]. split; [exact He | exact Ht].
Defined.

(** C3.  A [contribute] call with value [v > 0] on an existing pool whose
    goal is not yet achieved, made strictly before the deadline, is
    accepted; [v] is added to the caller's ledger entry and to
    [currentAmount]; and [goalAchieved] is set by that call exactly when the
    new [currentAmount] reaches [goalAmount], so a contribution that stops
    one unit short leaves it clear.

    The call is one a chain delivers: block timestamps do not go back, and
    the value can be sent, so the contract's balance with [v] added is a
    [uint256].  The checked additions of [contribute] then cannot overflow,
    because everything paid into an open pool is still in the balance. *)
Theorem contribute_accepted deployer t0 txs pid from now v callee :
  let s := run (deployed deployer) txs in
  let p := poolAt pid s in
  let tx := mkTx from now (Contribute pid v) callee in
  let p' := poolAt pid (transact s tx) in
  chronological t0 (txs ++ [tx]) = true →
  sendable s tx →
  initiator p ≠ 0 →
  goalAchieved p = false →
  now < deadlineTimestamp p →
  0 < v →
  succeeds s tx = true
  ∧ contributionOf from p' = contributionOf from p + v
  ∧ currentAmount p' = currentAmount p + v
  ∧ (goalAchieved p' = true ↔ goalAmount p' ≤ currentAmount p')
  ∧ (currentAmount p' = goalAmount p' - 1 → goalAchieved p' = false)
  ∧ currentAmount p ≤ balance s
  ∧ balance (transact s tx) = balance s + v.
Proof.
  intros s p tx p' Hc Hsend Hi Hg Hd Hv.
  assert (sound s) as Hs by apply sound_run, sound_deployed.
  assert (_status s = _NOT_ENTERED) as Hst by by apply idle_run.
  pose proof (sound_ledger s Hs pid from) as Hl. fold p in Hl.
  apply chronological_clock in Hc as [Hc Hclock].
  cbn [tx_time tx] in Hclock.
  destruct (enough_ether deployer t0 txs pid Hc) as (Hb & _ & _ & Hopen).
  fold s p in Hb, Hopen. specialize (Hopen Hg).
  assert (currentAmount p ≤ balance s) as Hheld.
  { destruct Hb as [_ B2 _ _ _ B6]. fold p in B2, B6.
    destruct (decide (logged (refund_logged pid) (events s) = 0)) as [Hz|Hnz];
      [lia|]. destruct (B6 Hnz). lia. }
  assert (currentAmount p + v ≤ MAX_UINT256) as Hfit.
  { unfold sendable in Hsend. cbn [tx_call tx] in Hsend. lia. }
  assert (execute tx s
          = Done None (after_contribute (mkMsg from v now) pid s)) as He.
  { apply execute_Contribute. unfold p in *. rewrite Hst.
    repeat split; first [done | lia]. }
  assert (p' = pool_after_contribute from v p) as Hp'.
  { unfold p', transact. rewrite He, poolAt_after_contribute.
    by rewrite decide_True. }
  assert (goalAchieved p' = true ↔ goalAmount p' ≤ currentAmount p') as Hiff.
  { rewrite Hp'. simpl. apply Z.leb_le. }
  split; [unfold succeeds; by rewrite He|].
  split; [rewrite Hp', contributionOf_after_contribute;
          by rewrite decide_True|].
  split; [by rewrite Hp'|]. split; [exact Hiff|].
  split.
  { intros Hshort. apply not_true_is_false. intros Hf.
    apply Hiff in Hf. lia. }
  split; [exact Hheld|].
  unfold transact. by rewrite He.
Qed.

Lemma contribute_accepted_witness :
  let s := run (deployed 9) (take 2 funded) in
  let tx := mkTx 8 12 (Contribute 1 60) plain in
  (chronological 0 (take 2 funded ++ [tx]) = true
   ∧ balance s + 60 ≤ MAX_UINT256
   ∧ initiator (poolAt 1 s) ≠ 0
   ∧ goalAchieved (poolAt 1 s) = false
   ∧ 12 < deadlineTimestamp (poolAt 1 s))
  ∧ succeeds s tx = true
  ∧ contributionOf 8 (poolAt 1 (transact s tx))
    = contributionOf 8 (poolAt 1 s) + 60
  ∧ currentAmount (poolAt 1 (transact s tx))
    = currentAmount (poolAt 1 s) + 60
  ∧ goalAchieved (poolAt 1 (transact s tx)) = true.
Proof.
  intros s tx.
  assert (chronological 0 (take 2 funded ++ [tx]) = true) as H0
    by (vm_compute; reflexivity).
  assert (balance s = 40) as Hbal by (vm_compute; reflexivity).
  assert (sendable s tx) as Hsend.
  { unfold sendable. cbn [tx_call tx]. rewrite Hbal. unfold MAX_UINT256. lia. }
  assert (initiator (poolAt 1 s) ≠ 0) as H1 by (vm_compute; discriminate).
  assert (goalAchieved (poolAt 1 s) = false) as H2
    by (vm_compute; reflexivity).
  assert (deadlineTimestamp (poolAt 1 s) = 50) as Hdl
    by (vm_compute; reflexivity).
  assert (12 < deadlineTimestamp (poolAt 1 s)) as H3 by (rewrite Hdl; lia).
  assert (0 < 60) as H4 by lia.
  destruct (contribute_accepted 9 0 (take 2 funded) 1 8 12 60 plain
              H0 Hsend H1 H2 H3 H4) as (Hok & Hc & Ha & Hg & _).
  split.
  { split; [exact H0|]. split; [exact Hsend|]. split; [exact H1|].
    split; [exact H2 | exact H3]. }
  split; [exact Hok|]. split; [exact Hc|]. split; [exact Ha|].
  apply Hg. vm_compute. discriminate.
Defined.

(** C4.  Along any history whose block timestamps do not go back, every
    address is listed at most once in [contributors] of every pool.  An
    address that is listed with a zero ledger entry (it was refunded) is
    found only once the deadline has passed, and from then on each of its
    [contribute] calls to that pool is rejected, so it is never appended a
    second time. *)
Theorem contributors_listed_once deployer t0 txs pid :
  chronological t0 txs = true →
  let s := run (deployed deployer) txs in
  let p := poolAt pid s in
  NoDup (contributors p)
  ∧ ∀ a, a ∈ contributors p → contributionOf a p = 0 →
      deadlineTimestamp p ≤ clock t0 txs
      ∧ ∀ now v callee,
          clock t0 txs ≤ now →
          succeeds s (mkTx a now (Contribute pid v) callee) = false.
Proof.
  intros Hc s p.
  assert (orderly (clock t0 txs) s) as Ho
    by (apply orderly_run; [apply sound_deployed | apply orderly_deployed | done]).
  split; [apply (orderly_nodup _ s Ho)|].
  intros a Hin Hz.
  pose proof (orderly_late _ s Ho pid a Hin Hz) as Hlate.
  split; [done|].
  intros now v callee Hnow. unfold succeeds.
  destruct (execute _ s) as [r s'|f dirty] eqn:He; [|done].
  apply execute_Contribute in He as (_ & _ & Hd & _).
  unfold p in *. lia.
Qed.

Lemma contributors_listed_once_witness :
  chronological 0 expired = true
  ∧ NoDup (contributors (poolAt 1 (run (deployed 9) expired))).
Proof.
  assert (chronological 0 expired = true) as Hc by by vm_compute.
  split; [exact Hc|].
  exact (proj1 (contributors_listed_once 9 0 expired 1 Hc)).
Defined.

Lemma createPool_zero_beneficiary msg d g t s :
  createPool msg 0 d g t s = Abort InvalidBeneficiary s.
Proof. reflexivity. Qed.

Lemma created_count s :
  sound s →
  Z.of_nat (length (createdIds (events s))) = _poolIdCounter s - 1.
Proof.
  intros Hs. rewrite (sound_created s Hs), length_seqZ.
  pose proof (sound_counter s Hs). lia.
Qed.

(** Each accepted [createPool], also one made by a recipient that calls
    back, logs the id it returns. *)
Lemma nested_created now s rc :
  _status s = _ENTERED →
  createdIds (events (nested now s rc))
  = createdIds (events s) ++ call_ids (λ _ _, mret false) rc.1 now rc.2 s.
Proof.
  intros Hst. unfold nested, call_ids, dispatch.
  destruct rc as [from [b d g t|pid v|pid|pid|w|]]; cbn [fst snd];
    cbv [mbind M_bind mret M_ret pay modify].
  - destruct (createPool _ b d g t s) as [id s'|f dirty] eqn:Hc;
      [|by rewrite app_nil_r].
    apply createPool_Done in Hc as (_ & _ & _ & _ & -> & ->).
    by rewrite events_after_createPool, createdIds_app.
  - unfold contribute. rewrite nonReentrant_entered by done.
    by rewrite app_nil_r.
  - unfold disburseFunds. rewrite nonReentrant_entered by done.
    by rewrite app_nil_r.
  - unfold claimRefund. rewrite nonReentrant_entered by done.
    by rewrite app_nil_r.
  - destruct (transferOwnership _ w s) as [r s'|f dirty] eqn:Hc;
      rewrite app_nil_r; [|done].
    apply transferOwnership_Done in Hc as (_ & _ & ->).
    rewrite events_after_transferOwnership, createdIds_app. simpl.
    by rewrite app_nil_r.
  - destruct (renounceOwnership _ s) as [r s'|f dirty] eqn:Hc;
      rewrite app_nil_r; [|done].
    apply renounceOwnership_Done in Hc as (_ & ->).
    rewrite events_after_transferOwnership, createdIds_app. simpl.
    by rewrite app_nil_r.
Qed.

Lemma after_calls_created now rcs s :
  _status s = _ENTERED →
  createdIds (events (after_calls now rcs s))
  = createdIds (events s) ++ nested_ids now rcs s.
Proof.
  revert s. induction rcs as [|rc rcs IH]; intros s Hst.
  { simpl. by rewrite app_nil_r. }
  change (after_calls now (rc :: rcs) s)
    with (after_calls now rcs (nested now s rc)).
  cbn [nested_ids].
  rewrite (IH (nested now s rc)) by by apply status_nested.
  rewrite nested_created by done. by rewrite app_assoc.
Qed.

Lemma transact_created s tx :
  createdIds (events (transact s tx))
  = createdIds (events s) ++ tx_ids s tx.
Proof.
  unfold transact, tx_ids.
  destruct tx as [from now [b d g t|pid v|pid|pid|w|] callee];
    destruct (execute _ s) as [r s'|f dirty] eqn:He;
    cbn [tx_call tx_time tx_callee tx_from];
    rewrite ?app_nil_r; try done.
  - apply execute_CreatePool in He as (_ & _ & _ & _ & -> & ->).
    by rewrite events_after_createPool, createdIds_app.
  - apply execute_Contribute in He as (_ & _ & _ & _ & _ & _ & _ & -> & ->).
    by rewrite createdIds_after_contribute, ?app_nil_r.
  - apply execute_DisburseFunds in He as (_ & _ & _ & _ & _ & _ & _ & -> & ->).
    pose proof (after_calls_created now (reentrant callee)
                  (debit (currentAmount (poolAt pid s)) (disbursing pid s))
                  eq_refl) as Hc.
    rewrite after_calls_debit in Hc by done.
    unfold after_disburseFunds. cbn [events set_status log_event].
    rewrite createdIds_app. simpl. rewrite ?app_nil_r. exact Hc.
  - apply execute_ClaimRefund in He as (_ & _ & _ & _ & _ & _ & -> & ->).
    pose proof (after_calls_created now (reentrant callee)
                  (debit (contributionOf from (poolAt pid s))
                     (refunding from pid s)) eq_refl) as Hc.
    rewrite after_calls_debit in Hc by done.
    unfold after_claimRefund. cbn [events set_status log_event].
    rewrite createdIds_app. simpl. rewrite ?app_nil_r. exact Hc.
  - apply execute_TransferOwnership in He as ->.
    rewrite events_after_transferOwnership, createdIds_app. simpl.
    by rewrite ?app_nil_r.
  - apply execute_RenounceOwnership in He as ->.
    rewrite events_after_transferOwnership, createdIds_app. simpl.
    by rewrite ?app_nil_r.
Qed.

Lemma run_created s txs :
  createdIds (events (run s txs))
  = createdIds (events s) ++ returned_ids s txs.
Proof.
  revert s. induction txs as [|tx txs IH]; intros s.
  { simpl. by rewrite app_nil_r. }
  change (run s (tx :: txs)) with (run (transact s tx) txs).
  cbn [returned_ids]. by rewrite IH, transact_created, app_assoc.
Qed.

Lemma returned_ids_app s txs more :
  returned_ids s (txs ++ more)
  = returned_ids s txs ++ returned_ids (run s txs) more.
Proof.
  revert s. induction txs as [|tx txs IH]; intros s; [done|].
  cbn [app returned_ids].
  change (run s (tx :: txs)) with (run (transact s tx) txs).
  by rewrite IH, app_assoc.
Qed.

(** C6.  The N-th accepted [createPool] call returns N: the ids returned by
    the accepted [createPool] calls of any history (those a recipient makes
    while it is paid included) are [1, 2, ..., n] in the order of the calls,
    the counter is then [n + 1], and the log lists the same ids.  After
    such a history a [createPool] call with a non-zero beneficiary, a
    positive goal and a deadline in the future is accepted and returns
    [n + 1], as long as the counter has not reached the largest [uint256];
    whenever a [createPool] is accepted it returns [n + 1].  A rejected
    [createPool] leaves storage as it was, counter included, and one with a
    zero beneficiary is rejected with [InvalidBeneficiary]. *)
Theorem pool_ids_are_consecutive deployer txs :
  let g := deployed deployer in
  let s := run g txs in
  let n := Z.of_nat (length (returned_ids g txs)) in
  (∀ s0 msg b d g t id s1,
     createPool msg b d g t s0 = Done id s1 →
     id = _poolIdCounter s0
     ∧ events s1 = events s0 ++ [PoolCreated id (sender msg) b d g t]
     ∧ _poolIdCounter s1 = id + 1)
  ∧ _poolIdCounter g = 1
  ∧ returned_ids g txs = seqZ 1 n
  ∧ createdIds (events s) = seqZ 1 n
  ∧ _poolIdCounter s = n + 1
  ∧ (∀ from now b d g t callee,
       let tx := mkTx from now (CreatePool b d g t) callee in
       b ≠ 0 → 0 < g → now < t → n + 1 < MAX_UINT256 →
       execute tx s
       = Done (Some (n + 1)) (after_createPool (mkMsg from 0 now) b d g t s)
       ∧ succeeds s tx = true
       ∧ returned_ids (deployed deployer) (txs ++ [tx]) = seqZ 1 (n + 1)
       ∧ _poolIdCounter (transact s tx) = n + 2)
  ∧ (∀ from now b d g t callee r s',
       execute (mkTx from now (CreatePool b d g t) callee) s = Done r s' →
       r = Some (n + 1)
       ∧ createdIds (events s') = seqZ 1 (n + 1)
       ∧ initiator (poolAt (n + 1) s') = from)
  ∧ (∀ from now b d g t callee,
       let tx := mkTx from now (CreatePool b d g t) callee in
       succeeds s tx = false → transact s tx = s)
  ∧ (∀ from now d g t callee,
       let tx := mkTx from now (CreatePool 0 d g t) callee in
       failure s tx = Some InvalidBeneficiary
       ∧ transact s tx = s
       ∧ _poolIdCounter (transact s tx) = _poolIdCounter s).
Proof.
  intros g s n.
  assert (sound s) as Hs by apply sound_run, sound_deployed.
  assert (createdIds (events s) = returned_ids g txs) as Hret
    by (unfold s; by rewrite run_created).
  assert (n = _poolIdCounter s - 1) as Hn.
  { unfold n. rewrite <- Hret. by apply created_count. }
  assert (createdIds (events s) = seqZ 1 n) as Hlog.
  { rewrite Hn. apply (sound_created s Hs). }
  split; [|split; [|split; [|split; [|split; [|split; [|split; [|split]]]]]]].
  - intros s0 msg b d g0 t id s1 (_ & _ & _ & _ & -> & ->)%createPool_Done.
    done.
  - reflexivity.
  - by rewrite <- Hret.
  - exact Hlog.
  - lia.
  - intros from now b d g0 t callee tx Hb Hg Ht Hfree.
    assert (execute tx s
            = Done (Some (n + 1))
                (after_createPool (mkMsg from 0 now) b d g0 t s)) as He.
    { apply execute_CreatePool. repeat split; try done; try lia.
      f_equal. lia. }
    split; [exact He|]. split; [unfold succeeds; by rewrite He|].
    split.
    + rewrite returned_ids_app. fold g s. rewrite <- Hret, Hlog.
      cbn [returned_ids]. unfold tx_ids. rewrite He. cbn [tx_call tx].
      rewrite app_nil_r.
      rewrite (seqZ_app 1 n 1) by lia. by rewrite Z.add_comm.
    + unfold transact. rewrite He. simpl. lia.
  - intros from now b d g0 t callee r s'
      (_ & _ & _ & _ & -> & ->)%execute_CreatePool.
    assert (sound (after_createPool (mkMsg from 0 now) b d g0 t s)) as Hs'
      by by apply sound_after_createPool.
    split; [f_equal; lia|]. split.
    + rewrite (sound_created _ Hs'). simpl. f_equal. lia.
    + replace (n + 1) with (_poolIdCounter s) by lia.
      unfold poolAt, after_createPool; simpl. by rewrite lookup_insert_eq.
  - intros from now b d g0 t callee tx. apply transact_rejected.
  - intros from now d g0 t callee tx.
    assert (execute tx s = Abort InvalidBeneficiary s) as He by reflexivity.
    unfold failure, transact. by rewrite He.
Qed.

(** Three pools: the first call returns 1, the rejected call returns
    nothing, the recipient of the payout is given 2, and the last call
    returns 3; a valid call made next returns 4. *)
Lemma pool_ids_are_consecutive_witness :
  let s := run (deployed 9) three_pools in
  let tx := mkTx 5 70 (CreatePool 6 "more" 10 80) plain in
  returned_ids (deployed 9) three_pools = [1; 2; 3]
  ∧ failure (run (deployed 9) (take 1 three_pools))
      (mkTx 5 10 (CreatePool 0 "void" 100 50) plain)
    = Some InvalidBeneficiary
  ∧ execute tx s
    = Done (Some 4) (after_createPool (mkMsg 5 0 70) 6 "more" 10 80 s)
  ∧ returned_ids (deployed 9) (three_pools ++ [tx]) = [1; 2; 3; 4].
Proof.
  intros s tx.
  destruct (pool_ids_are_consecutive 9 three_pools)
    as (_ & _ & Hids & _ & _ & Hnext & _ & _ & _).
  destruct (pool_ids_are_consecutive 9 (take 1 three_pools))
    as (_ & _ & _ & _ & _ & _ & _ & _ & Hzero).
  assert (length (returned_ids (deployed 9) three_pools) = 3%nat) as Hlen
    by (vm_compute; reflexivity).
  rewrite Hlen in Hids, Hnext.
  split; [exact Hids|].
  split; [exact (proj1 (Hzero 5 10 "void"%string 100 50 plain))|].
  destruct (Hnext 5 70 6 "more"%string 10 80 plain) as (He & _ & Hall & _);
    [lia | lia | lia | unfold MAX_UINT256; lia |].
  split; [exact He | exact Hall].
Defined.

(** C9.  A successful [claimRefund] sets the caller's own ledger entry to
    zero and changes nothing else of what was there: the pool's initiator,
    beneficiary, description, goal, [currentAmount], deadline and both flags
    are as before, the contributors list is as before (the caller is still
    on it), every other ledger entry of the pool is as before, and so is
    every other pool.  (A recipient that calls back can open new pools; they
    get ids that were not in use.) *)
Theorem claimRefund_frame deployer txs from now pid callee :
  let s := run (deployed deployer) txs in
  let tx := mkTx from now (ClaimRefund pid) callee in
  let s' := transact s tx in
  let p := poolAt pid s in
  let p' := poolAt pid s' in
  succeeds s tx = true →
  contributionOf from p' = 0
  ∧ initiator p' = initiator p
  ∧ beneficiary p' = beneficiary p
  ∧ description p' = description p
  ∧ goalAmount p' = goalAmount p
  ∧ currentAmount p' = currentAmount p
  ∧ deadlineTimestamp p' = deadlineTimestamp p
  ∧ goalAchieved p' = goalAchieved p
  ∧ fundsDisbursed p' = fundsDisbursed p
  ∧ contributors p' = contributors p
  ∧ from ∈ contributors p'
  ∧ (∀ a, a ≠ from → contributionOf a p' = contributionOf a p)
  ∧ (∀ other, other ≠ pid → other < _poolIdCounter s →
       poolAt other s' = poolAt other s)
  ∧ (∀ other, other ≠ pid → reentrant callee = [] →
       poolAt other s' = poolAt other s).
Proof.
  intros s tx s' p p' Hok.
  assert (sound s) as Hs by apply sound_run, sound_deployed.
  unfold succeeds in Hok.
  destruct (execute tx s) as [r s1|f dirty] eqn:He; [clear Hok|done].
  assert (s' = s1) as Hs' by (unfold s', transact; by rewrite He).
  apply execute_ClaimRefund in He as (_ & Hi & _ & _ & Hpos & _ & _ & ->).
  assert (1 ≤ pid < _poolIdCounter s) as Hpid
    by by apply (sound_fresh s Hs), poolAt_exists.
  destruct (after_calls_frame now (reentrant callee) (refunding from pid s))
    as (_ & _ & Hf); [done | by apply sound_refunding |].
  assert (∀ k, k < _poolIdCounter s →
            poolAt k s' = poolAt k (refunding from pid s)) as Hsame.
  { intros k Hk. rewrite Hs', poolAt_after_claimRefund.
    by apply (Hf k). }
  assert (p' = set_contribution from 0 p) as Hp'.
  { unfold p'. rewrite Hsame by lia. rewrite poolAt_refunding.
    by rewrite decide_True. }
  assert (from ∈ contributors p) as Hin.
  { apply (sound_listed s Hs pid). lia. }
  rewrite Hp'. simpl.
  repeat split; try done.
  - apply contributionOf_set_eq.
  - intros a Ha. by apply contributionOf_set_ne.
  - intros other Hne Hlt. rewrite Hsame by done.
    rewrite poolAt_refunding. by rewrite decide_False.
  - intros other Hne Hnil. rewrite Hs', poolAt_after_claimRefund, Hnil.
    simpl. rewrite poolAt_refunding. by rewrite decide_False.
Qed.

Lemma claimRefund_frame_witness :
  let s := run (deployed 9) (take 4 expired) in
  let tx := mkTx 7 60 (ClaimRefund 1) busy in
  succeeds s tx = true
  ∧ contributionOf 7 (poolAt 1 (transact s tx)) = 0
  ∧ currentAmount (poolAt 1 (transact s tx)) = currentAmount (poolAt 1 s)
  ∧ contributors (poolAt 1 (transact s tx)) = contributors (poolAt 1 s).
Proof.
  intros s tx.
  assert (succeeds s tx = true) as Hok by by vm_compute.
  destruct (claimRefund_frame 9 (take 4 expired) 7 60 1 busy Hok)
    as (Hz & _ & _ & _ & _ & Hc & _ & _ & _ & Hl & _).
  split; [exact Hok|]. split; [exact Hz|]. split; [exact Hc | exact Hl].
Defined.

(** ** Ledger entries along a history *)

Lemma attached_to_nonneg pid who s tx : 0 ≤ attached_to pid who s tx.
Proof.
  unfold attached_to, succeeds.
  destruct tx as [from now [b d g t|p v|p|p|w|] callee]; simpl; try lia.
  destruct (execute _ s) as [r s'|f dirty] eqn:He; simpl; [|lia].
  apply execute_Contribute in He as (_ & _ & _ & _ & Hv & _).
  destruct (_ && _); lia.
Qed.

Lemma contributionOf_run_le pid a s txs :
  sound s →
  contributionOf a (poolAt pid (run s txs))
  ≤ contributionOf a (poolAt pid s) + contributed pid (Some a) s txs.
Proof.
  revert s. induction txs as [|tx txs IH]; intros s Hs.
  { cbn [run fold_left contributed]. lia. }
  change (run s (tx :: txs)) with (run (transact s tx) txs).
  cbn [contributed].
  specialize (IH (transact s tx) (sound_transact s tx Hs)).
  pose proof (contributionOf_transact pid a s tx Hs) as Htx.
  pose proof (sound_ledger s Hs pid a) as Hpos.
  pose proof (attached_to_nonneg pid (Some a) s tx) as Hatt.
  assert (contributionOf a (poolAt pid (transact s tx))
          ≤ contributionOf a (poolAt pid s) + attached_to pid (Some a) s tx).
  { rewrite Htx. destruct (tx_call tx); try lia.
    destruct (_ && _); lia. }
  lia.
Qed.

(** The terms of a pool that exists are never rewritten, and ids are never
    taken back. *)
Lemma terms_transact pid s tx :
  sound s → pid < _poolIdCounter s →
  pid < _poolIdCounter (transact s tx)
  ∧ initiator (poolAt pid (transact s tx)) = initiator (poolAt pid s)
  ∧ deadlineTimestamp (poolAt pid (transact s tx))
    = deadlineTimestamp (poolAt pid s).
Proof.
  intros Hs Hlt. unfold transact.
  destruct tx as [from now [b d g t|p v|p|p|w|] callee];
    destruct (execute _ s) as [r s'|f dirty] eqn:He; try done.
  - apply execute_CreatePool in He as (_ & _ & _ & _ & _ & ->).
    destruct (after_createPool_frame (mkMsg from 0 now) b d g t s pid Hs)
      as (Hsame & _).
    rewrite Hsame by lia. simpl. split; [lia | done].
  - apply execute_Contribute in He as (_ & _ & _ & _ & _ & _ & _ & _ & ->).
    rewrite poolAt_after_contribute. by case_decide.
  - apply execute_DisburseFunds in He as (_ & Hi & _ & _ & _ & _ & _ & _ & ->).
    rewrite poolAt_after_disburseFunds.
    destruct (after_calls_frame now (reentrant callee) (disbursing p s))
      as (_ & Hc & Hf); [done | by apply sound_disbursing |].
    destruct (Hf pid) as (Hsame & _).
    rewrite Hsame by done. rewrite poolAt_disbursing.
    split; [simpl in *; lia | by case_decide].
  - apply execute_ClaimRefund in He as (_ & Hi & _ & _ & _ & _ & _ & ->).
    rewrite poolAt_after_claimRefund.
    destruct (after_calls_frame now (reentrant callee) (refunding from p s))
      as (_ & Hc & Hf); [done | by apply sound_refunding |].
    destruct (Hf pid) as (Hsame & _).
    rewrite Hsame by done. rewrite poolAt_refunding.
    split; [simpl in *; lia | by case_decide].
  - by apply execute_TransferOwnership in He as ->.
  - by apply execute_RenounceOwnership in He as ->.
Qed.

(** Once the deadline of a pool has passed it takes no contribution. *)
Lemma contributed_after_deadline pid who t s txs :
  sound s → pid < _poolIdCounter s →
  deadlineTimestamp (poolAt pid s) ≤ t →
  chronological t txs = true →
  contributed pid who s txs = 0.
Proof.
  revert t s. induction txs as [|tx txs IH]; intros t s Hs Hlt Hd Hc; [done|].
  cbn [chronological] in Hc. apply andb_true_iff in Hc as [Ht%Z.leb_le Hc].
  destruct (terms_transact pid s tx Hs Hlt) as (Hlt' & _ & Hd').
  cbn [contributed].
  rewrite (IH (tx_time tx) (transact s tx));
    [ | by apply sound_transact | done | lia | done].
  assert (attached_to pid who s tx = 0) as ->; [|done].
  unfold attached_to, succeeds.
  destruct tx as [from now [b d g tt|p v|p|p|w|] callee]; simpl in *; try done.
  destruct (execute _ s) as [r s'|f dirty] eqn:He; simpl; [|done].
  apply execute_Contribute in He as (_ & _ & Hnow & _).
  case_bool_decide; [subst; lia | done].
Qed.

Lemma getContribution_eq pid a s :
  getContribution pid a s =
  if initiator (poolAt pid s) =? 0 then Abort PoolNotFound s
  else Done (contributionOf a (poolAt pid s)) s.
Proof.
  unfold getContribution. run_monad. by destruct (_ =? 0).
Qed.


(** C10.  After any sequence of transactions whose callers are not the zero
    address: [getContribution] fails only with [PoolNotFound] and only for
    an id that was never handed out; for every pool it returns the ledger
    entry, which is 0 for an address none of whose contributions to the pool
    was accepted, 0 right after the address's successful [claimRefund], and
    (when block timestamps do not go back) 0 ever after. *)
Theorem getContribution_never_fails_on_pools deployer txs pid a :
  forallb wf_tx txs = true →
  let g := deployed deployer in
  let s := run g txs in
  (∀ f dirty,
     getContribution pid a s = Abort f dirty →
     f = PoolNotFound ∧ ¬ (1 ≤ pid < _poolIdCounter s))
  ∧ (1 ≤ pid < _poolIdCounter s →
     getContribution pid a s = Done (contributionOf a (poolAt pid s)) s
     ∧ (contributed pid (Some a) g txs = 0 →
        getContribution pid a s = Done 0 s)
     ∧ (∀ now callee,
          let tx := mkTx a now (ClaimRefund pid) callee in
          succeeds s tx = true →
          getContribution pid a (transact s tx) = Done 0 (transact s tx))
     ∧ (∀ t0 before now callee later,
          let tx := mkTx a now (ClaimRefund pid) callee in
          txs = before ++ tx :: later →
          chronological t0 txs = true →
          succeeds (run g before) tx = true →
          getContribution pid a s = Done 0 s)).
Proof.
  intros Hwf g s.
  assert (∀ l, sound (run g l)) as Hsound
    by (intros l; apply sound_run, sound_deployed).
  pose proof (Hsound txs) as Hs. fold s in Hs.
  assert (populated s) as Hpop
    by (apply populated_run; [apply populated_deployed | done]).
  split.
  - intros f dirty. rewrite getContribution_eq.
    destruct (Z.eqb_spec (initiator (poolAt pid s)) 0) as [Hz | Hnz];
      [|done].
    intros [= <- _]. split; [done|]. intros Hpid. by apply Hpop in Hpid.
  - intros Hpid. pose proof (Hpop pid Hpid) as Hi.
    assert (∀ s1, initiator (poolAt pid s1) ≠ 0 →
              getContribution pid a s1
              = Done (contributionOf a (poolAt pid s1)) s1) as Hget.
    { intros s1 H1. rewrite getContribution_eq.
      by destruct (Z.eqb_spec (initiator (poolAt pid s1)) 0). }
    split; [by apply Hget|]. split; [|split].
    + intros Hnever. rewrite Hget by done. f_equal.
      pose proof (contributionOf_run_le pid a g txs (sound_deployed _)) as Hle.
      pose proof (sound_ledger s Hs pid a) as Hpos.
      fold s in Hle. rewrite Hnever in Hle.
      assert (contributionOf a (poolAt pid g) = 0) as Hz by done.
      lia.
    + intros now callee tx Hok.
      destruct (terms_transact pid s tx Hs) as (_ & Hi' & _); [lia|].
      rewrite Hget by by rewrite Hi'. f_equal.
      rewrite contributionOf_transact by done. simpl.
      by rewrite Hok, !bool_decide_eq_true_2.
    + intros t0 before now callee later tx Heq Hc Hok.
      rewrite Hget by done. f_equal.
      set (sb := run g before). fold sb in Hok.
      pose proof (Hsound before) as Hsb. fold sb in Hsb.
      assert (s = run (transact sb tx) later) as Hrun.
      { unfold s. rewrite Heq, run_app. reflexivity. }
      pose proof Hok as Hdone. unfold succeeds in Hdone.
      destruct (execute tx sb) as [r s1|f dirty] eqn:He; [clear Hdone|done].
      apply execute_ClaimRefund in He as (_ & Hex & Hd & _).
      assert (pid < _poolIdCounter sb) as Hlt
        by by apply (sound_fresh sb Hsb), poolAt_exists.
      destruct (terms_transact pid sb tx Hsb Hlt) as (Hlt' & _ & Hd').
      assert (contributionOf a (poolAt pid (transact sb tx)) = 0) as Hzero.
      { rewrite contributionOf_transact by done. simpl.
        by rewrite Hok, !bool_decide_eq_true_2. }
      assert (contributed pid (Some a) (transact sb tx) later = 0) as Hnone.
      { apply (contributed_after_deadline pid (Some a) now);
          [by apply sound_transact | done | lia |].
        rewrite Heq in Hc. by apply chronological_app in Hc. }
      pose proof (contributionOf_run_le pid a (transact sb tx) later
                    (sound_transact sb tx Hsb)) as Hle.
      pose proof (sound_ledger s Hs pid a) as Hpos.
      rewrite <- Hrun, Hzero, Hnone in Hle. lia.
Qed.


Lemma getContribution_never_fails_on_pools_witness :
  let s := run (deployed 9) expired in
  forallb wf_tx expired = true
  ∧ (1 ≤ 1 < _poolIdCounter s)
  ∧ contributed 1 (Some 99) (deployed 9) expired = 0
  ∧ getContribution 1 99 s = Done 0 s
  ∧ getContribution 1 7 s = Done 0 s.
Proof.
  intros s.
  assert (forallb wf_tx expired = true) as Hwf by by vm_compute.
  assert (1 ≤ 1 < _poolIdCounter s) as Hpid by by vm_compute.
  assert (contributed 1 (Some 99) (deployed 9) expired = 0) as Hnone
    by by vm_compute.
  destruct (getContribution_never_fails_on_pools 9 expired 1 99 Hwf)
    as (_ & Hpool).
  destruct (Hpool Hpid) as (_ & Hnever & _).
  destruct (getContribution_never_fails_on_pools 9 expired 1 7 Hwf)
    as (_ & Hpool7).
  destruct (Hpool7 Hpid) as (_ & _ & _ & Hlater).
  split; [exact Hwf|]. split; [exact Hpid|]. split; [exact Hnone|].
  split; [exact (Hnever Hnone)|].
  apply (Hlater 0 (take 4 expired) 60 plain []); vm_compute; reflexivity.
Defined.

(** ** Bytes and words *)

Lemma Z_of_byte_range b : 0 ≤ Z_of_byte b < 256.
Proof.
  unfold Z_of_byte. pose proof (Byte.to_N_bounded b). lia.
Qed.

Lemma byte_of_Z_of_byte b : byte_of_Z (Z_of_byte b) = b.
Proof.
  unfold byte_of_Z. rewrite Z.mod_small by apply Z_of_byte_range.
  unfold Z_of_byte. by rewrite N2Z.id, Byte.of_to_N.
Qed.

Lemma Z_of_byte_of_Z z : Z_of_byte (byte_of_Z z) = z mod 256.
Proof.
  unfold byte_of_Z, Z_of_byte.
  pose proof (Z.mod_pos_bound z 256 eq_refl) as Hr.
  destruct (Byte.of_N (Z.to_N (z mod 256))) as [b|] eqn:E; simpl.
  - apply Byte.to_of_N in E. rewrite E. lia.
  - apply Byte.of_N_None_iff in E. lia.
Qed.

Lemma be_decode_snoc l b : be_decode (l ++ [b]) = be_decode l * 256 + Z_of_byte b.
Proof. unfold be_decode. by rewrite fold_left_app. Qed.

Lemma be_decode_range l : 0 ≤ be_decode l < 256 ^ Z.of_nat (length l).
Proof.
  induction l as [|b l IH] using rev_ind; [by vm_compute|].
  rewrite be_decode_snoc, length_app, Nat2Z.inj_add, Z.pow_add_r by lia.
  pose proof (Z_of_byte_range b). simpl. nia.
Qed.

Lemma be_decode_app l k :
  be_decode (l ++ k) = be_decode l * 256 ^ Z.of_nat (length k) + be_decode k.
Proof.
  induction k as [|b k IH] using rev_ind.
  - rewrite app_nil_r. simpl. unfold be_decode at 3. simpl. lia.
  - rewrite app_assoc, !be_decode_snoc, IH.
    rewrite length_app, Nat2Z.inj_add, Z.pow_add_r by lia. simpl. lia.
Qed.

Lemma length_be_bytes n v : length (be_bytes n v) = n.
Proof.
  revert v. induction n as [|n IH]; intros v; simpl; [done|].
  rewrite length_app, IH. simpl. lia.
Qed.

Lemma length_le_bytes n v : length (le_bytes n v) = n.
Proof.
  revert v. induction n as [|n IH]; intros v; simpl; [done|].
  by rewrite IH.
Qed.

(** Writing a word out and reading it back: the word modulo its width. *)
Lemma be_decode_be_bytes n v : be_decode (be_bytes n v) = v mod 256 ^ Z.of_nat n.
Proof.
  revert v. induction n as [|n IH]; intros v.
  - simpl. by rewrite Z.mod_1_r.
  - cbn [be_bytes]. rewrite be_decode_snoc, IH, Z_of_byte_of_Z.
    rewrite Nat2Z.inj_succ, Z.pow_succ_r by lia.
    rewrite Z.rem_mul_r by lia. lia.
Qed.

(** Reading bytes and writing the word back out: the same bytes. *)
Lemma be_bytes_be_decode l : be_bytes (length l) (be_decode l) = l.
Proof.
  induction l as [|b l IH] using rev_ind; [done|].
  rewrite length_app, Nat.add_comm. cbn [length Nat.add be_bytes].
  rewrite be_decode_snoc. pose proof (Z_of_byte_range b) as Hb.
  replace ((be_decode l * 256 + Z_of_byte b) / 256) with (be_decode l)
    by (apply Z.div_unique with (Z_of_byte b); lia).
  rewrite IH. f_equal. f_equal.
  rewrite <- (byte_of_Z_of_byte b) at 2.
  unfold byte_of_Z. f_equal. f_equal. f_equal.
  rewrite Z.add_comm, Z.mod_add by lia. reflexivity.
Qed.

Lemma length_keccak256_bytes msg : length (keccak256_bytes msg) = 32%nat.
Proof.
  unfold keccak256_bytes. by rewrite !length_app, !length_le_bytes.
Qed.

(** The last 20 bytes of a 32-byte word are its value modulo 2^160. *)
Lemma be_decode_low_20 l :
  length l = 32%nat → be_decode (drop 12 l) = to_address (be_decode l).
Proof.
  intros Hl. unfold to_address, MAX_UINT160.
  replace (2 ^ 160 - 1) with (Z.ones 160) by reflexivity.
  rewrite Z.land_ones by lia.
  rewrite <- (take_drop 12 l) at 2. rewrite be_decode_app.
  rewrite length_drop, Hl.
  replace (256 ^ Z.of_nat (32 - 12)) with (2 ^ 160) by reflexivity.
  rewrite Z.add_comm, Z.mod_add by lia.
  symmetry. apply Z.mod_small.
  pose proof (be_decode_range (drop 12 l)) as Hr.
  rewrite length_drop, Hl in Hr.
  replace (256 ^ Z.of_nat (32 - 12)) with (2 ^ 160) in Hr by reflexivity.
  done.
Qed.

(** A successful [deploy], taken apart. *)
Lemma deploy_inr run_init this bytecode salt w deployedAddress w' :
  deploy run_init this bytecode salt w = inr (deployedAddress, w') →
  deployedAddress = create2_address this salt bytecode
  ∧ code_at w !! deployedAddress = None
  ∧ ∃ runtime,
      run_init bytecode = Some runtime
      ∧ w' = mkWorld (<[deployedAddress := runtime]> (code_at w))
               (deployments w ++ [ContractDeployed deployedAddress salt]).
Proof.
  unfold deploy, create2.
  generalize (create2_address this salt bytecode). intros target.
  destruct (code_at w !! target) eqn:Hfree.
  - cbn beta iota. change (0 =? 0) with true. cbn iota. intros [=].
  - destruct (run_init bytecode) as [runtime|] eqn:Hrun; cbn beta iota.
    + destruct (target =? 0); [intros [=]|].
      intros [= <- <-]. split; [done|]. split; [done|]. by exists runtime.
    + change (0 =? 0) with true. cbn iota. intros [=].
Qed.

(** C8.  [computeAddress(b, s)] is [computeAddressFromHash(keccak256(b), s)];
    both are the keccak hash of the byte 0xff, the factory's address, the
    salt and [keccak256(b)], cut down to 160 bits; this is the address the
    CREATE2 instruction gives a contract created by the factory from [b]
    with salt [s], and so the address every successful [deploy(b, s)]
    returns and logs. *)
Theorem computeAddress_is_deploy_address this bytecode salt :
  computeAddress this bytecode salt
  = computeAddressFromHash this (keccak256 bytecode) salt
  ∧ computeAddress this bytecode salt
    = Z.land
        (keccak256
           ([Byte.xff] ++ be_bytes 20 this ++ be_bytes 32 salt
            ++ be_bytes 32 (keccak256 bytecode)))
        (2 ^ 160 - 1)
  ∧ computeAddress this bytecode salt = create2_address this salt bytecode
  ∧ ∀ run_init w deployedAddress w',
      deploy run_init this bytecode salt w = inr (deployedAddress, w') →
      deployedAddress = computeAddress this bytecode salt
      ∧ code_at w !! deployedAddress = None
      ∧ is_Some (code_at w' !! deployedAddress)
      ∧ deployments w'
        = deployments w ++ [ContractDeployed deployedAddress salt].
Proof.
  assert (computeAddress this bytecode salt
          = create2_address this salt bytecode) as Hrule.
  { pose proof (be_bytes_be_decode (keccak256_bytes bytecode)) as Hword.
    rewrite length_keccak256_bytes in Hword.
    unfold computeAddress, create2_address, encodePacked, keccak256.
    rewrite Hword.
    by rewrite be_decode_low_20 by apply length_keccak256_bytes. }
  split; [unfold computeAddress, computeAddressFromHash; reflexivity|].
  split.
  { unfold computeAddress, encodePacked, to_address, MAX_UINT160.
    reflexivity. }
  split; [exact Hrule|].
  intros run_init w deployedAddress w' Hd.
  apply deploy_inr in Hd as (Ha & Hfree & runtime & _ & ->).
  rewrite Hrule, <- Ha. cbn [code_at deployments].
  split; [done|]. split; [done|]. split; [|done].
  rewrite lookup_insert_eq. by eexists.
Qed.

(** EIP-1014's first example: creator 0, salt 0, init code 0x00. *)
Lemma computeAddress_is_deploy_address_witness :
  let w := mkWorld ∅ [] in
  let a := 0x4D1A2e2bB4F88F0250f26Ffff098B0b30B26BF38 in
  deploy Some 0 [Byte.x00] 0 w
  = inr (a, mkWorld {[a := [Byte.x00]]} [ContractDeployed a 0])
  ∧ a = computeAddress 0 [Byte.x00] 0.
Proof.
  intros w a.
  assert (deploy Some 0 [Byte.x00] 0 w
          = inr (a, mkWorld {[a := [Byte.x00]]} [ContractDeployed a 0]))
    as Hd by by vm_compute.
  split; [exact Hd|].
  destruct (computeAddress_is_deploy_address 0 [Byte.x00] 0)
    as (_ & _ & _ & Hdep).
  exact (proj1 (Hdep Some w a _ Hd)).
Defined.

(** * Further properties *)

(** ** A proof principle for facts about each pool

    A property of pools, possibly depending on the time of the last block,
    holds of every pool of every reachable storage as soon as it holds of
    the empty slot and of a new pool, and is kept by a contribution, by the
    flag that a payout sets and by the zeroing that a refund does. *)

Section PoolInvariant.

Variable P : Z → Pool → Prop.
Hypothesis P_mono : ∀ t t' p, t ≤ t' → P t p → P t' p.
Hypothesis P_zero : ∀ t, P t zeroPool.
Hypothesis P_created : ∀ now msg b d g t,
  b ≠ 0 → 0 < g → now < t → P now (created_pool msg b d g t zeroPool).
Hypothesis P_contribute : ∀ now from v p,
  P now p → initiator p ≠ 0 → now < deadlineTimestamp p →
  goalAchieved p = false → 0 < v →
  0 ≤ contributionOf from p ≤ currentAmount p →
  P now (pool_after_contribute from v p).
Hypothesis P_disburse : ∀ now p,
  P now p → initiator p ≠ 0 → goalAchieved p = true →
  fundsDisbursed p = false → deadlineTimestamp p ≤ now →
  P now (set_fundsDisbursed true p).
Hypothesis P_refund : ∀ now who p,
  P now p → initiator p ≠ 0 → deadlineTimestamp p ≤ now →
  goalAchieved p = false → 0 < contributionOf who p →
  P now (set_contribution who 0 p).

Lemma everywhere_ext now s s' :
  pools s' = pools s →
  (∀ pid, P now (poolAt pid s)) → ∀ pid, P now (poolAt pid s').
Proof. intros Hp H pid. rewrite (poolAt_ext pid s s' Hp). apply H. Qed.

Lemma everywhere_update now pid p' s :
  (∀ k, P now (poolAt k s)) → P now p' →
  ∀ k, P now (poolAt k (set_pool pid p' s)).
Proof.
  intros H Hp k. destruct (decide (pid = k)) as [<- | Hne].
  - by rewrite poolAt_set_pool_eq.
  - rewrite poolAt_set_pool_ne by done. apply H.
Qed.

Lemma everywhere_after_createPool now msg b d g t s :
  sound s → b ≠ 0 → 0 < g → now < t →
  (∀ k, P now (poolAt k s)) →
  ∀ k, P now (poolAt k (after_createPool msg b d g t s)).
Proof.
  intros Hs Hb Hg Ht H.
  apply (everywhere_ext now (set_pool (_poolIdCounter s)
           (created_pool msg b d g t (poolAt (_poolIdCounter s) s)) s));
    [done|].
  rewrite (sound_slot s Hs). apply everywhere_update; [done|].
  by apply P_created.
Qed.

Lemma everywhere_callbacks ok now s s' :
  callbacks ok now s s' → sound s →
  (∀ k, P now (poolAt k s)) → ∀ k, P now (poolAt k s').
Proof.
  induction 1 as [s | s from b d g t s' _ Hb Hg Ht _ _ IH | s a s' _ IH];
    intros Hs H; [done | |].
  - apply IH; [by apply sound_after_createPool|].
    by apply everywhere_after_createPool.
  - apply IH; [by apply sound_after_transferOwnership|].
    by apply (everywhere_ext now s).
Qed.

Lemma everywhere_step ok now s s' :
  sound s → (∀ k, P now (poolAt k s)) → step ok now s s' →
  ∀ k, P now (poolAt k s').
Proof.
  intros Hs H
    [from b d g t _ Hb Hg Ht _
    | from v pid Hi Hd Hg Hv _ _
    | callee pid Hi Hg Hf Hd Hbal Hcb
    | callee from pid Hi Hd Hg Hc Hbal Hcb
    | a].
  - by apply everywhere_after_createPool.
  - apply (everywhere_ext now (set_pool pid
      (pool_after_contribute from v (poolAt pid s)) s)); [done|].
    apply everywhere_update; [done|].
    apply P_contribute; try done. apply (sound_ledger s Hs).
  - apply (everywhere_ext now
             (after_calls now (reentrant callee) (disbursing pid s)));
      [done|].
    apply (everywhere_callbacks _ _ _ _ Hcb); [by apply sound_disbursing|].
    unfold disbursing. apply everywhere_update.
    + by apply (everywhere_ext now s).
    + rewrite ?poolAt_set_status. by apply P_disburse.
  - apply (everywhere_ext now
             (after_calls now (reentrant callee) (refunding from pid s)));
      [done|].
    apply (everywhere_callbacks _ _ _ _ Hcb); [by apply sound_refunding|].
    unfold refunding. apply everywhere_update.
    + by apply (everywhere_ext now s).
    + rewrite ?poolAt_set_status. by apply P_refund.
  - by apply (everywhere_ext now s).
Qed.

Lemma everywhere_transact t s tx :
  sound s → t ≤ tx_time tx →
  (∀ k, P t (poolAt k s)) → ∀ k, P (tx_time tx) (poolAt k (transact s tx)).
Proof.
  intros Hs Ht H.
  assert (∀ k, P (tx_time tx) (poolAt k s)) as Hnow
    by (intros k; by apply (P_mono t)).
  destruct (transact_step (λ _, True) s tx) as [-> | Hstep]; [|done|].
  - split; [done|]. by apply Forall_true.
  - by apply (everywhere_step (λ _, True) (tx_time tx) s).
Qed.

Lemma everywhere_run t0 s txs :
  sound s → chronological t0 txs = true →
  (∀ k, P t0 (poolAt k s)) → ∀ k, P (clock t0 txs) (poolAt k (run s txs)).
Proof.
  revert t0 s. induction txs as [|tx txs IH]; intros t0 s Hs Hc H; [done|].
  cbn [chronological] in Hc. apply andb_true_iff in Hc as [Ht%Z.leb_le Hc].
  cbn [run clock fold_left].
  apply IH; [by apply sound_transact | done |].
  by apply (everywhere_transact t0).
Qed.

End PoolInvariant.

(** The same for a property that does not look at the clock: no assumption
    on the timestamps is needed. *)
Lemma everywhere_always (Q : Pool → Prop) :
  Q zeroPool →
  (∀ msg b d g t, b ≠ 0 → 0 < g → Q (created_pool msg b d g t zeroPool)) →
  (∀ from v p,
     Q p → initiator p ≠ 0 → goalAchieved p = false → 0 < v →
     0 ≤ contributionOf from p ≤ currentAmount p →
     Q (pool_after_contribute from v p)) →
  (∀ p, Q p → initiator p ≠ 0 → goalAchieved p = true →
        fundsDisbursed p = false → Q (set_fundsDisbursed true p)) →
  (∀ who p, Q p → initiator p ≠ 0 → goalAchieved p = false →
            0 < contributionOf who p → Q (set_contribution who 0 p)) →
  ∀ deployer txs pid, Q (poolAt pid (run (deployed deployer) txs)).
Proof.
  intros Hzero Hnew Hgive Hpay Hback deployer txs.
  assert (∀ s, sound s → (∀ k, Q (poolAt k s)) → ∀ k, Q (poolAt k (run s txs)))
    as Hrun.
  { induction txs as [|tx txs IH]; intros s Hs H; [done|].
    cbn [run fold_left]. apply IH; [by apply sound_transact|].
    apply (everywhere_transact (λ _, Q)) with (t := tx_time tx);
      try done; try lia; eauto. }
  apply Hrun; [apply sound_deployed|].
  intros k. unfold poolAt; simpl. by rewrite lookup_empty.
Qed.

Lemma settled_everywhere deployer txs pid :
  settled (poolAt pid (run (deployed deployer) txs)).
Proof.
  apply (everywhere_always settled).
  - split; [done | by right | done].
  - intros msg b d g t Hb Hg. split; simpl; [done | | done].
    left. symmetry. apply Z.leb_gt. lia.
  - intros from v p [H1 H2 H3] Hi Hg Hv Hl. split; simpl; [done | by left |].
    intros Hf. apply H3 in Hf. congruence.
  - intros p [H1 H2 H3] Hi Hg Hf. by split.
  - intros who p [H1 H2 H3] Hi Hg Hc. by split.
Qed.

(** X1.  On every pool of every reachable storage the goal is positive and
    [goalAchieved] is set exactly when [currentAmount] has reached
    [goalAmount]. *)
Theorem goalAchieved_iff_goal_met deployer txs pid :
  let p := poolAt pid (run (deployed deployer) txs) in
  initiator p ≠ 0 →
  0 < goalAmount p
  ∧ (goalAchieved p = true ↔ goalAmount p ≤ currentAmount p).
Proof.
  intros p Hi. destruct (settled_everywhere deployer txs pid) as [H1 H2 H3].
  fold p in H1, H2, H3. split; [by apply H1|].
  destruct H2 as [-> | [Hz _]]; [apply Z.leb_le | done].
Qed.

Lemma goalAchieved_iff_goal_met_witness :
  initiator (poolAt 1 (run (deployed 9) funded)) ≠ 0
  ∧ goalAmount (poolAt 1 (run (deployed 9) funded))
    ≤ currentAmount (poolAt 1 (run (deployed 9) funded))
  ∧ goalAchieved (poolAt 1 (run (deployed 9) funded)) = true.
Proof.
  assert (initiator (poolAt 1 (run (deployed 9) funded)) ≠ 0) as Hi
    by by vm_compute.
  assert (goalAmount (poolAt 1 (run (deployed 9) funded))
          ≤ currentAmount (poolAt 1 (run (deployed 9) funded))) as Hmet
    by by vm_compute.
  split; [exact Hi|]. split; [exact Hmet|].
  exact (proj2 (proj2 (goalAchieved_iff_goal_met 9 funded 1 Hi)) Hmet).
Defined.

(** X2.  Along any history whose block timestamps do not go back, a pool
    marked [fundsDisbursed] has achieved its goal and its deadline has
    passed. *)
Theorem fundsDisbursed_only_after_success deployer t0 txs pid :
  chronological t0 txs = true →
  let p := poolAt pid (run (deployed deployer) txs) in
  fundsDisbursed p = true →
  goalAchieved p = true ∧ deadlineTimestamp p ≤ clock t0 txs.
Proof.
  intros Hc p Hf. split.
  - by apply (settled_paid _ (settled_everywhere deployer txs pid)).
  - revert Hf. unfold p.
    apply (everywhere_run
             (λ t q, fundsDisbursed q = true → deadlineTimestamp q ≤ t));
      try done.
    + intros t t' q Ht H Hf. specialize (H Hf). lia.
    + apply sound_deployed.
Qed.

Lemma fundsDisbursed_only_after_success_witness :
  chronological 0 paid = true
  ∧ fundsDisbursed (poolAt 1 (run (deployed 9) paid)) = true
  ∧ goalAchieved (poolAt 1 (run (deployed 9) paid)) = true
  ∧ deadlineTimestamp (poolAt 1 (run (deployed 9) paid)) ≤ clock 0 paid.
Proof.
  assert (chronological 0 paid = true) as Hc by (vm_compute; reflexivity).
  assert (fundsDisbursed (poolAt 1 (run (deployed 9) paid)) = true) as Hf
    by (vm_compute; reflexivity).
  split; [exact Hc|]. split; [exact Hf|].
  exact (fundsDisbursed_only_after_success 9 0 paid 1 Hc Hf).
Defined.

(** ** Which reason a call is rejected with *)

Ltac reflect_all :=
  repeat match goal with
         | H : (_ =? _) = true |- _ => apply Z.eqb_eq in H
         | H : (_ =? _) = false |- _ => apply Z.eqb_neq in H
         | H : (_ <? _) = true |- _ => apply Z.ltb_lt in H
         | H : (_ <? _) = false |- _ => apply Z.ltb_ge in H
         | H : (_ <=? _) = true |- _ => apply Z.leb_le in H
         | H : (_ <=? _) = false |- _ => apply Z.leb_gt in H
         | H : (_ || _) = true |- _ => apply orb_true_iff in H as [H | H]
         | H : (_ || _) = false |- _ => apply orb_false_iff in H as [? H]
         end.

(** Run the code down every branch and compare with the table. *)
Ltac tabulate :=
  repeat (rewrite ?external_call_eq; autorewrite with storage; fields;
          match goal with
          | |- context [if ?c then _ else _] =>
              lazymatch c with
              | negb ?c' => destruct c' eqn:?
              | _ => destruct c eqn:?
              end;
              cbn beta iota delta [negb]
          end);
  autorewrite with storage; fields;
  first [ reflexivity
        | exfalso; cbn [sender value timestamp] in *; reflect_all;
          first [lia | congruence] ].

Lemma failure_Contribute s from now pid v callee :
  _status s = _NOT_ENTERED →
  contributionOf from (poolAt pid s) ≤ currentAmount (poolAt pid s) →
  failure s (mkTx from now (Contribute pid v) callee) =
  let p := poolAt pid s in
  if initiator p =? 0 then Some PoolNotFound
  else if deadlineTimestamp p <=? now then Some DeadlinePassed
  else if goalAchieved p then Some GoalAlreadyAchieved
  else if v <=? 0 then Some ZeroContribution
  else if currentAmount p + v <=? MAX_UINT256 then None
  else Some (Panic 17).
Proof.
  intros Hst Hl. unfold failure, execute, dispatch; simpl.
  unfold contribute, pay. run_monad. cbn [_status credit]. rewrite Hst.
  cbn beta iota delta [negb Z.eqb _ENTERED _NOT_ENTERED Pos.eqb].
  tabulate.
Qed.

Lemma failure_CreatePool s from now b d g t callee :
  failure s (mkTx from now (CreatePool b d g t) callee) =
  if b =? 0 then Some InvalidBeneficiary
  else if g <=? 0 then Some InvalidGoalAmount
  else if t <=? now then Some InvalidDeadline
  else if _poolIdCounter s + 1 <=? MAX_UINT256 then None
  else Some (Panic 17).
Proof.
  unfold failure, execute, dispatch; simpl.
  unfold createPool. run_monad. tabulate.
Qed.

Lemma failure_DisburseFunds s from now pid callee :
  _status s = _NOT_ENTERED →
  failure s (mkTx from now (DisburseFunds pid) callee) =
  let p := poolAt pid s in
  if initiator p =? 0 then Some PoolNotFound
  else if negb ((from =? initiator p) || (from =? _owner s))
       then Some Unauthorized
  else if negb (goalAchieved p) then Some GoalNotAchieved
  else if fundsDisbursed p then Some AlreadyDisbursed
  else if now <? deadlineTimestamp p then Some DeadlineNotReached
  else if (currentAmount p <=? balance s) && accepts callee then None
  else Some DisburseTransferFailed.
Proof.
  intros Hst. unfold failure, execute, dispatch; simpl.
  unfold disburseFunds. run_monad. rewrite Hst.
  cbn beta iota delta [negb Z.eqb _ENTERED _NOT_ENTERED Pos.eqb].
  tabulate.
Qed.

Lemma failure_ClaimRefund s from now pid callee :
  _status s = _NOT_ENTERED →
  failure s (mkTx from now (ClaimRefund pid) callee) =
  let p := poolAt pid s in
  if initiator p =? 0 then Some PoolNotFound
  else if now <? deadlineTimestamp p then Some DeadlineNotReached
  else if goalAchieved p then Some GoalWasAchieved
  else if contributionOf from p <=? 0 then Some NoContribution
  else if (contributionOf from p <=? balance s) && accepts callee then None
  else Some RefundTransferFailed.
Proof.
  intros Hst. unfold failure, execute, dispatch; simpl.
  unfold claimRefund. run_monad. rewrite Hst.
  cbn beta iota delta [negb Z.eqb _ENTERED _NOT_ENTERED Pos.eqb].
  tabulate.
Qed.

Lemma transact_failed s tx : failure s tx ≠ None → transact s tx = s.
Proof. unfold failure, transact. by destruct (execute tx s). Qed.

Lemma succeeds_iff_no_failure s tx : succeeds s tx = true ↔ failure s tx = None.
Proof. unfold failure, succeeds. by destruct (execute tx s). Qed.

(** X3.  [createPool] checks the beneficiary, then the goal, then the
    deadline (which must be strictly later than the block), and is otherwise
    accepted unless the pool counter is at its last value; a rejected call
    changes nothing. *)
Theorem createPool_rejections deployer txs from now b d g t callee :
  let s := run (deployed deployer) txs in
  let tx := mkTx from now (CreatePool b d g t) callee in
  failure s tx
  = (if b =? 0 then Some InvalidBeneficiary
     else if g <=? 0 then Some InvalidGoalAmount
     else if t <=? now then Some InvalidDeadline
     else if _poolIdCounter s + 1 <=? MAX_UINT256 then None
     else Some (Panic 17))
  ∧ (failure s tx ≠ None → transact s tx = s).
Proof.
  intros s tx. split; [apply failure_CreatePool | apply transact_failed].
Qed.

(** X4.  On every reachable storage [contribute] is rejected with
    [PoolNotFound] on an unused id, else with [DeadlinePassed] from the
    deadline on, else with [GoalAlreadyAchieved], else with
    [ZeroContribution] when no value is attached, else with an overflow
    panic when the total would not fit; in every other case it is accepted.
    A rejected call changes nothing. *)
Theorem contribute_rejections deployer txs from now pid v callee :
  let s := run (deployed deployer) txs in
  let p := poolAt pid s in
  let tx := mkTx from now (Contribute pid v) callee in
  failure s tx
  = (if initiator p =? 0 then Some PoolNotFound
     else if deadlineTimestamp p <=? now then Some DeadlinePassed
     else if goalAchieved p then Some GoalAlreadyAchieved
     else if v <=? 0 then Some ZeroContribution
     else if currentAmount p + v <=? MAX_UINT256 then None
     else Some (Panic 17))
  ∧ (failure s tx ≠ None → transact s tx = s).
Proof.
  intros s p tx.
  assert (sound s) as Hs by apply sound_run, sound_deployed.
  split; [|apply transact_failed].
  apply failure_Contribute; [by apply idle_run | apply (sound_ledger s Hs)].
Qed.


(** ** What one transaction does to a pool that exists *)

(** The pool a transaction names, if it is accepted, is changed in the one
    way its function changes it; every other pool in use is left alone,
    also by the calls a recipient makes while it is paid. *)
Lemma pool_transact pid s tx :
  sound s → pid < _poolIdCounter s →
  pid < _poolIdCounter (transact s tx)
  ∧ poolAt pid (transact s tx) =
    if succeeds s tx then
      match tx_call tx with
      | Contribute p v =>
          if decide (p = pid)
          then pool_after_contribute (tx_from tx) v (poolAt pid s)
          else poolAt pid s
      | DisburseFunds p =>
          if decide (p = pid) then set_fundsDisbursed true (poolAt pid s)
          else poolAt pid s
      | ClaimRefund p =>
          if decide (p = pid)
          then set_contribution (tx_from tx) 0 (poolAt pid s)
          else poolAt pid s
      | _ => poolAt pid s
      end
    else poolAt pid s.
Proof.
  intros Hs Hlt. unfold transact, succeeds.
  destruct tx as [from now [b d g t|p v|p|p|w|] callee];
    destruct (execute _ s) as [r s'|f dirty] eqn:He; try done;
    cbn [tx_call tx_from].
  - apply execute_CreatePool in He as (_ & _ & _ & _ & _ & ->).
    destruct (after_createPool_frame (mkMsg from 0 now) b d g t s pid Hs)
      as (Hsame & _).
    rewrite Hsame by lia. simpl. split; [lia | done].
  - apply execute_Contribute in He as (_ & _ & _ & _ & _ & _ & _ & _ & ->).
    by rewrite poolAt_after_contribute.
  - apply execute_DisburseFunds in He as (_ & Hi & _ & _ & _ & _ & _ & _ & ->).
    rewrite poolAt_after_disburseFunds.
    destruct (after_calls_frame now (reentrant callee) (disbursing p s))
      as (_ & Hc & Hf); [done | by apply sound_disbursing |].
    destruct (Hf pid) as (Hsame & _).
    rewrite Hsame by done. rewrite poolAt_disbursing.
    split; [simpl in *; lia | done].
  - apply execute_ClaimRefund in He as (_ & Hi & _ & _ & _ & _ & _ & ->).
    rewrite poolAt_after_claimRefund.
    destruct (after_calls_frame now (reentrant callee) (refunding from p s))
      as (_ & Hc & Hf); [done | by apply sound_refunding |].
    destruct (Hf pid) as (Hsame & _).
    rewrite Hsame by done. rewrite poolAt_refunding.
    split; [simpl in *; lia | done].
  - by apply execute_TransferOwnership in He as ->.
  - by apply execute_RenounceOwnership in He as ->.
Qed.

Lemma terms_kept pid s tx :
  sound s → pid < _poolIdCounter s →
  terms (poolAt pid (transact s tx)) = terms (poolAt pid s).
Proof.
  intros Hs Hlt. destruct (pool_transact pid s tx Hs Hlt) as (_ & ->).
  destruct (succeeds s tx); [|done].
  destruct (tx_call tx); try done; by case_decide.
Qed.

Lemma terms_run pid s txs :
  sound s → pid < _poolIdCounter s →
  pid < _poolIdCounter (run s txs)
  ∧ terms (poolAt pid (run s txs)) = terms (poolAt pid s).
Proof.
  revert s. induction txs as [|tx txs IH]; intros s Hs Hlt; [done|].
  change (run s (tx :: txs)) with (run (transact s tx) txs).
  destruct (pool_transact pid s tx Hs Hlt) as (Hlt' & _).
  destruct (IH (transact s tx)) as (Hlt'' & ->);
    [by apply sound_transact | done |].
  split; [done | by apply terms_kept].
Qed.

Lemma flagged_in_use s pid :
  sound s →
  goalAchieved (poolAt pid s) = true ∨ fundsDisbursed (poolAt pid s) = true →
  pid < _poolIdCounter s.
Proof.
  intros Hs H. destruct (pools s !! pid) eqn:Hp.
  - by apply (sound_fresh s Hs pid).
  - rewrite (poolAt_unused pid s Hp) in H. by destruct H.
Qed.

(** The flags are set once and for all. *)
Lemma flags_kept pid s tx :
  sound s →
  (goalAchieved (poolAt pid s) = true →
   goalAchieved (poolAt pid (transact s tx)) = true)
  ∧ (fundsDisbursed (poolAt pid s) = true →
     fundsDisbursed (poolAt pid (transact s tx)) = true).
Proof.
  intros Hs.
  split; intros H;
    (destruct (pool_transact pid s tx Hs) as (_ & ->);
     [apply flagged_in_use; tauto|]);
    unfold succeeds;
    destruct tx as [from now [b d g t|p v|p|p|w|] callee];
    destruct (execute _ s) as [r s'|f dirty] eqn:He; try done;
    cbn [tx_call tx_from]; case_decide; subst; try done.
  apply execute_Contribute in He as (_ & _ & _ & Hg & _). congruence.
Qed.

Lemma flags_run pid s txs :
  sound s →
  (goalAchieved (poolAt pid s) = true →
   goalAchieved (poolAt pid (run s txs)) = true)
  ∧ (fundsDisbursed (poolAt pid s) = true →
     fundsDisbursed (poolAt pid (run s txs)) = true).
Proof.
  revert s. induction txs as [|tx txs IH]; intros s Hs; [done|].
  change (run s (tx :: txs)) with (run (transact s tx) txs).
  destruct (flags_kept pid s tx Hs) as [Hg Hf].
  destruct (IH (transact s tx) (sound_transact s tx Hs)) as [Hg' Hf'].
  split; intros H; [apply Hg', Hg, H | apply Hf', Hf, H].
Qed.

(** X5.  Along any history whose block timestamps do not go back,
    [disburseFunds] is rejected with [PoolNotFound] on an unused id, else
    with [Unauthorized] unless the caller is the pool's initiator or the
    owner, else with [GoalNotAchieved], else with [AlreadyDisbursed], else
    with [DeadlineNotReached] before the deadline, else with the transfer
    failure when the beneficiary does not accept; in every other case it is
    accepted, because the contract then holds the pool's [currentAmount],
    which leaves its balance.  A rejected call changes nothing. *)
Theorem disburseFunds_rejections deployer t0 txs from now pid callee :
  chronological t0 txs = true →
  let s := run (deployed deployer) txs in
  let p := poolAt pid s in
  let tx := mkTx from now (DisburseFunds pid) callee in
  failure s tx
  = (if initiator p =? 0 then Some PoolNotFound
     else if negb ((from =? initiator p) || (from =? _owner s))
          then Some Unauthorized
     else if negb (goalAchieved p) then Some GoalNotAchieved
     else if fundsDisbursed p then Some AlreadyDisbursed
     else if now <? deadlineTimestamp p then Some DeadlineNotReached
     else if accepts callee then None
     else Some DisburseTransferFailed)
  ∧ (failure s tx ≠ None → transact s tx = s)
  ∧ (failure s tx = None →
     currentAmount p ≤ balance s
     ∧ balance (transact s tx) = balance s - currentAmount p).
Proof.
  intros Hc s p tx.
  destruct (enough_ether deployer t0 txs pid Hc) as (_ & Hpay & _).
  fold s p in Hpay.
  assert (failure s tx
          = (if initiator p =? 0 then Some PoolNotFound
             else if negb ((from =? initiator p) || (from =? _owner s))
                  then Some Unauthorized
             else if negb (goalAchieved p) then Some GoalNotAchieved
             else if fundsDisbursed p then Some AlreadyDisbursed
             else if now <? deadlineTimestamp p then Some DeadlineNotReached
             else if accepts callee then None
             else Some DisburseTransferFailed)) as Htable.
  { unfold tx. rewrite failure_DisburseFunds by by apply idle_run.
    cbn zeta. fold p.
    destruct (initiator p =? 0); [done|].
    destruct (negb (_ || _)); [done|].
    destruct (goalAchieved p) eqn:Hg; [|done].
    destruct (fundsDisbursed p) eqn:Hf; [done|].
    cbn [negb]. destruct (now <? _); [done|].
    by rewrite (proj2 (Z.leb_le _ _)) by by apply Hpay. }
  split; [exact Htable|]. split; [apply transact_failed|].
  intros Hnone. unfold failure in Hnone. unfold transact.
  destruct (execute tx s) as [r s'|f dirty] eqn:He; [|done].
  apply execute_DisburseFunds in He as (_ & _ & _ & _ & _ & _ & [Hle _] & _ & ->).
  split; [exact Hle|].
  unfold after_disburseFunds. cbn [balance set_status log_event debit].
  rewrite (balance_callbacks (λ _, True) now (disbursing pid s)); [done|].
  apply after_calls_callbacks; [done | by apply Forall_true].
Qed.

Lemma disburseFunds_rejections_witness :
  let s := run (deployed 9) funded in
  chronological 0 funded = true
  ∧ failure s (mkTx 5 60 (DisburseFunds 1) plain) = None
  ∧ failure s (mkTx 5 60 (DisburseFunds 1) refusing)
    = Some DisburseTransferFailed
  ∧ failure s (mkTx 7 60 (DisburseFunds 1) plain) = Some Unauthorized
  ∧ balance (transact s (mkTx 5 60 (DisburseFunds 1) plain)) = 0.
Proof.
  intros s.
  assert (chronological 0 funded = true) as Hc by (vm_compute; reflexivity).
  destruct (disburseFunds_rejections 9 0 funded 5 60 1 plain Hc)
    as (Hpaid & _ & Hleft).
  split; [exact Hc|]. split; [exact Hpaid|].
  split; [exact (proj1 (disburseFunds_rejections 9 0 funded 5 60 1 refusing
                          Hc))|].
  split; [exact (proj1 (disburseFunds_rejections 9 0 funded 7 60 1 plain
                          Hc))|].
  etrans; [exact (proj2 (Hleft Hpaid))|]. vm_compute; reflexivity.
Defined.

(** Without the premise on the timestamps the transfer can fail for lack
    of ether: after [refilled] the pool's goal is achieved, but the contract
    holds 60 of the 100 it would have to send. *)
Lemma disburseFunds_short_of_ether :
  let s := run (deployed 9) refilled in
  chronological 0 refilled = false
  ∧ goalAchieved (poolAt 1 s) = true
  ∧ currentAmount (poolAt 1 s) = 100
  ∧ balance s = 60
  ∧ failure s (mkTx 5 60 (DisburseFunds 1) plain)
    = Some DisburseTransferFailed.
Proof. vm_compute. by repeat split. Qed.

(** X6.  Along any history whose block timestamps do not go back,
    [claimRefund] is rejected with [PoolNotFound] on an unused id, else
    with [DeadlineNotReached] before the deadline, else with
    [GoalWasAchieved], else with [NoContribution] when the caller's ledger
    entry is zero, else with the transfer failure when the caller does not
    accept the value; in every other case it is accepted, because the
    contract then holds the caller's entry, which leaves its balance.  A
    rejected call changes nothing. *)
Theorem claimRefund_rejections deployer t0 txs from now pid callee :
  chronological t0 txs = true →
  let s := run (deployed deployer) txs in
  let p := poolAt pid s in
  let tx := mkTx from now (ClaimRefund pid) callee in
  failure s tx
  = (if initiator p =? 0 then Some PoolNotFound
     else if now <? deadlineTimestamp p then Some DeadlineNotReached
     else if goalAchieved p then Some GoalWasAchieved
     else if contributionOf from p <=? 0 then Some NoContribution
     else if accepts callee then None
     else Some RefundTransferFailed)
  ∧ (failure s tx ≠ None → transact s tx = s)
  ∧ (failure s tx = None →
     contributionOf from p ≤ balance s
     ∧ balance (transact s tx) = balance s - contributionOf from p).
Proof.
  intros Hc s p tx.
  destruct (enough_ether deployer t0 txs pid Hc) as (_ & _ & Hback & _).
  fold s p in Hback.
  assert (failure s tx
          = (if initiator p =? 0 then Some PoolNotFound
             else if now <? deadlineTimestamp p then Some DeadlineNotReached
             else if goalAchieved p then Some GoalWasAchieved
             else if contributionOf from p <=? 0 then Some NoContribution
             else if accepts callee then None
             else Some RefundTransferFailed)) as Htable.
  { unfold tx. rewrite failure_ClaimRefund by by apply idle_run.
    cbn zeta. fold p.
    destruct (initiator p =? 0); [done|].
    destruct (now <? _); [done|].
    destruct (goalAchieved p) eqn:Hg; [done|].
    destruct (_ <=? 0); [done|].
    by rewrite (proj2 (Z.leb_le _ _)) by by apply Hback. }
  split; [exact Htable|]. split; [apply transact_failed|].
  intros Hnone. unfold failure in Hnone. unfold transact.
  destruct (execute tx s) as [r s'|f dirty] eqn:He; [|done].
  apply execute_ClaimRefund in He as (_ & _ & _ & _ & _ & [Hle _] & _ & ->).
  split; [exact Hle|].
  unfold after_claimRefund. cbn [balance set_status log_event debit].
  rewrite (balance_callbacks (λ _, True) now (refunding from pid s)); [done|].
  apply after_calls_callbacks; [done | by apply Forall_true].
Qed.

Lemma claimRefund_rejections_witness :
  let s := run (deployed 9) (take 4 expired) in
  chronological 0 (take 4 expired) = true
  ∧ failure s (mkTx 7 60 (ClaimRefund 1) plain) = None
  ∧ failure s (mkTx 7 60 (ClaimRefund 1) refusing)
    = Some RefundTransferFailed
  ∧ failure s (mkTx 9 60 (ClaimRefund 1) plain) = Some NoContribution
  ∧ balance (transact s (mkTx 7 60 (ClaimRefund 1) plain)) = 20.
Proof.
  intros s.
  assert (chronological 0 (take 4 expired) = true) as Hc
    by (vm_compute; reflexivity).
  destruct (claimRefund_rejections 9 0 (take 4 expired) 7 60 1 plain Hc)
    as (Hpaid & _ & Hleft).
  split; [exact Hc|]. split; [exact Hpaid|].
  split; [exact (proj1 (claimRefund_rejections 9 0 (take 4 expired) 7 60 1
                          refusing Hc))|].
  split; [exact (proj1 (claimRefund_rejections 9 0 (take 4 expired) 9 60 1
                          plain Hc))|].
  etrans; [exact (proj2 (Hleft Hpaid))|]. vm_compute; reflexivity.
Defined.

(** X7.  The terms a pool was created with (initiator, beneficiary,
    description, goal and deadline) are the same after any further
    transactions, and its id stays in use. *)
Theorem pool_terms_never_change deployer txs more pid :
  let s := run (deployed deployer) txs in
  let s' := run (deployed deployer) (txs ++ more) in
  initiator (poolAt pid s) ≠ 0 →
  terms (poolAt pid s') = terms (poolAt pid s)
  ∧ initiator (poolAt pid s') ≠ 0
  ∧ 1 ≤ pid < _poolIdCounter s'.
Proof.
  intros s s' Hi.
  assert (sound s) as Hs by apply sound_run, sound_deployed.
  destruct (in_use s pid Hs Hi) as [H1 Hlt].
  destruct (terms_run pid s more Hs Hlt) as (Hlt' & Heq).
  unfold s'. rewrite run_app. fold s. split; [done|].
  split; [|lia].
  assert (initiator (poolAt pid (run s more)) = initiator (poolAt pid s))
    as -> by (unfold terms in Heq; congruence).
  done.
Qed.

Lemma pool_terms_never_change_witness :
  initiator (poolAt 1 (run (deployed 9) (take 1 expired))) ≠ 0
  ∧ terms (poolAt 1 (run (deployed 9) (take 1 expired ++ drop 1 expired)))
    = (5, 6, "roof"%string, 100, 50).
Proof.
  assert (initiator (poolAt 1 (run (deployed 9) (take 1 expired))) ≠ 0) as Hi
    by (vm_compute; discriminate).
  split; [exact Hi|].
  rewrite (proj1 (pool_terms_never_change 9 (take 1 expired) (drop 1 expired)
                    1 Hi)).
  vm_compute; reflexivity.
Defined.

(** X8.  The flags are final: once [goalAchieved] is set on a pool it is set
    after any further transactions, and so is [fundsDisbursed]. *)
Theorem flags_are_final deployer txs more pid :
  let s := run (deployed deployer) txs in
  let s' := run (deployed deployer) (txs ++ more) in
  (goalAchieved (poolAt pid s) = true → goalAchieved (poolAt pid s') = true)
  ∧ (fundsDisbursed (poolAt pid s) = true →
     fundsDisbursed (poolAt pid s') = true).
Proof.
  intros s s'. unfold s'. rewrite run_app. apply flags_run.
  apply sound_run, sound_deployed.
Qed.

(** X9.  A pool is paid out at most once: after an accepted [disburseFunds]
    every later [disburseFunds] on the same pool is rejected, with
    [AlreadyDisbursed] when it comes from the initiator or the owner and
    with [Unauthorized] otherwise. *)
Theorem disburseFunds_at_most_once deployer before tx1 between tx2 pid :
  let s1 := run (deployed deployer) before in
  let s2 := run (deployed deployer) (before ++ tx1 :: between) in
  tx_call tx1 = DisburseFunds pid →
  tx_call tx2 = DisburseFunds pid →
  succeeds s1 tx1 = true →
  failure s2 tx2
  = Some (if (tx_from tx2 =? initiator (poolAt pid s2))
             || (tx_from tx2 =? _owner s2)
          then AlreadyDisbursed else Unauthorized)
  ∧ transact s2 tx2 = s2.
Proof.
  intros s1 s2 H1 H2 Hok.
  assert (sound s1) as Hs1 by apply sound_run, sound_deployed.
  assert (sound s2) as Hs2 by apply sound_run, sound_deployed.
  assert (fundsDisbursed (poolAt pid (transact s1 tx1)) = true) as Hpaid.
  { unfold succeeds in Hok. destruct tx1 as [from now c callee].
    simpl in H1. subst c.
    destruct (execute _ s1) as [r s'|f dirty] eqn:He; [|done].
    pose proof He as He'.
    apply execute_DisburseFunds in He' as (_ & Hi & _).
    destruct (pool_transact pid s1 (mkTx from now (DisburseFunds pid) callee)
                Hs1) as (_ & ->); [by apply in_use|].
    unfold succeeds. rewrite He. cbn [tx_call]. by rewrite decide_True. }
  assert (s2 = run (transact s1 tx1) between) as Hs2eq.
  { unfold s2. by rewrite run_app. }
  assert (fundsDisbursed (poolAt pid s2) = true) as Hf.
  { rewrite Hs2eq. apply flags_run; [by apply sound_transact | done]. }
  assert (goalAchieved (poolAt pid s2) = true) as Hg.
  { by apply (settled_paid _ (settled_everywhere deployer
                                (before ++ tx1 :: between) pid)). }
  assert (initiator (poolAt pid s2) ≠ 0) as Hi
    by by apply goalAchieved_exists.
  assert (failure s2 tx2
          = Some (if (tx_from tx2 =? initiator (poolAt pid s2))
                     || (tx_from tx2 =? _owner s2)
                  then AlreadyDisbursed else Unauthorized)) as Hfail.
  { destruct tx2 as [from now c callee]. simpl in H2. subst c.
    rewrite failure_DisburseFunds by by apply idle_run.
    cbn [tx_from]. apply Z.eqb_neq in Hi. rewrite Hi, Hg, Hf.
    by destruct (_ || _). }
  split; [done|]. apply transact_failed. by rewrite Hfail.
Qed.

Lemma disburseFunds_at_most_once_witness :
  let tx := mkTx 5 60 (DisburseFunds 1) plain in
  succeeds (run (deployed 9) funded) tx = true
  ∧ failure (run (deployed 9) (funded ++ [tx])) (mkTx 5 61 (DisburseFunds 1) plain)
    = Some AlreadyDisbursed
  ∧ failure (run (deployed 9) (funded ++ [tx])) (mkTx 7 61 (DisburseFunds 1) plain)
    = Some Unauthorized.
Proof.
  intros tx.
  assert (succeeds (run (deployed 9) funded) tx = true) as Hok
    by (vm_compute; reflexivity).
  split; [exact Hok|]. split.
  - exact (proj1 (disburseFunds_at_most_once 9 funded tx []
                    (mkTx 5 61 (DisburseFunds 1) plain) 1 eq_refl eq_refl Hok)).
  - exact (proj1 (disburseFunds_at_most_once 9 funded tx []
                    (mkTx 7 61 (DisburseFunds 1) plain) 1 eq_refl eq_refl Hok)).
Defined.

(** X10.  An accepted [disburseFunds] sets [fundsDisbursed] on a pool that
    was not paid before and changes nothing else of the pool nor of any
    other pool in use; the last entry of the log is [FundsDisbursed] with
    the pool's beneficiary and its [currentAmount], and the guard is open
    again. *)
Theorem disburseFunds_effect deployer txs from now pid callee :
  let s := run (deployed deployer) txs in
  let tx := mkTx from now (DisburseFunds pid) callee in
  let s' := transact s tx in
  let p := poolAt pid s in
  succeeds s tx = true →
  fundsDisbursed p = false
  ∧ poolAt pid s' = set_fundsDisbursed true p
  ∧ (∀ other, other ≠ pid → other < _poolIdCounter s →
       poolAt other s' = poolAt other s)
  ∧ last (events s')
    = Some (FundsDisbursed pid (beneficiary p) (currentAmount p))
  ∧ _status s' = _NOT_ENTERED.
Proof.
  intros s tx s' p Hok.
  assert (sound s) as Hs by apply sound_run, sound_deployed.
  assert (∀ k, k < _poolIdCounter s →
            poolAt k s' =
            if decide (pid = k) then set_fundsDisbursed true (poolAt k s)
            else poolAt k s) as Hpool.
  { intros k Hk. destruct (pool_transact k s tx Hs Hk) as (_ & Heq).
    fold s' in Heq. by rewrite Hok in Heq. }
  unfold succeeds in Hok.
  destruct (execute tx s) as [r s1|f dirty] eqn:He; [clear Hok|done].
  assert (s' = s1) as Hs' by (unfold s', transact; by rewrite He).
  apply execute_DisburseFunds in He as (_ & Hi & _ & _ & Hf & _ & _ & _ & ->).
  destruct (in_use s pid Hs Hi) as [_ Hlt].
  assert (poolAt pid s' = set_fundsDisbursed true p) as Hp'.
  { rewrite Hpool by done. by rewrite decide_True. }
  split; [done|]. split; [done|]. split.
  { intros other Hne Hother. rewrite Hpool by done. by rewrite decide_False. }
  split; [|by rewrite Hs'].
  assert (poolAt pid (after_calls now (reentrant callee) (disbursing pid s))
          = set_fundsDisbursed true p) as Hp2.
  { rewrite <- (poolAt_after_disburseFunds now callee pid pid s), <- Hs'.
    exact Hp'. }
  rewrite Hs'. unfold after_disburseFunds. cbn [events set_status log_event].
  by rewrite last_snoc, Hp2.
Qed.

Lemma disburseFunds_effect_witness :
  let s := run (deployed 9) funded in
  let tx := mkTx 5 60 (DisburseFunds 1) busy in
  succeeds s tx = true
  ∧ fundsDisbursed (poolAt 1 s) = false
  ∧ fundsDisbursed (poolAt 1 (transact s tx)) = true
  ∧ last (events (transact s tx)) = Some (FundsDisbursed 1 6 100).
Proof.
  intros s tx.
  assert (succeeds s tx = true) as Hok by (vm_compute; reflexivity).
  destruct (disburseFunds_effect 9 funded 5 60 1 busy Hok)
    as (Hf & Hp & _ & Hl & _).
  split; [exact Hok|]. split; [exact Hf|]. split.
  - unfold s, tx. rewrite Hp. reflexivity.
  - unfold s, tx. rewrite Hl. vm_compute; reflexivity.
Defined.


(** X11.  A contribution is refunded at most once: along a history whose
    block timestamps do not go back, after an accepted [claimRefund] every
    later [claimRefund] of the same caller on the same pool is rejected with
    [NoContribution]. *)
Theorem claimRefund_at_most_once deployer t0 before tx1 between tx2 pid :
  let s1 := run (deployed deployer) before in
  let s2 := run (deployed deployer) (before ++ tx1 :: between) in
  chronological t0 (before ++ tx1 :: between ++ [tx2]) = true →
  tx_call tx1 = ClaimRefund pid →
  tx_call tx2 = ClaimRefund pid →
  tx_from tx2 = tx_from tx1 →
  succeeds s1 tx1 = true →
  failure s2 tx2 = Some NoContribution ∧ transact s2 tx2 = s2.
Proof.
  intros s1 s2 Hc H1 H2 Hfrom Hok.
  assert (sound s1) as Hs1 by apply sound_run, sound_deployed.
  assert (sound s2) as Hs2 by apply sound_run, sound_deployed.
  apply chronological_app in Hc.
  apply chronological_snoc in Hc as [Hc Hlate].
  set (s1' := transact s1 tx1).
  assert (sound s1') as Hs1' by by apply sound_transact.
  assert (s2 = run s1' between) as Hs2eq by (unfold s2; by rewrite run_app).
  assert (s1' = run (deployed deployer) (before ++ [tx1])) as Hs1eq
    by by rewrite run_app.
  (* the pool when the first refund is accepted *)
  assert (initiator (poolAt pid s1) ≠ 0
          ∧ deadlineTimestamp (poolAt pid s1) ≤ tx_time tx1
          ∧ goalAchieved (poolAt pid s1) = false) as (Hi & Hd & Hg).
  { unfold succeeds in Hok. destruct tx1 as [from now c callee].
    simpl in H1. subst c.
    destruct (execute _ s1) as [r s'|f dirty] eqn:He; [|done].
    by apply execute_ClaimRefund in He as (_ & ? & ? & ? & _). }
  destruct (in_use s1 pid Hs1 Hi) as [_ Hlt].
  destruct (pool_transact pid s1 tx1 Hs1 Hlt) as (Hlt' & Hp1).
  rewrite Hok, H1, decide_True in Hp1 by done. fold s1' in Hlt', Hp1.
  (* nothing is contributed after the deadline *)
  assert (∀ who, contributed pid who s1' between = 0) as Hnone.
  { intros who. apply (contributed_after_deadline pid who (tx_time tx1));
      try done. by rewrite Hp1. }
  destruct (terms_run pid s1' between Hs1' Hlt') as (_ & Hterms).
  rewrite <- Hs2eq, Hp1 in Hterms. unfold terms in Hterms. simpl in Hterms.
  assert (initiator (poolAt pid s2) = initiator (poolAt pid s1)
          ∧ goalAmount (poolAt pid s2) = goalAmount (poolAt pid s1)
          ∧ deadlineTimestamp (poolAt pid s2)
            = deadlineTimestamp (poolAt pid s1)) as (Hi2 & Hgoal2 & Hd2)
    by (repeat split; congruence).
  assert (currentAmount (poolAt pid s2) = currentAmount (poolAt pid s1))
    as Hcur2.
  { rewrite Hs2eq, currentAmount_run, Hnone, Hp1 by done. simpl. lia. }
  assert (goalAchieved (poolAt pid s2) = false) as Hg2.
  { pose proof (settled_flag _ (settled_everywhere deployer
                   (before ++ tx1 :: between) pid)) as Hfl.
    pose proof (settled_flag _ (settled_everywhere deployer before pid))
      as Hfl1.
    fold s2 in Hfl. fold s1 in Hfl1.
    destruct Hfl as [Hfl | [_ Hfl]]; [|done].
    destruct Hfl1 as [Hfl1 | [Hz _]]; [|done].
    rewrite Hfl, Hgoal2, Hcur2, <- Hfl1. done. }
  assert (contributionOf (tx_from tx1) (poolAt pid s2) = 0) as Hzero.
  { pose proof (contributionOf_run_le pid (tx_from tx1) s1' between Hs1')
      as Hle.
    rewrite <- Hs2eq, Hnone, Hp1, contributionOf_set_eq in Hle.
    pose proof (sound_ledger s2 Hs2 pid (tx_from tx1)). lia. }
  assert (failure s2 tx2 = Some NoContribution) as Hfail.
  { destruct tx2 as [from now c callee]. simpl in H2, Hfrom, Hlate.
    subst c from.
    rewrite failure_ClaimRefund by by apply idle_run.
    cbn zeta. rewrite Hg2, Hzero, Hi2, Hd2.
    apply Z.eqb_neq in Hi. rewrite Hi.
    assert ((now <? deadlineTimestamp (poolAt pid s1)) = false) as ->
      by (apply Z.ltb_ge; lia).
    done. }
  split; [done|]. apply transact_failed. by rewrite Hfail.
Qed.

Lemma claimRefund_at_most_once_witness :
  let tx2 := mkTx 7 61 (ClaimRefund 1) plain in
  chronological 0 (expired ++ [tx2]) = true
  ∧ failure (run (deployed 9) expired) tx2 = Some NoContribution.
Proof.
  intros tx2.
  assert (chronological 0 (take 4 expired ++ mkTx 7 60 (ClaimRefund 1) plain
                             :: [] ++ [tx2]) = true) as Hc
    by (vm_compute; reflexivity).
  assert (succeeds (run (deployed 9) (take 4 expired))
            (mkTx 7 60 (ClaimRefund 1) plain) = true) as Hok
    by (vm_compute; reflexivity).
  split; [exact Hc|].
  exact (proj1 (claimRefund_at_most_once 9 0 (take 4 expired)
                  (mkTx 7 60 (ClaimRefund 1) plain) [] tx2 1
                  Hc eq_refl eq_refl eq_refl Hok)).
Defined.

(** ** The contributors list *)

Lemma contributors_after_createPool msg b d g t s pid :
  sound s →
  contributors (poolAt pid (after_createPool msg b d g t s))
  = contributors (poolAt pid s).
Proof.
  intros Hs. destruct (decide (pid = _poolIdCounter s)) as [-> | Hne].
  - rewrite (sound_slot s Hs). unfold poolAt, after_createPool; simpl.
    by rewrite lookup_insert_eq.
  - destruct (after_createPool_frame msg b d g t s pid Hs) as (Hsame & _).
    by rewrite Hsame.
Qed.

Lemma contributors_callbacks ok now s s' :
  callbacks ok now s s' → sound s →
  ∀ pid, contributors (poolAt pid s') = contributors (poolAt pid s).
Proof.
  induction 1 as [s | s from b d g t s' _ Hb Hg Ht _ _ IH | s a s' _ IH];
    intros Hs pid; [done | |].
  - rewrite IH by by apply sound_after_createPool.
    by apply contributors_after_createPool.
  - by rewrite IH by by apply sound_after_transferOwnership.
Qed.

(** One transaction changes a contributors list only by appending the
    caller of an accepted contribution whose ledger entry was zero. *)
Lemma contributors_transact pid s tx :
  sound s →
  contributors (poolAt pid (transact s tx)) =
  contributors (poolAt pid s) ++
  match tx_call tx with
  | Contribute p _ =>
      if succeeds s tx && bool_decide (p = pid)
         && (contributionOf (tx_from tx) (poolAt pid s) =? 0)
      then [tx_from tx] else []
  | _ => []
  end.
Proof.
  intros Hs. unfold transact, succeeds.
  destruct tx as [from now [b d g t|p v|p|p|w|] callee]; cbn [tx_call tx_from];
    destruct (execute _ s) as [r s'|f dirty] eqn:He;
    rewrite ?app_nil_r; try done.
  - apply execute_CreatePool in He as (_ & _ & _ & _ & _ & ->).
    by apply contributors_after_createPool.
  - apply execute_Contribute in He as (_ & _ & _ & _ & _ & _ & _ & _ & ->).
    rewrite poolAt_after_contribute. cbn [sender value andb].
    case_decide; case_bool_decide; try done; subst; simpl;
      [|by rewrite app_nil_r].
    destruct (_ =? 0); [done | by rewrite app_nil_r].
  - apply execute_DisburseFunds in He as (_ & Hi & _ & _ & _ & _ & _ & _ & ->).
    rewrite poolAt_after_disburseFunds.
    rewrite (contributors_callbacks (λ _, True) now (disbursing p s));
      [ | apply after_calls_callbacks; [done | by apply Forall_true]
        | by apply sound_disbursing ].
    rewrite poolAt_disbursing. by case_decide.
  - apply execute_ClaimRefund in He as (_ & Hi & _ & _ & _ & _ & _ & ->).
    rewrite poolAt_after_claimRefund.
    rewrite (contributors_callbacks (λ _, True) now (refunding from p s));
      [ | apply after_calls_callbacks; [done | by apply Forall_true]
        | by apply sound_refunding ].
    rewrite poolAt_refunding. by case_decide.
  - by apply execute_TransferOwnership in He as ->.
  - by apply execute_RenounceOwnership in He as ->.
Qed.

Lemma listed_transact pid a s tx :
  sound s →
  a ∈ contributors (poolAt pid (transact s tx))
  ↔ a ∈ contributors (poolAt pid s) ∨ 0 < attached_to pid (Some a) s tx.
Proof.
  intros Hs. rewrite contributors_transact by done.
  rewrite elem_of_app. unfold attached_to.
  destruct (tx_call tx) as [b d g t|p v| | | |] eqn:Hcall;
    try (rewrite elem_of_nil; intuition lia).
  destruct (succeeds s tx) eqn:Hok; cbn [andb];
    [|rewrite elem_of_nil; intuition lia].
  assert (0 < v) as Hv.
  { unfold succeeds in Hok. destruct tx as [from now c callee].
    simpl in Hcall. subst c.
    destruct (execute _ s) as [r s'|f dirty] eqn:He; [|done].
    by apply execute_Contribute in He as (_ & _ & _ & _ & ? & _). }
  case_bool_decide as Hp; cbn [andb]; [|rewrite elem_of_nil; intuition lia].
  case_bool_decide as Ha; cbn [andb].
  - destruct (_ =? 0) eqn:Hz.
    + rewrite list_elem_of_singleton. intuition.
    + rewrite elem_of_nil. apply Z.eqb_neq in Hz. subst a.
      pose proof (sound_listed s Hs pid (tx_from tx) Hz). intuition.
  - destruct (_ =? 0); [rewrite list_elem_of_singleton | rewrite elem_of_nil];
      intuition (try lia; congruence).
Qed.

Lemma contributed_nonneg pid who s txs : 0 ≤ contributed pid who s txs.
Proof.
  revert s. induction txs as [|tx txs IH]; intros s; [done|].
  cbn [contributed].
  pose proof (attached_to_nonneg pid who s tx). specialize (IH (transact s tx)).
  lia.
Qed.

Lemma listed_run pid a s txs :
  sound s →
  a ∈ contributors (poolAt pid (run s txs))
  ↔ a ∈ contributors (poolAt pid s) ∨ 0 < contributed pid (Some a) s txs.
Proof.
  revert s. induction txs as [|tx txs IH]; intros s Hs.
  { cbn [run fold_left contributed]. intuition lia. }
  change (run s (tx :: txs)) with (run (transact s tx) txs).
  rewrite IH by by apply sound_transact.
  rewrite listed_transact by done. cbn [contributed].
  pose proof (attached_to_nonneg pid (Some a) s tx).
  pose proof (contributed_nonneg pid (Some a) (transact s tx) txs).
  intuition lia.
Qed.

Lemma contributors_prefix pid s txs :
  sound s →
  contributors (poolAt pid s) `prefix_of` contributors (poolAt pid (run s txs)).
Proof.
  revert s. induction txs as [|tx txs IH]; intros s Hs; [done|].
  change (run s (tx :: txs)) with (run (transact s tx) txs).
  etrans; [|apply IH; by apply sound_transact].
  rewrite contributors_transact by done. by apply prefix_app_r.
Qed.

(** X12.  The contributors list of a pool holds exactly the addresses that
    made an accepted contribution to it, and it only grows at its end:
    the list after further transactions starts with the list before.
    [getContributors] returns it. *)
Theorem contributors_are_who_contributed deployer txs pid :
  let g := deployed deployer in
  let s := run g txs in
  (∀ a, a ∈ contributors (poolAt pid s)
        ↔ 0 < contributed pid (Some a) g txs)
  ∧ (∀ more, contributors (poolAt pid s)
             `prefix_of` contributors (poolAt pid (run g (txs ++ more))))
  ∧ (initiator (poolAt pid s) ≠ 0 →
     getContributors pid s = Done (contributors (poolAt pid s)) s).
Proof.
  intros g s. split; [|split].
  - intros a. unfold s. rewrite listed_run by apply sound_deployed.
    unfold g, poolAt; simpl. rewrite lookup_empty. simpl.
    rewrite elem_of_nil. intuition.
  - intros more. rewrite run_app. apply contributors_prefix.
    apply sound_run, sound_deployed.
  - intros Hi%Z.eqb_neq. unfold getContributors. run_monad. by rewrite Hi.
Qed.

(** ** Calls made by the recipient of a transfer *)

Lemma nested_guarded now s rc :
  _status s = _ENTERED → guarded rc.2 = true → nested now s rc = s.
Proof.
  intros Hst Hg. unfold nested, dispatch.
  destruct rc as [from [b d g t|p v|p|p|w|]]; simpl in Hg; try done;
    cbn [fst snd]; cbv [mbind M_bind mret M_ret].
  - unfold pay, modify, contribute. by rewrite nonReentrant_entered.
  - unfold disburseFunds. by rewrite nonReentrant_entered.
  - unfold claimRefund. by rewrite nonReentrant_entered.
Qed.

Lemma after_calls_unguarded now rcs s :
  _status s = _ENTERED →
  after_calls now (filter (λ rc : Z * Call, guarded rc.2 = false) rcs) s
  = after_calls now rcs s.
Proof.
  revert s. induction rcs as [|rc rcs IH]; intros s Hst; [done|].
  destruct (guarded rc.2) eqn:Hg.
  - rewrite filter_cons_False by by rewrite Hg.
    cbn [after_calls fold_left]. rewrite nested_guarded by done.
    by apply IH.
  - rewrite filter_cons_True by done.
    cbn [after_calls fold_left]. apply IH. by apply status_nested.
Qed.

Lemma execute_unguarded s tx :
  _status s = _NOT_ENTERED →
  transact s (without_guarded_calls tx) = transact s tx
  ∧ failure s (without_guarded_calls tx) = failure s tx.
Proof.
  intros Hst.
  destruct tx as [from now [b d g t|p v|p|p|w|] callee]; try done.
  - assert (failure s (without_guarded_calls
                         (mkTx from now (DisburseFunds p) callee))
            = failure s (mkTx from now (DisburseFunds p) callee)) as Hf
      by (unfold without_guarded_calls;
          cbn [tx_from tx_time tx_call tx_callee];
          by rewrite !failure_DisburseFunds).
    split; [|done]. revert Hf. unfold failure, transact.
    destruct (execute (without_guarded_calls _) s) as [r1 s1|f1 d1] eqn:H1;
      destruct (execute (mkTx _ _ _ callee) s) as [r2 s2|f2 d2] eqn:H2;
      try done.
    intros _. unfold without_guarded_calls in H1. cbn [tx_from tx_time tx_call
      tx_callee] in H1.
    apply execute_DisburseFunds in H1 as (_ & _ & _ & _ & _ & _ & _ & _ & ->).
    apply execute_DisburseFunds in H2 as (_ & _ & _ & _ & _ & _ & _ & _ & ->).
    unfold after_disburseFunds. cbn [reentrant].
    by rewrite after_calls_unguarded.
  - assert (failure s (without_guarded_calls
                         (mkTx from now (ClaimRefund p) callee))
            = failure s (mkTx from now (ClaimRefund p) callee)) as Hf
      by (unfold without_guarded_calls;
          cbn [tx_from tx_time tx_call tx_callee];
          by rewrite !failure_ClaimRefund).
    split; [|done]. revert Hf. unfold failure, transact.
    destruct (execute (without_guarded_calls _) s) as [r1 s1|f1 d1] eqn:H1;
      destruct (execute (mkTx _ _ _ callee) s) as [r2 s2|f2 d2] eqn:H2;
      try done.
    intros _. unfold without_guarded_calls in H1. cbn [tx_from tx_time tx_call
      tx_callee] in H1.
    apply execute_ClaimRefund in H1 as (_ & _ & _ & _ & _ & _ & _ & ->).
    apply execute_ClaimRefund in H2 as (_ & _ & _ & _ & _ & _ & _ & ->).
    unfold after_claimRefund. cbn [reentrant].
    by rewrite after_calls_unguarded.
Qed.

(** X13.  While [disburseFunds] or [claimRefund] pays, the recipient's calls
    to [contribute], [disburseFunds] and [claimRefund] are all rejected by
    the guard: leaving them out of every transaction of a history gives the
    same storage, and the next transaction is accepted or rejected alike. *)
Theorem reentrant_guarded_calls_do_nothing deployer txs tx :
  run (deployed deployer) (map without_guarded_calls txs)
  = run (deployed deployer) txs
  ∧ failure (run (deployed deployer) txs) (without_guarded_calls tx)
    = failure (run (deployed deployer) txs) tx
  ∧ ∀ from call,
      guarded call = true →
      nested (tx_time tx)
        (set_status _ENTERED (run (deployed deployer) txs)) (from, call)
      = set_status _ENTERED (run (deployed deployer) txs).
Proof.
  assert (∀ s, _status s = _NOT_ENTERED →
            run s (map without_guarded_calls txs) = run s txs) as Hrun.
  { induction txs as [|x txs IH]; intros s Hst; [done|].
    cbn [map]. change (run s (?y :: ?l)) with (run (transact s y) l).
    rewrite (proj1 (execute_unguarded s x Hst)).
    apply IH. by apply idle_transact. }
  split; [by apply Hrun|]. split.
  - apply execute_unguarded. by apply idle_run.
  - intros from call Hg. by apply nested_guarded.
Qed.

(** ** Create2Factory: when [deploy] fails *)

Lemma deploy_eq run_init this bytecode salt w :
  deploy run_init this bytecode salt w =
  let target := create2_address this salt bytecode in
  match code_at w !! target, run_init bytecode with
  | None, Some runtime =>
      if target =? 0 then inl DeploymentFailed
      else inr (target,
                mkWorld (<[target := runtime]> (code_at w))
                  (deployments w ++ [ContractDeployed target salt]))
  | _, _ => inl DeploymentFailed
  end.
Proof.
  unfold deploy, create2.
  generalize (create2_address this salt bytecode). intros target.
  cbn zeta.
  destruct (code_at w !! target); [reflexivity|].
  destruct (run_init bytecode); reflexivity.
Qed.

(** X14.  [deploy] fails exactly when the address is taken, the init code
    fails, or the address CREATE2 would give is zero, and then always with
    the factory's own message; otherwise it returns that address, which is
    not zero and now holds the code the init code returned, and logs
    [ContractDeployed] with it and the salt as its last event. *)
Theorem deploy_fails_iff run_init this bytecode salt w :
  let target := create2_address this salt bytecode in
  (∀ f, deploy run_init this bytecode salt w = inl f ↔
        f = DeploymentFailed
        ∧ (is_Some (code_at w !! target) ∨ run_init bytecode = None
           ∨ target = 0))
  ∧ (∀ a w', deploy run_init this bytecode salt w = inr (a, w') →
       a = target ∧ a ≠ 0
       ∧ code_at w' !! a = run_init bytecode
       ∧ last (deployments w') = Some (ContractDeployed a salt)).
Proof.
  intros target. rewrite deploy_eq. cbn zeta. subst target.
  generalize (create2_address this salt bytecode). intros target.
  destruct (code_at w !! target) as [c|] eqn:Hfree.
  { split; [|intros a w' [=]]. intros f. split.
    - intros [= <-]. split; [done|]. left. by eexists.
    - by intros [-> _]. }
  destruct (run_init bytecode) as [runtime|] eqn:Hrun.
  2:{ split; [|intros a w' [=]]. intros f. split.
      - intros [= <-]. split; [done|]. right. by left.
      - by intros [-> _]. }
  destruct (target =? 0) eqn:Hz.
  { apply Z.eqb_eq in Hz. split; [|intros a w' [=]]. intros f. split.
    - intros [= <-]. split; [done|]. right. by right.
    - by intros [-> _]. }
  apply Z.eqb_neq in Hz. split.
  - intros f. split; [intros [=]|].
    intros [_ [[x [=]] | [[=] | ?]]]. done.
  - intros a w' [= <- <-]. cbn [code_at deployments].
    split; [done|]. split; [done|]. split.
    + by rewrite lookup_insert_eq.
    + by rewrite last_snoc.
Qed.

(** X15.  The same bytecode cannot be deployed twice with the same salt:
    after a successful [deploy] a second one with the same arguments fails,
    whatever was deployed in between. *)
Theorem deploy_twice_fails run_init this bytecode salt w a w' rest :
  deploy run_init this bytecode salt w = inr (a, w') →
  (∀ w1 b s r, deploy run_init this b s w1 = inr r →
               is_Some (code_at w1 !! a) → is_Some (code_at r.2 !! a))
  ∧ (code_at rest !! a = code_at w' !! a →
     deploy run_init this bytecode salt rest = inl DeploymentFailed).
Proof.
  intros Hd. apply deploy_inr in Hd as (Ha & Hfree & runtime & Hrun & ->).
  split.
  - intros w1 b s [a1 w1'] Hd1 Hsome. cbn [snd].
    apply deploy_inr in Hd1 as (_ & Hfree1 & runtime1 & _ & ->).
    cbn [code_at]. destruct (decide (a1 = a)) as [-> | Hne].
    + rewrite lookup_insert_eq. by eexists.
    + by rewrite lookup_insert_ne.
  - cbn [code_at]. rewrite lookup_insert_eq. intros Hrest.
    rewrite deploy_eq. cbn zeta. rewrite <- Ha. clear Ha Hfree.
    revert Hrest. generalize a. intros target Hrest.
    by rewrite Hrest.
Qed.

Lemma deploy_twice_fails_witness :
  let w := mkWorld ∅ [] in
  let a := 0x4D1A2e2bB4F88F0250f26Ffff098B0b30B26BF38 in
  let w' := mkWorld {[a := [Byte.x00]]} [ContractDeployed a 0] in
  deploy Some 0 [Byte.x00] 0 w = inr (a, w')
  ∧ deploy Some 0 [Byte.x00] 0 w' = inl DeploymentFailed.
Proof.
  intros w a w'.
  assert (deploy Some 0 [Byte.x00] 0 w = inr (a, w')) as Hd
    by (vm_compute; reflexivity).
  split; [exact Hd|].
  exact (proj2 (deploy_twice_fails Some 0 [Byte.x00] 0 w a w' w' Hd) eq_refl).
Defined.

Lemma length_encodePacked this salt hash :
  length (encodePacked this salt hash) = 85%nat.
Proof.
  unfold encodePacked. rewrite !length_app, !length_be_bytes. reflexivity.
Qed.

Lemma to_address_range hash : 0 ≤ to_address hash < 2 ^ 160.
Proof.
  unfold to_address, MAX_UINT160.
  change (2 ^ 160 - 1) with (Z.ones 160).
  rewrite Z.land_ones by lia. apply Z.mod_pos_bound. lia.
Qed.

(** X16.  The value both [computeAddress] and [computeAddressFromHash]
    return is an address: it fits 160 bits, and it is computed from a
    pre-image of 85 bytes whatever the length of the bytecode. *)
Theorem computeAddress_is_an_address this bytecode bytecodeHash salt :
  0 ≤ computeAddress this bytecode salt < 2 ^ 160
  ∧ 0 ≤ computeAddressFromHash this bytecodeHash salt < 2 ^ 160
  ∧ length (encodePacked this salt (keccak256 bytecode)) = 85%nat
  ∧ length (encodePacked this salt bytecodeHash) = 85%nat.
Proof.
  split; [apply to_address_range|]. split; [apply to_address_range|].
  split; apply length_encodePacked.
Qed.

(** ** The front end's status and what the contract does *)

(** X17.  What the status the front end shows means for the next call, when
    its clock reads the block's timestamp and block timestamps have not
    gone back: on a pool shown as DISBURSED or
    GOAL_ACHIEVED both [contribute] and [claimRefund] are rejected; on a
    pool shown as EXPIRED [contribute] is rejected with [DeadlinePassed]
    and a refund goes to whoever has a ledger entry; a pool shown as ACTIVE
    takes contributions, except in the block whose timestamp is the
    deadline, where it is still shown as ACTIVE but [contribute] is
    rejected and refunds are paid. *)
Theorem getPoolStatus_and_contract deployer t0 txs pid from now v callee :
  chronological t0 txs = true →
  let s := run (deployed deployer) txs in
  let p := poolAt pid s in
  let open := (if v <=? 0 then Some ZeroContribution
               else if currentAmount p + v <=? MAX_UINT256 then None
               else Some (Panic 17)) in
  let refund := (if contributionOf from p <=? 0 then Some NoContribution
                 else if accepts callee then None
                 else Some RefundTransferFailed) in
  initiator p ≠ 0 →
  failure s (mkTx from now (Contribute pid v) callee)
  = match Frontend.getPoolStatus p now with
    | Frontend.DISBURSED | Frontend.GOAL_ACHIEVED =>
        Some (if deadlineTimestamp p <=? now then DeadlinePassed
              else GoalAlreadyAchieved)
    | Frontend.EXPIRED => Some DeadlinePassed
    | Frontend.ACTIVE =>
        if deadlineTimestamp p =? now then Some DeadlinePassed else open
    end
  ∧ failure s (mkTx from now (ClaimRefund pid) callee)
    = match Frontend.getPoolStatus p now with
      | Frontend.DISBURSED | Frontend.GOAL_ACHIEVED =>
          Some (if now <? deadlineTimestamp p then DeadlineNotReached
                else GoalWasAchieved)
      | Frontend.EXPIRED => refund
      | Frontend.ACTIVE =>
          if deadlineTimestamp p =? now then refund
          else Some DeadlineNotReached
      end
  ∧ (Frontend.getPoolStatus p now = Frontend.DISBURSED
     ↔ fundsDisbursed p = true)
  ∧ (Frontend.getPoolStatus p now = Frontend.GOAL_ACHIEVED
     ↔ goalAmount p ≤ currentAmount p ∧ fundsDisbursed p = false).
Proof.
  intros Hc s p open refund Hi.
  assert (sound s) as Hs by apply sound_run, sound_deployed.
  destruct (enough_ether deployer t0 txs pid Hc) as (_ & _ & Hback & _).
  fold s p in Hback.
  assert (_status s = _NOT_ENTERED) as Hst by by apply idle_run.
  destruct (settled_everywhere deployer txs pid) as [H1 H2 H3].
  fold s p in H1, H2, H3.
  destruct H2 as [H2 | [? _]]; [|done].
  rewrite failure_Contribute, failure_ClaimRefund;
    [ | done | done | apply (sound_ledger s Hs)].
  cbn zeta. fold p. unfold Frontend.getPoolStatus, open, refund.
  apply Z.eqb_neq in Hi. rewrite Hi.
  destruct (fundsDisbursed p) eqn:Hf.
  { rewrite (H3 eq_refl).
    split; [by destruct (_ <=? now)|]. split; [by destruct (now <? _)|].
    split; [done|]. split; [done | by intros [_ ?]]. }
  destruct (goalAchieved p) eqn:Hg.
  { split; [by destruct (_ <=? now)|]. split; [by destruct (now <? _)|].
    split; [done|]. split; [|done]. intros _. split; [|done].
    symmetry in H2. by apply Z.leb_le in H2. }
  assert (¬ goalAmount p ≤ currentAmount p) as Hnot.
  { symmetry in H2. apply Z.leb_gt in H2. lia. }
  rewrite (proj2 (Z.leb_le _ _) (Hback eq_refl from)). cbn [andb].
  destruct (deadlineTimestamp p <? now) eqn:Hlt.
  { apply Z.ltb_lt in Hlt.
    assert ((deadlineTimestamp p <=? now) = true) as -> by (apply Z.leb_le; lia).
    assert ((now <? deadlineTimestamp p) = false) as -> by (apply Z.ltb_ge; lia).
    repeat split; try done. by intros [? _]. }
  apply Z.ltb_ge in Hlt.
  destruct (deadlineTimestamp p =? now) eqn:Heq.
  - apply Z.eqb_eq in Heq.
    assert ((deadlineTimestamp p <=? now) = true) as -> by (apply Z.leb_le; lia).
    assert ((now <? deadlineTimestamp p) = false) as -> by (apply Z.ltb_ge; lia).
    repeat split; try done. by intros [? _].
  - apply Z.eqb_neq in Heq.
    assert ((deadlineTimestamp p <=? now) = false) as ->
      by (apply Z.leb_gt; lia).
    assert ((now <? deadlineTimestamp p) = true) as -> by (apply Z.ltb_lt; lia).
    repeat split; try done. by intros [? _].
Qed.

Lemma getPoolStatus_and_contract_witness :
  let s := run (deployed 9) (take 2 funded) in
  chronological 0 (take 2 funded) = true
  ∧ initiator (poolAt 1 s) ≠ 0
  ∧ Frontend.getPoolStatus (poolAt 1 s) 50 = Frontend.ACTIVE
  ∧ failure s (mkTx 8 50 (Contribute 1 60) plain) = Some DeadlinePassed
  ∧ failure s (mkTx 7 50 (ClaimRefund 1) plain) = None.
Proof.
  intros s.
  assert (chronological 0 (take 2 funded) = true) as H0
    by (vm_compute; reflexivity).
  assert (initiator (poolAt 1 s) ≠ 0) as Hi by (vm_compute; discriminate).
  destruct (getPoolStatus_and_contract 9 0 (take 2 funded) 1 8 50 60 plain
              H0 Hi) as (Hc & _).
  destruct (getPoolStatus_and_contract 9 0 (take 2 funded) 1 7 50 60 plain
              H0 Hi) as (_ & Hr & _).
  split; [exact H0|]. split; [exact Hi|]. split; [vm_compute; reflexivity|].
  split; [exact Hc | exact Hr].
Defined.

(** X18.  [isPoolExpired] and the contract disagree in one block: a
    contribution to an open pool is rejected with [DeadlinePassed] exactly
    when [isPoolExpired] holds or the block's timestamp is the deadline
    itself. *)
Theorem isPoolExpired_and_contribute deployer txs pid from now v callee :
  let s := run (deployed deployer) txs in
  let p := poolAt pid s in
  initiator p ≠ 0 →
  (failure s (mkTx from now (Contribute pid v) callee) = Some DeadlinePassed
   ↔ Frontend.isPoolExpired (deadlineTimestamp p) now = true
     ∨ now = deadlineTimestamp p)
  ∧ (Frontend.isPoolExpired (deadlineTimestamp p) now = true →
     Frontend.getPoolStatus p now ≠ Frontend.ACTIVE).
Proof.
  intros s p Hi.
  assert (sound s) as Hs by apply sound_run, sound_deployed.
  rewrite failure_Contribute;
    [ | by apply idle_run | apply (sound_ledger s Hs)].
  cbn zeta. fold p. apply Z.eqb_neq in Hi. rewrite Hi.
  unfold Frontend.isPoolExpired, Frontend.getPoolStatus. split.
  - destruct (deadlineTimestamp p <=? now) eqn:Hle.
    + apply Z.leb_le in Hle. split; [intros _|done].
      destruct (decide (now = deadlineTimestamp p)); [by right|].
      left. apply Z.ltb_lt. lia.
    + apply Z.leb_gt in Hle. split.
      * destruct (goalAchieved p); [done|].
        destruct (v <=? 0); [done|]. by destruct (_ <=? MAX_UINT256).
      * intros [H%Z.ltb_lt | H]; lia.
  - intros ->. destruct (fundsDisbursed p); [done|].
    by destruct (goalAchieved p).
Qed.

Lemma isPoolExpired_and_contribute_witness :
  let s := run (deployed 9) (take 2 funded) in
  initiator (poolAt 1 s) ≠ 0
  ∧ Frontend.isPoolExpired (deadlineTimestamp (poolAt 1 s)) 50 = false
  ∧ failure s (mkTx 8 50 (Contribute 1 60) plain) = Some DeadlinePassed.
Proof.
  intros s.
  assert (initiator (poolAt 1 s) ≠ 0) as Hi by (vm_compute; discriminate).
  split; [exact Hi|]. split; [vm_compute; reflexivity|].
  apply (proj1 (isPoolExpired_and_contribute 9 (take 2 funded) 1 8 50 60
                  plain Hi)).
  right. vm_compute; reflexivity.
Defined.

(** ** Reading a pool *)

Lemma getPoolDetails_eq pid s :
  getPoolDetails pid s =
  if initiator (poolAt pid s) =? 0 then Abort PoolNotFound s
  else pools_getter pid s.
Proof.
  unfold getPoolDetails, pools_getter. run_monad. by destruct (_ =? 0).
Qed.

Lemma getContributors_eq pid s :
  getContributors pid s =
  if initiator (poolAt pid s) =? 0 then Abort PoolNotFound s
  else Done (contributors (poolAt pid s)) s.
Proof.
  unfold getContributors. run_monad. by destruct (_ =? 0).
Qed.

(** X19.  When no caller is the zero address, the ids in use are exactly
    1 .. [_poolIdCounter] - 1: on these [getPoolDetails] returns what the
    generated getter [pools] returns and [getContributors] returns the
    list; on every other id both are rejected with [PoolNotFound], while
    the getter does not fail and returns zeros.  None of them writes. *)
Theorem views_on_pools deployer txs pid :
  forallb wf_tx txs = true →
  let s := run (deployed deployer) txs in
  let p := poolAt pid s in
  (1 ≤ pid < _poolIdCounter s →
   getPoolDetails pid s
   = Done (initiator p, beneficiary p, description p, goalAmount p,
           currentAmount p, deadlineTimestamp p, goalAchieved p,
           fundsDisbursed p) s
   ∧ pools_getter pid s = getPoolDetails pid s
   ∧ getContributors pid s = Done (contributors p) s
   ∧ initiator p ≠ 0 ∧ beneficiary p ≠ 0 ∧ 0 < goalAmount p)
  ∧ (¬ 1 ≤ pid < _poolIdCounter s →
     getPoolDetails pid s = Abort PoolNotFound s
     ∧ getContributors pid s = Abort PoolNotFound s
     ∧ pools_getter pid s
       = Done (0, 0, EmptyString, 0, 0, 0, false, false) s).
Proof.
  intros Hwf s p.
  assert (sound s) as Hs by apply sound_run, sound_deployed.
  assert (populated s) as Hp
    by (apply populated_run; [apply populated_deployed | done]).
  rewrite getPoolDetails_eq, getContributors_eq. fold p. split.
  - intros Hin. pose proof (Hp pid Hin) as Hi. fold p in Hi.
    pose proof Hi as Hi'. apply Z.eqb_neq in Hi'. rewrite Hi'.
    repeat split; try done.
    + revert Hi. unfold p, s.
      apply (everywhere_always (λ q, initiator q ≠ 0 → beneficiary q ≠ 0));
        try done.
    + by apply (settled_goal _ (settled_everywhere deployer txs pid)).
  - intros Hout.
    assert (pools s !! pid = None) as Hnone.
    { destruct (pools s !! pid) eqn:H; [|done].
      destruct Hout. by apply (sound_fresh s Hs). }
    unfold pools_getter, gets. unfold p. rewrite (poolAt_unused pid s Hnone).
    done.
Qed.

Lemma views_on_pools_witness :
  let s := run (deployed 9) funded in
  forallb wf_tx funded = true
  ∧ getPoolDetails 1 s = Done (5, 6, "well"%string, 100, 100, 50, true, false) s
  ∧ getPoolDetails 2 s = Abort PoolNotFound s.
Proof.
  intros s.
  assert (forallb wf_tx funded = true) as Hwf by (vm_compute; reflexivity).
  assert (_poolIdCounter s = 2) as Hn by (vm_compute; reflexivity).
  assert (1 ≤ 1 < _poolIdCounter s) as H1 by (rewrite Hn; lia).
  assert (¬ 1 ≤ 2 < _poolIdCounter s) as H2 by (rewrite Hn; lia).
  destruct (views_on_pools 9 funded 1 Hwf) as [Hin _].
  destruct (views_on_pools 9 funded 2 Hwf) as [_ Hout].
  split; [exact Hwf|]. split.
  - etrans; [exact (proj1 (Hin H1))|]. f_equal.
  - exact (proj1 (Hout H2)).
Defined.

(** ** The log against the flags and the ledger *)

(** X20.  Each pool pays out of its own money.  Along a history whose block
    timestamps do not go back, what the log reports as contributed to a
    pool is its [currentAmount]; what it reports as refunded and paid out
    together never exceeds that; a pool that was paid out was paid exactly
    [currentAmount] and has refunded nothing; and in a pool that was not,
    what was refunded and what is still on the ledger add up to what was
    contributed. *)
Theorem pool_pays_out_of_its_own deployer t0 txs pid :
  chronological t0 txs = true →
  let s := run (deployed deployer) txs in
  let p := poolAt pid s in
  let paid_in := logged (contribution_logged pid) (events s) in
  let refunded := logged (refund_logged pid) (events s) in
  let paid_out := logged (payout_logged pid) (events s) in
  paid_in = currentAmount p
  ∧ 0 ≤ refunded ∧ 0 ≤ paid_out
  ∧ refunded + paid_out ≤ paid_in
  ∧ (fundsDisbursed p = true → paid_out = paid_in ∧ refunded = 0)
  ∧ (fundsDisbursed p = false →
     paid_out = 0 ∧ refunded + ledger_total p = paid_in).
Proof.
  intros Hc s p paid_in refunded paid_out.
  assert (sound s) as Hs by apply sound_run, sound_deployed.
  destruct (books_run t0 (deployed deployer) txs pid
              (sound_deployed deployer) (books_deployed t0 pid deployer) Hc)
    as [B1 B2 B3 B4 B5 B6].
  fold s in B1, B2, B3, B4, B5, B6.
  fold p paid_in refunded paid_out in B1, B2, B3, B4, B5, B6.
  pose proof (sound_amount s pid Hs) as Hcur. fold p in Hcur.
  pose proof (ledger_total_nonneg s pid Hs) as Hled. fold p in Hled.
  assert (fundsDisbursed p = true → refunded = 0) as Hnone.
  { intros Hf. destruct (decide (refunded = 0)) as [|Hnz]; [done|].
    destruct (B6 Hnz) as [_ Hg]. rewrite (B5 Hf) in Hg. done. }
  destruct (fundsDisbursed p).
  - specialize (Hnone eq_refl). repeat split; try done; lia.
  - repeat split; try done; lia.
Qed.

Lemma pool_pays_out_of_its_own_witness :
  let s := run (deployed 9) expired in
  chronological 0 expired = true
  ∧ logged (contribution_logged 1) (events s) = 60
  ∧ logged (refund_logged 1) (events s) + ledger_total (poolAt 1 s) = 60.
Proof.
  intros s.
  assert (chronological 0 expired = true) as Hc by (vm_compute; reflexivity).
  assert (fundsDisbursed (poolAt 1 s) = false) as Hf
    by (vm_compute; reflexivity).
  destruct (pool_pays_out_of_its_own 9 0 expired 1 Hc)
    as (Hin & _ & _ & _ & _ & Hopen).
  split; [exact Hc|]. split.
  - etrans; [exact Hin|]. vm_compute; reflexivity.
  - etrans; [exact (proj2 (Hopen Hf))|]. etrans; [exact Hin|].
    vm_compute; reflexivity.
Defined.

(** ** What is sent, and to whom *)

(** X21.  [disburseFunds] makes one external call at most: it sends the
    pool's [currentAmount] to the pool's beneficiary, and [claimRefund]
    sends the caller's ledger entry to the caller.  Whatever a transfer of
    any other value or to any other address would do is of no consequence. *)
Theorem transfers_sent (call_value call_value' : Z → Z → M bool) msg pid s :
  let p := poolAt pid s in
  (∀ st, call_value (beneficiary p) (currentAmount p) st
         = call_value' (beneficiary p) (currentAmount p) st) →
  (∀ st, call_value (sender msg) (contributionOf (sender msg) p) st
         = call_value' (sender msg) (contributionOf (sender msg) p) st) →
  disburseFunds call_value msg pid s = disburseFunds call_value' msg pid s
  ∧ claimRefund call_value msg pid s = claimRefund call_value' msg pid s.
Proof.
  intros p Hpay Hback. split.
  - unfold disburseFunds. run_monad. cbn [_status set_status].
    repeat (autorewrite with storage; fields;
            match goal with
            | |- context [if ?c then _ else _] => destruct c; try reflexivity
            end).
    autorewrite with storage; fields. fold p. by rewrite Hpay.
  - unfold claimRefund. run_monad. cbn [_status set_status].
    repeat (autorewrite with storage; fields;
            match goal with
            | |- context [if ?c then _ else _] => destruct c; try reflexivity
            end).
    autorewrite with storage; fields. fold p. by rewrite Hback.
Qed.

Lemma transfers_sent_witness :
  let s := run (deployed 9) funded in
  let msg := mkMsg 5 0 60 in
  let pays := external_call 60 plain in
  let pays_only r a : M bool :=
    if (r =? 6) && (a =? 100) || (r =? 5) && (a =? 0) then pays r a
    else λ st, Abort (Panic 1) st in
  disburseFunds pays msg 1 s = disburseFunds pays_only msg 1 s
  ∧ claimRefund pays msg 1 s = claimRefund pays_only msg 1 s.
Proof.
  intros s msg pays pays_only.
  assert (beneficiary (poolAt 1 s) = 6) as Hb by (vm_compute; reflexivity).
  assert (currentAmount (poolAt 1 s) = 100) as Hc by (vm_compute; reflexivity).
  assert (contributionOf (sender msg) (poolAt 1 s) = 0) as Hl
    by (vm_compute; reflexivity).
  apply (transfers_sent pays pays_only msg 1 s).
  - intros st. rewrite Hb, Hc. reflexivity.
  - intros st. rewrite Hl. reflexivity.
Defined.

(** ** What the log announces *)

Lemma goal_announced_quiet pid e :
  housekeeping e = true → goal_announced pid e = 0.
Proof. by destruct e. Qed.

Lemma payout_announced_quiet pid e :
  housekeeping e = true → payout_announced pid e = 0.
Proof. by destruct e. Qed.

Lemma announced_step ok now s s' pid :
  sound s → step ok now s s' →
  logged (goal_announced pid) (events s)
  = (if goalAchieved (poolAt pid s) then 1 else 0) →
  logged (payout_announced pid) (events s)
  = (if fundsDisbursed (poolAt pid s) then 1 else 0) →
  logged (goal_announced pid) (events s')
  = (if goalAchieved (poolAt pid s') then 1 else 0)
  ∧ logged (payout_announced pid) (events s')
    = (if fundsDisbursed (poolAt pid s') then 1 else 0).
Proof.
  intros Hs Hstep A1 A2.
  destruct Hstep as
    [from b d g tt _ Hbn Hg Htt _
    | from v pid0 Hi Hd Hg Hv _ _
    | callee pid0 Hi Hg Hf Hd Hbal Hcb
    | callee from pid0 Hi Hd Hg Hc Hbal Hcb
    | a].
  - destruct (flags_after_createPool (mkMsg from 0 now) b d g tt s pid Hs)
      as (-> & ->).
    rewrite events_after_createPool, !logged_snoc. simpl. lia.
  - rewrite poolAt_after_contribute. unfold after_contribute.
    cbn [events sender value]. rewrite !logged_app.
    destruct (decide (pid0 = pid)) as [-> | Hne].
    + rewrite Hg in A1. cbn [pool_after_contribute goalAchieved fundsDisbursed].
      destruct (goalAmount _ <=? _); simpl;
        rewrite ?bool_decide_eq_true_2 by done; lia.
    + destruct (goalAmount _ <=? _); simpl;
        rewrite ?bool_decide_eq_false_2 by done; lia.
  - rewrite poolAt_after_disburseFunds.
    destruct (books_callbacks ok now _ _ Hcb (sound_disbursing pid0 s Hs Hi)
                pid) as (_ & _ & _ & -> & ->).
    unfold after_disburseFunds. cbn [events set_status log_event debit].
    rewrite !logged_snoc.
    rewrite (logged_housekeeping_callbacks (goal_announced pid) ok now _ _
               (goal_announced_quiet pid) Hcb).
    rewrite (logged_housekeeping_callbacks (payout_announced pid) ok now _ _
               (payout_announced_quiet pid) Hcb).
    rewrite poolAt_disbursing. cbn [disbursing events set_pool set_status].
    destruct (decide (pid0 = pid)) as [-> | Hne]; simpl.
    + rewrite Hf in A2. rewrite bool_decide_eq_true_2 by done. lia.
    + rewrite bool_decide_eq_false_2 by done. lia.
  - rewrite poolAt_after_claimRefund.
    destruct (books_callbacks ok now _ _ Hcb
                (sound_refunding from pid0 s Hs Hi) pid)
      as (_ & _ & _ & -> & ->).
    unfold after_claimRefund. cbn [events set_status log_event debit].
    rewrite !logged_snoc.
    rewrite (logged_housekeeping_callbacks (goal_announced pid) ok now _ _
               (goal_announced_quiet pid) Hcb).
    rewrite (logged_housekeeping_callbacks (payout_announced pid) ok now _ _
               (payout_announced_quiet pid) Hcb).
    rewrite poolAt_refunding. cbn [refunding events set_pool set_status].
    destruct (decide (pid0 = pid)) as [-> | Hne]; simpl; lia.
  - rewrite events_after_transferOwnership, !logged_snoc. simpl.
    change (poolAt pid (after_transferOwnership a s)) with (poolAt pid s).
    lia.
Qed.

(** X22.  The log announces each thing once: [GoalAchieved] is logged
    exactly once for a pool whose [goalAchieved] flag is set and never for
    a pool whose flag is not set, and [FundsDisbursed] exactly once for a
    pool whose [fundsDisbursed] flag is set and never otherwise. *)
Theorem announced_once deployer txs pid :
  let s := run (deployed deployer) txs in
  logged (goal_announced pid) (events s)
  = (if goalAchieved (poolAt pid s) then 1 else 0)
  ∧ logged (payout_announced pid) (events s)
    = (if fundsDisbursed (poolAt pid s) then 1 else 0).
Proof.
  intros s. unfold s.
  assert (∀ g, sound g →
            logged (goal_announced pid) (events g)
            = (if goalAchieved (poolAt pid g) then 1 else 0)
            ∧ logged (payout_announced pid) (events g)
              = (if fundsDisbursed (poolAt pid g) then 1 else 0) →
            logged (goal_announced pid) (events (run g txs))
            = (if goalAchieved (poolAt pid (run g txs)) then 1 else 0)
            ∧ logged (payout_announced pid) (events (run g txs))
              = (if fundsDisbursed (poolAt pid (run g txs)) then 1 else 0))
    as Hrun.
  { induction txs as [|tx txs IH]; intros g Hg [A1 A2]; [done|].
    change (run g (tx :: txs)) with (run (transact g tx) txs).
    apply IH; [by apply sound_transact|].
    destruct (transact_step (λ _, True) g tx) as [-> | Hstep]; [|done|].
    - split; [done|]. by apply Forall_true.
    - by apply (announced_step (λ _, True) (tx_time tx) g). }
  apply Hrun; [apply sound_deployed|].
  unfold poolAt; simpl. by rewrite lookup_empty.
Qed.

(** ** Progress in percent *)

Lemma Number_small x : 0 ≤ x < 2 ^ 53 → Number x = x.
Proof.
  intros [H0 Hx]. unfold Number. rewrite Z.abs_eq by done.
  assert (Z.log2 x < 53) as Hlog.
  { destruct (decide (x = 0)) as [-> | Hne]; [done|].
    apply Z.log2_lt_pow2; lia. }
  cbn zeta. by rewrite (proj2 (Z.leb_le _ _)) by lia.
Qed.

Lemma Number_large x : 2 ^ 53 ≤ x → 2 ^ 52 ≤ Number x.
Proof.
  intros Hx. unfold Number.
  assert (0 < x) as Hpos by lia.
  rewrite Z.abs_eq by lia.
  assert (53 ≤ Z.log2 x) as Hlog by (apply Z.log2_le_pow2; lia).
  cbn zeta. rewrite (proj2 (Z.leb_gt _ _)) by lia.
  set (shift := Z.log2 x + 1 - 53).
  assert (0 < shift) as Hshift by (unfold shift; lia).
  assert (0 < 2 ^ shift) as Hpow by (apply Z.pow_pos_nonneg; lia).
  assert (2 ^ 52 ≤ Z.shiftr x shift) as Hq.
  { rewrite Z.shiftr_div_pow2 by lia.
    apply Z.div_le_lower_bound; [done|].
    destruct (Z.log2_spec x Hpos) as [Hlow _].
    replace (Z.log2 x) with (shift + 52) in Hlow by (unfold shift; lia).
    rewrite Z.pow_add_r in Hlow by lia. lia. }
  rewrite Z.sgn_pos by done. rewrite Z.shiftl_mul_pow2 by lia.
  destruct (_ || _); nia.
Qed.

Lemma Number_full x : 0 ≤ x → (100 ≤ Number x ↔ 100 ≤ x).
Proof.
  intros H0. destruct (decide (x < 2 ^ 53)) as [Hs | Hl].
  - by rewrite Number_small.
  - pose proof (Number_large x ltac:(lia)). lia.
Qed.

(** X23.  The percentage the front end shows agrees with the contract's
    flag: for a pool that exists [getPoolProgress] is at least 100 exactly
    when [goalAchieved] is set; it is the quotient of [currentAmount] times
    100 by the goal, rounded down, as long as that is below 2^53; and for
    an id that is not in use it is 0. *)
Theorem getPoolProgress_and_goalAchieved deployer txs pid :
  let p := poolAt pid (run (deployed deployer) txs) in
  (initiator p ≠ 0 →
   (100 ≤ getPoolProgress p ↔ goalAchieved p = true)
   ∧ (currentAmount p * 100 / goalAmount p < 2 ^ 53 →
      getPoolProgress p = currentAmount p * 100 / goalAmount p))
  ∧ (pools (run (deployed deployer) txs) !! pid = None →
     getPoolProgress p = 0).
Proof.
  intros p. split.
  - intros Hi.
    destruct (settled_everywhere deployer txs pid) as [H1 H2 _].
    fold p in H1, H2. specialize (H1 Hi).
    destruct H2 as [H2 | [? _]]; [|done].
    pose proof (sound_amount _ pid (sound_run _ txs (sound_deployed deployer)))
      as Hcur. fold p in Hcur.
    unfold getPoolProgress. rewrite (proj2 (Z.eqb_neq _ _)) by lia.
    rewrite Z.quot_div_nonneg by lia.
    assert (0 ≤ currentAmount p * 100 / goalAmount p) as Hq
      by (apply Z.div_pos; lia).
    split.
    + rewrite Number_full by done. rewrite H2, Z.leb_le. split.
      * intros H. destruct (decide (goalAmount p ≤ currentAmount p)); [done|].
        assert (currentAmount p * 100 / goalAmount p < 100); [|lia].
        apply Z.div_lt_upper_bound; lia.
      * intros H. apply Z.div_le_lower_bound; lia.
    + intros Hsmall. by apply Number_small.
  - intros Hnone. unfold p. by rewrite (poolAt_unused pid _ Hnone).
Qed.

Lemma getPoolProgress_and_goalAchieved_witness :
  let p := poolAt 1 (run (deployed 9) (take 2 funded)) in
  initiator p ≠ 0
  ∧ getPoolProgress p = 40
  ∧ goalAchieved p = false.
Proof.
  intros p.
  assert (initiator p ≠ 0) as Hi by (vm_compute; discriminate).
  destruct (proj1 (getPoolProgress_and_goalAchieved 9 (take 2 funded) 1) Hi)
    as [Hfull Hexact].
  split; [exact Hi|]. split.
  - etrans; [apply Hexact; vm_compute; reflexivity|].
    vm_compute; reflexivity.
  - vm_compute; reflexivity.
Defined.

(** [Number] on some integers around the precision of a double: exact up to
    2^53, then to the nearest representable value, ties to the even one. *)
Lemma Number_examples :
  map Number [0; 99; 2 ^ 53; 2 ^ 53 + 1; 2 ^ 53 + 3; 2 ^ 54 + 2; 2 ^ 54 + 6;
              2 ^ 64 - 1; - (2 ^ 53 + 3)]
  = [0; 99; 2 ^ 53; 2 ^ 53; 2 ^ 53 + 4; 2 ^ 54; 2 ^ 54 + 8; 2 ^ 64;
     - (2 ^ 53 + 4)].
Proof. vm_compute. reflexivity. Qed.

(** ** The contract can pay what it owes *)

(** X24.  Along a history whose block timestamps do not go back the
    contract holds at least what any number of distinct pools are owed
    together, where a pool that was paid out is owed nothing, a pool whose
    goal is achieved is owed its [currentAmount], and any other pool is
    owed the entries left on its ledger. *)
Theorem contract_is_solvent deployer t0 txs ids :
  chronological t0 txs = true →
  NoDup ids →
  let s := run (deployed deployer) txs in
  let owed pid :=
    let p := poolAt pid s in
    if fundsDisbursed p then 0
    else if goalAchieved p then currentAmount p
    else ledger_total p in
  foldr (λ pid acc, owed pid + acc) 0 ids ≤ balance s
  ∧ (∀ pid, 0 ≤ owed pid)
  ∧ 0 ≤ balance s.
Proof.
  intros Hc Hnd s owed.
  assert (sound s) as Hs by apply sound_run, sound_deployed.
  destruct (books_solvent_run t0 (deployed deployer) txs
              (sound_deployed deployer)
              (λ k, books_deployed t0 k deployer)
              (solvent_deployed deployer) Hc) as [Hb Hsol].
  fold s in Hb, Hsol.
  assert (∀ pid, holding pid (events s) = owed pid) as Hown.
  { intros pid. apply (holding_paid_or_open _ pid s Hs (Hb pid)). }
  assert (∀ l, held l (events s) = foldr (λ pid acc, owed pid + acc) 0 l)
    as Hsum.
  { induction l as [|k l IH]; simpl; [done|]. by rewrite Hown, IH. }
  split; [rewrite <- Hsum; by apply Hsol|]. split.
  - intros pid. unfold owed.
    destruct (fundsDisbursed _); [done|].
    destruct (goalAchieved _);
      [by apply sound_amount | by apply ledger_total_nonneg].
  - apply (Hsol [] ltac:(constructor)).
Qed.

Lemma contract_is_solvent_witness :
  let s := run (deployed 9) expired in
  chronological 0 expired = true
  ∧ NoDup [1; 2]
  ∧ ledger_total (poolAt 1 s) + ledger_total (poolAt 2 s) ≤ balance s
  ∧ balance s = 20.
Proof.
  intros s.
  assert (chronological 0 expired = true) as Hc by (vm_compute; reflexivity).
  assert (NoDup [1; 2]) as Hnd.
  { apply NoDup_cons. split; [|apply NoDup_singleton].
    intros Hin. apply list_elem_of_singleton in Hin. discriminate Hin. }
  destruct (contract_is_solvent 9 0 expired [1; 2] Hc Hnd) as (Hle & _ & _).
  split; [exact Hc|]. split; [exact Hnd|]. split.
  - eapply Z.le_trans; [|exact Hle].
    apply Z.eq_le_incl. vm_compute; reflexivity.
  - vm_compute; reflexivity.
Defined.
